(** * Elastos.ELA.SPV: codec, message framing and merkle verifier

    A shallow embedding of the Go sources
      - [common/serialization] (WriteVarUint, ReadVarUint, ReadUintN, ...),
      - [core/transaction] OutPoint, [core/code] FunctionCode,
      - [msg] Header (NewHeader, Verify, Deserialize, GetCMD),
      - [bloom] MerkleBlock (MakeMerkleParent, inDeadZone, CheckMerkleBlock,
        and the message's Serialize and Deserialize),
      - [sdk] AddrFilter,
    with the properties the specification states about them and further
    properties of the code. *)

From Stdlib Require Import String Strings.Byte ZArith List Lia Bool PeanoNat.
From Stdlib Require FMapWeakList FMapFacts DecidableType.
Import ListNotations.
Open Scope Z_scope.

(** ** Go values *)

(** Errors the modelled packages return.  [io_EOF] and
    [io_ErrUnexpectedEOF] are the standard library's sentinels,
    [ErrRange] and [ErrEof] are the package variables of [serialization],
    [errors_New] is an error made on the spot from a constant text, and
    [fmt_Errorf] one whose text is formatted at run time: it keeps the
    format (for [fmt.Sprint], the constant prefix), not the rendered
    arguments. *)
Inductive error : Type :=
| io_EOF
| io_ErrUnexpectedEOF
| ErrRange
| ErrEof
| errors_New (msg : string)
| fmt_Errorf (format : string).

(** The outcome of a Go call: a value, a returned error, or a run-time
    panic (slice bounds, index out of range, makeslice). *)
Inductive result (A : Type) : Type :=
| Ok (a : A)
| Err (e : error)
| Panic.
Arguments Ok {A} a.
Arguments Err {A} e.
Arguments Panic {A}.

Definition bind {A B} (c : result A) (k : A -> result B) : result B :=
  match c with
  | Ok a => k a
  | Err e => Err e
  | Panic => Panic
  end.

Notation "x <- c ;; k" := (bind c (fun x => k))
  (at level 61, c at next level, right associativity).
Notation "' pat <- c ;; k" := (bind c (fun x => match x with pat => k end))
  (at level 61, pat pattern, c at next level, right associativity).

(** Bytes are [Byte.byte]; [Z_of_byte] and [byte_of_Z] are the
    conversions [uint64(b)] and [uint8(v)] (which truncates). *)
Definition Z_of_byte (b : byte) : Z := Z.of_N (Byte.to_N b).

Definition byte_of_Z (v : Z) : byte :=
  match Byte.of_N (Z.to_N (v mod 256)) with
  | Some b => b
  | None => x00
  end.

Definition byte_eqb (a b : byte) : bool := Byte.eqb a b.

Definition MaxUint64 : Z := 2 ^ 64 - 1.
(** The largest size the Go runtime allocates on a 64-bit platform;
    [make([]byte, n)] panics for every [n] above it. *)
Definition maxAlloc : Z := 2 ^ 48.

(** [binary.LittleEndian.PutUintN]: the [n] low bytes of [v], least
    significant first. *)
Fixpoint PutUint (n : nat) (v : Z) : list byte :=
  match n with
  | O => []
  | S n' => byte_of_Z v :: PutUint n' (v / 256)
  end.

(** [binary.LittleEndian.UintN] on a slice of N bytes. *)
Fixpoint Uint (p : list byte) : Z :=
  match p with
  | [] => 0
  | b :: p' => Z_of_byte b + 256 * Uint p'
  end.

(** ** io.Reader and io.Writer

    The readers the repository hands to the codec are [bytes.Reader]s
    ([bytes.NewReader] in OutPointFromBytes, DataReq.Deserialize and
    MerkleBlock.Deserialize): the state is the unread suffix.  The writers
    are [bytes.Buffer]s: the state is what has been written, and writing
    never fails. *)
Definition Reader : Type := list byte.
Definition Writer : Type := list byte.

(** [bytes.Reader.Read(p)]: at the end of the input it returns (0, io.EOF)
    whatever [len(p)] is; otherwise it copies min(len(p), remaining) bytes
    to the front of [p] and returns that count with a nil error.  The
    result is (n, err, p after the call, reader after the call). *)
Definition Read (r : Reader) (p : list byte)
  : nat * option error * list byte * Reader :=
  match r with
  | [] => (0%nat, Some io_EOF, p, r)
  | _ :: _ =>
      let n := Nat.min (length p) (length r) in
      (n, None, firstn n r ++ skipn n p, skipn n r)
  end.

(** [io.ReadFull] over the same reader, as [binary.Read] uses it. *)
Definition ReadFull (r : Reader) (n : nat) : result (list byte * Reader) :=
  match n with
  | O => Ok ([], r)
  | S _ =>
      match r with
      | [] => Err io_EOF
      | _ :: _ =>
          if (n <=? length r)%nat then Ok (firstn n r, skipn n r)
          else Err io_ErrUnexpectedEOF
      end
  end.

(** [bytes.Buffer.Write]. *)
Definition Write (w : Writer) (p : list byte) : result Writer := Ok (w ++ p).

(** ** Package serialization *)

(** func WriteVarUint(writer io.Writer, value uint64) error *)
Definition WriteVarUint (writer : Writer) (value : Z) : result Writer :=
  if value <? 0xFD then
    Write writer [byte_of_Z value]
  else if value <=? 0xFFFF then
    Write writer (xfd :: PutUint 2 (value mod 2 ^ 16))
  else if value <=? 0xFFFFFFFF then
    Write writer (xfe :: PutUint 4 (value mod 2 ^ 32))
  else
    Write writer (xff :: PutUint 8 value).

(** func ReadVarUint(reader io.Reader, maxint uint64) (uint64, error).
    [fb] is a zeroed 9-byte array; the slices [fb[:1]], [fb[1:3]],
    [fb[1:5]], [fb[1:9]] are read into with one [Read] each, and only the
    error of that [Read] is looked at, not its count. *)
Definition ReadVarUint (reader : Reader) (maxint : Z) : result (Z * Reader) :=
  let maxint := if maxint =? 0 then MaxUint64 else maxint in
  let '(_, err, fb0, reader) := Read reader [x00] in
  match err with
  | Some e => Err e
  | None =>
      res <-
        (if byte_eqb (hd x00 fb0) xfd then
           let '(_, err, fb, reader) := Read reader (repeat x00 2) in
           match err with
           | Some e => Err e
           | None => Ok (Uint fb, reader)
           end
         else if byte_eqb (hd x00 fb0) xfe then
           let '(_, err, fb, reader) := Read reader (repeat x00 4) in
           match err with
           | Some e => Err e
           | None => Ok (Uint fb, reader)
           end
         else if byte_eqb (hd x00 fb0) xff then
           let '(_, err, fb, reader) := Read reader (repeat x00 8) in
           match err with
           | Some e => Err e
           | None => Ok (Uint fb, reader)
           end
         else Ok (Z_of_byte (hd x00 fb0), reader)) ;;
      if fst res >? maxint then Err ErrRange else Ok res
  end.

(** func byteXReader(reader io.Reader, x uint64) ([]byte, error):
    [make([]byte, x)] panics when [x] exceeds the largest allocation (an
    allocation within it is taken to succeed); one [Read]; any positive
    count is a success and the whole zero-initialised buffer is
    returned. *)
Definition byteXReader (reader : Reader) (x : Z) : result (list byte * Reader) :=
  if x >? maxAlloc then Panic
  else
    let '(n, err, p, reader) := Read reader (repeat x00 (Z.to_nat x)) in
    if (0 <? n)%nat then Ok (p, reader)
    else match err with
         | Some e => Err e
         | None => Ok (p, reader)
         end.

(** func WriteVarBytes(writer io.Writer, value []byte) error *)
Definition WriteVarBytes (writer : Writer) (value : list byte) : result Writer :=
  writer <- WriteVarUint writer (Z.of_nat (length value)) ;;
  Write writer value.

(** func ReadVarBytes(reader io.Reader) ([]byte, error) *)
Definition ReadVarBytes (reader : Reader) : result (list byte * Reader) :=
  '(val, reader) <- ReadVarUint reader 0 ;;
  byteXReader reader val.

(** func ReadBytes(reader io.Reader, length uint64) ([]byte, error) *)
Definition ReadBytes (reader : Reader) (length : Z) : result (list byte * Reader) :=
  byteXReader reader length.

(** ReadUint8/16/32/64 share one body up to the width of [p]:
    [n, err := reader.Read(p[:]); if n <= 0 || err != nil { return 0, ErrEof }]. *)
Definition ReadUintN (width : nat) (reader : Reader) : result (Z * Reader) :=
  let '(n, err, p, reader) := Read reader (repeat x00 width) in
  if (n <=? 0)%nat then Err ErrEof
  else match err with
       | Some _ => Err ErrEof
       | None => Ok (Uint p, reader)
       end.

Definition ReadUint8 := ReadUintN 1.
Definition ReadUint16 := ReadUintN 2.
Definition ReadUint32 := ReadUintN 4.
Definition ReadUint64 := ReadUintN 8.

Definition WriteUint8 (w : Writer) (val : Z) : result Writer := Write w [byte_of_Z val].
Definition WriteUint16 (w : Writer) (val : Z) : result Writer := Write w (PutUint 2 val).
Definition WriteUint32 (w : Writer) (val : Z) : result Writer := Write w (PutUint 4 val).
Definition WriteUint64 (w : Writer) (val : Z) : result Writer := Write w (PutUint 8 val).

(** *** WriteElement / ReadElement

    The type switch of [WriteElement] over [interface{}] becomes a match
    on a tagged value; [ReadElement] switches on the pointer's type, and
    for the two slice cases ranges over the slice as the caller made it,
    so its target carries that length. *)
Definition Uint256 : Type := list byte.

(** [bytes.Equal], and [Uint256.IsEqual], which compares the arrays. *)
Definition bytes_Equal (a b : list byte) : bool :=
  if list_eq_dec Byte.byte_eq_dec a b then true else false.

Definition Uint256_IsEqual (u o : Uint256) : bool := bytes_Equal u o.

Inductive element : Type :=
| E_Uint256 (u : Uint256)
| E_Uint256s (l : list Uint256)
| E_Uint256ptrs (l : list Uint256)
| E_bytes (b : list byte)
| E_uint8 (v : Z)
| E_uint16 (v : Z)
| E_uint32 (v : Z).

Inductive target : Type :=
| T_Uint256
| T_Uint256s (len : nat)
| T_Uint256ptrs (len : nat)
| T_bytes
| T_uint8
| T_uint16
| T_uint32.

(** Modelled from the spec: [Uint256.Serialize] and [Uint256.Deserialize]
    of package common, which the sources call but do not contain.  The
    spec gives a Hash256 as 32 bytes on the wire (an OutPoint is "32 + 2
    bytes"): the 32 bytes are written as they are and read back in full. *)
Definition Uint256_Serialize (w : Writer) (u : Uint256) : result Writer :=
  Write w u.

Definition Uint256_Deserialize (r : Reader) : result (Uint256 * Reader) :=
  ReadFull r 32.

(** [binary.Write] and [binary.Read] of a fixed-width unsigned integer. *)
Definition binary_Write (w : Writer) (width : nat) (v : Z) : result Writer :=
  Write w (PutUint width v).

Definition binary_Read (r : Reader) (width : nat) : result (Z * Reader) :=
  '(p, r) <- ReadFull r width ;;
  Ok (Uint p, r).

Fixpoint WriteUint256s (w : Writer) (l : list Uint256) : result Writer :=
  match l with
  | [] => Ok w
  | v :: l' => w <- Uint256_Serialize w v ;; WriteUint256s w l'
  end.

(** func WriteElement(writer io.Writer, element interface{}) (err error) *)
Definition WriteElement (w : Writer) (e : element) : result Writer :=
  match e with
  | E_Uint256 u => Uint256_Serialize w u
  | E_Uint256s l => WriteUint256s w l
  | E_Uint256ptrs l => WriteUint256s w l
  | E_bytes b => WriteVarBytes w b
  | E_uint8 v => binary_Write w 1 v
  | E_uint16 v => binary_Write w 2 v
  | E_uint32 v => binary_Write w 4 v
  end.

(** func WriteElements(writer io.Writer, elements ...interface{}) error *)
Fixpoint WriteElements (w : Writer) (elements : list element) : result Writer :=
  match elements with
  | [] => Ok w
  | e :: es => w <- WriteElement w e ;; WriteElements w es
  end.

Fixpoint ReadUint256s (r : Reader) (len : nat) : result (list Uint256 * Reader) :=
  match len with
  | O => Ok ([], r)
  | S len' =>
      '(v, r) <- Uint256_Deserialize r ;;
      '(vs, r) <- ReadUint256s r len' ;;
      Ok (v :: vs, r)
  end.

(** func ReadElement(reader io.Reader, element interface{}) (err error) *)
Definition ReadElement (r : Reader) (t : target) : result (element * Reader) :=
  match t with
  | T_Uint256 => '(u, r) <- Uint256_Deserialize r ;; Ok (E_Uint256 u, r)
  | T_Uint256s len => '(l, r) <- ReadUint256s r len ;; Ok (E_Uint256s l, r)
  | T_Uint256ptrs len => '(l, r) <- ReadUint256s r len ;; Ok (E_Uint256ptrs l, r)
  | T_bytes => '(b, r) <- ReadVarBytes r ;; Ok (E_bytes b, r)
  | T_uint8 => '(v, r) <- binary_Read r 1 ;; Ok (E_uint8 v, r)
  | T_uint16 => '(v, r) <- binary_Read r 2 ;; Ok (E_uint16 v, r)
  | T_uint32 => '(v, r) <- binary_Read r 4 ;; Ok (E_uint32 v, r)
  end.

(** func ReadElements(reader io.Reader, elements ...interface{}) error *)
Fixpoint ReadElements (r : Reader) (ts : list target) : result (list element * Reader) :=
  match ts with
  | [] => Ok ([], r)
  | t :: ts' =>
      '(e, r) <- ReadElement r t ;;
      '(es, r) <- ReadElements r ts' ;;
      Ok (e :: es, r)
  end.

(** ** Package transaction: OutPoint *)
Module OutPoint.

Record OutPoint : Type := NewOutPoint { TxID : Uint256; Index : Z }.

(** The values of the Go type: a 32-byte array and a uint16. *)
Definition wf (op : OutPoint) : Prop :=
  length (TxID op) = 32%nat /\ 0 <= Index op < 2 ^ 16.

(** func (op *OutPoint) Serialize(w io.Writer) error *)
Definition Serialize (op : OutPoint) (w : Writer) : result Writer :=
  WriteElements w [E_Uint256 (TxID op); E_uint16 (Index op)].

(** func (op *OutPoint) Deserialize(r io.Reader) error: the receiver's
    fields as they are after a nil error. *)
Definition Deserialize (op : OutPoint) (r : Reader) : result (OutPoint * Reader) :=
  '(es, r) <- ReadElements r [T_Uint256; T_uint16] ;;
  match es with
  | [E_Uint256 u; E_uint16 v] => Ok (NewOutPoint u v, r)
  | _ => Panic
  end.

(** func (op *OutPoint) Bytes() []byte *)
Definition Bytes (op : OutPoint) : list byte :=
  match Serialize op [] with
  | Ok w => w
  | _ => []
  end.

(** func OutPointFromBytes(value []byte): a fresh OutPoint, or the error. *)
Definition OutPointFromBytes (value : list byte) : result OutPoint :=
  '(op, _) <- Deserialize (NewOutPoint (repeat x00 32) 0) value ;;
  Ok op.

End OutPoint.

(** ** Package code: FunctionCode

    [ContractParameterType] and the two conversions between
    [[]ContractParameterType] and [[]byte] are declared in package
    contract, outside the sources: they are parameters here. *)
Module FunctionCode.
Section WithContract.

Variable ContractParameterType : Type.
Variable ContractParameterTypeToByte : list ContractParameterType -> list byte.
Variable ByteToContractParameterType : list byte -> list ContractParameterType.

Record FunctionCode : Type := mkFunctionCode {
  Code : list byte;
  ParameterTypes : list ContractParameterType;
  ReturnTypes : list ContractParameterType
}.

(** func (fc *FunctionCode) Serialize(w io.Writer) error *)
Definition Serialize (fc : FunctionCode) (w : Writer) : result Writer :=
  w <- WriteVarBytes w (ContractParameterTypeToByte (ParameterTypes fc)) ;;
  w <- WriteVarBytes w (Code fc) ;;
  Ok w.

(** func (fc *FunctionCode) Deserialize(r io.Reader) error: the receiver
    after a nil error; [ReturnTypes] is not assigned. *)
Definition Deserialize (fc : FunctionCode) (r : Reader)
  : result (FunctionCode * Reader) :=
  '(p, r) <- ReadVarBytes r ;;
  let fc := mkFunctionCode (Code fc) (ByteToContractParameterType p) (ReturnTypes fc) in
  '(c, r) <- ReadVarBytes r ;;
  Ok (mkFunctionCode c (ParameterTypes fc) (ReturnTypes fc), r).

End WithContract.
End FunctionCode.

(** ** Package msg: DataReq *)
Module DataReq.

Record DataReq : Type := mkDataReq { Type_ : Z; Hash : Uint256 }.

Definition wf (m : DataReq) : Prop :=
  0 <= Type_ m < 2 ^ 8 /\ length (Hash m) = 32%nat.

(** func (msg *DataReq) Serialize() ([]byte, error) *)
Definition Serialize (m : DataReq) : result (list byte) :=
  WriteElements [] [E_uint8 (Type_ m); E_Uint256 (Hash m)].

(** func (msg *DataReq) Deserialize(body []byte) error *)
Definition Deserialize (m : DataReq) (body : list byte) : result DataReq :=
  '(es, _) <- ReadElements body [T_uint8; T_Uint256] ;;
  match es with
  | [E_uint8 t; E_Uint256 u] => Ok (mkDataReq t u)
  | _ => Panic
  end.

End DataReq.

(** ** Package msg: Header *)

(** [bytes.IndexByte]: the index of the first [c] in [b], or -1. *)
Fixpoint IndexByte (b : list byte) (c : byte) : Z :=
  match b with
  | [] => -1
  | x :: b' =>
      if byte_eqb x c then 0
      else let k := IndexByte b' c in if k <? 0 then -1 else k + 1
  end.

Module Header.

Definition CMDLEN : nat := 12.
Definition CMDOFFSET : nat := 4.
Definition CHECKSUMLEN : nat := 4.
Definition HEADERLEN : nat := 24.

Definition EmptyMsgSum : list byte := [x5d; xf6; xe0; xe2].

Record Header : Type := mkHeader {
  Magic : Z;
  CMD : list byte;
  Length : Z;
  Checksum : list byte
}.

(** The values of the Go struct: uint32, [12]byte, uint32, [4]byte. *)
Definition wf (h : Header) : Prop :=
  0 <= Magic h < 2 ^ 32 /\ length (CMD h) = CMDLEN /\
  0 <= Length h < 2 ^ 32 /\ length (Checksum h) = CHECKSUMLEN.

(** [copy(dst, src)] into a zeroed array of [n] bytes. *)
Definition copy_into (n : nat) (src : list byte) : list byte :=
  firstn n src ++ repeat x00 (n - length src).

Section WithConfig.

(** [config.Config().Magic] and [core.Sha256D] come from packages
    outside the sources. *)
Variable config_Magic : Z.
Variable Sha256D : list byte -> list byte.

(** func NewHeader(cmd string, checksum []byte, length int) *Header.
    [header.CMD[:len(cmd)]] panics for a command longer than the array,
    [checksum[:CHECKSUMLEN]] for a checksum shorter than four bytes. *)
Definition NewHeader (cmd : list byte) (checksum : list byte) (len : Z)
  : result Header :=
  if (CMDLEN <? length cmd)%nat then Panic
  else if (length checksum <? CHECKSUMLEN)%nat then Panic
  else Ok (mkHeader config_Magic
                    (copy_into CMDLEN cmd)
                    (len mod 2 ^ 32)
                    (copy_into CHECKSUMLEN (firstn CHECKSUMLEN checksum))).

(** func BuildHeader(cmd string, msg []byte) *Header *)
Definition BuildHeader (cmd : list byte) (msg : list byte) : result Header :=
  let checksum := Sha256D msg in
  NewHeader cmd checksum (Z.of_nat (length msg)).

(** func (header *Header) Serialize() ([]byte, error): [binary.Write] of
    the struct, field after field, little endian. *)
Definition Serialize (header : Header) : result (list byte) :=
  Ok (PutUint 4 (Magic header) ++ CMD header ++
      PutUint 4 (Length header) ++ Checksum header).

(** func BuildMessage(cmd string, body []byte) ([]byte, error) *)
Definition BuildMessage (cmd : list byte) (body : list byte) : result (list byte) :=
  header <- BuildHeader cmd body ;;
  hdr <- Serialize header ;;
  Ok (hdr ++ body).

(** func (header *Header) Verify(buf []byte) error; [Ok tt] is the nil
    error. *)
Definition Verify (header : Header) (buf : list byte) : result unit :=
  if negb (Magic header =? config_Magic) then
    Err (fmt_Errorf "Unmatched magic number ")
  else
    let sum := Sha256D buf in
    let checksum := firstn CHECKSUMLEN sum in
    if negb (bytes_Equal (Checksum header) checksum) then
      Err (fmt_Errorf "Unmatched checksum, expecting %s get $s")
    else Ok tt.

(** func (header *Header) Deserialize(buf []byte) error: the header
    read, or the error.  [buf[CMDOFFSET:CMDOFFSET+CMDLEN]] and
    [buf[:HEADERLEN]] panic on a buffer that is too short (the buffer's
    capacity is taken to be its length). *)
Definition Deserialize (buf : list byte) : result Header :=
  if (length buf <? CMDOFFSET + CMDLEN)%nat then Panic
  else
    let cmd := firstn CMDLEN (skipn CMDOFFSET buf) in
    let end_ := IndexByte cmd x00 in
    if (end_ <? 0) || (end_ >=? Z.of_nat CMDLEN) then
      Err (errors_New "Unexpected length of CMD")
    else if (length buf <? HEADERLEN)%nat then Panic
    else
      let hdr := firstn HEADERLEN buf in
      Ok (mkHeader (Uint (firstn 4 hdr))
                   (firstn CMDLEN (skipn 4 hdr))
                   (Uint (firstn 4 (skipn 16 hdr)))
                   (firstn CHECKSUMLEN (skipn 20 hdr))).

(** func (header *Header) GetCMD() string: [header.CMD[:end]] panics
    when [end] is -1. *)
Definition GetCMD (header : Header) : result (list byte) :=
  let end_ := IndexByte (CMD header) x00 in
  if end_ <? 0 then Panic
  else Ok (firstn (Z.to_nat end_) (CMD header)).

End WithConfig.
End Header.

(** ** Package bloom: the merkle verifier *)

(** uint32 arithmetic: every result is reduced modulo 2^32. *)
Definition u32 (z : Z) : Z := z mod 2 ^ 32.
Definition shl32 (a n : Z) : Z := u32 (Z.shiftl a n).

Module Merkle.

(** A [*Uint256]: nil or a hash. *)
Definition hashptr : Type := option Uint256.

(** type MerkleBlock struct; of [BlockHeader] (a [core.Header], declared
    outside the sources) the verifier reads [MerkleRoot] only. *)
Record MerkleBlock : Type := mkMerkleBlock {
  MerkleRoot : Uint256;
  Transactions : Z;
  Hashes : list hashptr;
  Flags : list byte
}.

(** type merkleNode struct *)
Record merkleNode : Type := mkNode { p : Z; h : hashptr }.

(** What a call of CheckMerkleBlock comes to: its two return values, a
    run-time panic, or no return at all. *)
Inductive outcome : Type :=
| Returned (r : list hashptr) (err : option error)
| Panicked
| NoReturn.

(** func treeDepth(n uint32) (e uint32): [for ; (1 << e) < n; e++ {}].
    [None] when the fuel runs out. *)
Fixpoint treeDepth_loop (fuel : nat) (n e : Z) : option Z :=
  match fuel with
  | O => None
  | S fuel' =>
      if shl32 1 e <? n then treeDepth_loop fuel' n (u32 (e + 1))
      else Some e
  end.

Definition treeDepth (n : Z) : option Z := treeDepth_loop 33 n 0.

(** func nextPowerOfTwo(n uint32) uint32 *)
Definition nextPowerOfTwo (n : Z) : option Z :=
  match treeDepth n with
  | Some e => Some (shl32 1 e)
  | None => None
  end.

(** The loop of inDeadZone: [for pos >= h { h = h>>1 | msb; last = last>>1 | msb }]. *)
Fixpoint inDeadZone_loop (fuel : nat) (pos msb h last : Z) : option bool :=
  match fuel with
  | O => None
  | S fuel' =>
      if pos >=? h then
        inDeadZone_loop fuel' pos msb
          (Z.lor (Z.shiftr h 1) msb) (Z.lor (Z.shiftr last 1) msb)
      else Some (pos >? last)
  end.

(** func inDeadZone(pos, size uint32) bool *)
Definition inDeadZone (pos size : Z) : option bool :=
  match nextPowerOfTwo size with
  | None => None
  | Some msb =>
      let last := u32 (size - 1) in
      if pos >? u32 (shl32 msb 1 - 2) then Some true
      else inDeadZone_loop 34 pos msb msb last
  end.

(** The stack is a slice: index 0 is the bottom, [len(s)-1] the tip. *)
Definition node_at (s : list merkleNode) (k : Z) : option merkleNode :=
  if k <? 0 then None else nth_error s (Z.to_nat k).

(** [s[k].h = h]. *)
Definition set_h (s : list merkleNode) (k : nat) (hv : hashptr) : list merkleNode :=
  match nth_error s k with
  | Some n => firstn k s ++ mkNode (p n) hv :: skipn (S k) s
  | None => s
  end.

Definition filled (n : option merkleNode) : bool :=
  match n with
  | Some (mkNode _ (Some _)) => true
  | _ => false
  end.

(** The variables of the main loop. *)
Record state : Type := mkState {
  s : list merkleNode;
  r : list hashptr;
  pos : Z;
  i : Z;
  mHashes : list hashptr;
  mFlags : list byte
}.

Inductive step_result : Type :=
| Continue (st : state)
| Done (o : outcome).

(** What bounds the iterations still to come: two for every flag bit not
    yet used and one for every node on the stack. *)
Definition measure (st : state) : Z :=
  2 * (8 * Z.of_nat (length (mFlags st)) - i st) + Z.of_nat (length (s st)).

(** The flag position is a bit of the byte at the head of [m.Flags]. *)
Definition flag_position_ok (st : state) : Prop :=
  0 <= i st < 8 /\ (mFlags st = [] -> i st = 0).

Section WithHash.

(** [Sha256D] of package common. *)
Variable Sha256D : list byte -> list byte.

(** func MakeMerkleParent(left, right *Uint256): the parent or an error;
    the parent is the hash of the 64 bytes [left || right]. *)
Definition MakeMerkleParent (left right : hashptr) : result Uint256 :=
  match left, right with
  | Some l, Some r' =>
      if Uint256_IsEqual l r' then Err (errors_New "DUP HASH CRASH")
      else Ok (Sha256D (l ++ r'))
  | None, _ => Err (errors_New "Left child is nil")
  | Some l, None => Ok (Sha256D (l ++ l))
  end.

(** [m.Flags[0]&(1<<i) != 0], with [1<<i] a byte. *)
Definition flag_set (f0 : byte) (i : Z) : bool :=
  negb (Z.land (Z_of_byte f0) (Z.shiftl 1 i mod 256) =? 0).

(** The end of an iteration that pushed a node:
    [i++; if i == 8 { i = 0; m.Flags = m.Flags[1:] }]. *)
Definition advance (st : state) : state :=
  let i' := (i st + 1) mod 256 in
  if i' =? 8 then mkState (s st) (r st) (pos st) 0 (mHashes st) (tl (mFlags st))
  else mkState (s st) (r st) (pos st) i' (mHashes st) (mFlags st).

(** The end of an iteration when no stack operation applies: a new node
    is made from the message's hashes and flag bits and pushed on the
    stack. *)
Definition new_node (transactions msb : Z) (st : state) : step_result :=
  match mHashes st, mFlags st with
  | [], _ =>
      Done (Returned [] (Some (fmt_Errorf "Ran out of hashes at position %d.")))
  | _ :: _, [] =>
      Done (Returned [] (Some (fmt_Errorf "Ran out of flag bits.")))
  | h0 :: hashes', f0 :: _ =>
      if negb (Z.land (pos st) msb =? 0) then
        (* upper non-txid hash *)
        if negb (flag_set f0 (i st)) then
          let pos' := if negb (Z.land (pos st) 1 =? 0)
                      then Z.lor (Z.shiftr (pos st) 1) msb
                      else Z.lor (pos st) 1 in
          Continue (advance
            (mkState (s st ++ [mkNode (pos st) h0]) (r st) pos' (i st)
                     hashes' (mFlags st)))
        else
          let pos' := shl32 (Z.lxor (pos st) msb) 1 in
          Continue (advance
            (mkState (s st ++ [mkNode (pos st) None]) (r st) pos' (i st)
                     (mHashes st) (mFlags st)))
      else
        (* bottom row txid *)
        if pos st >=? transactions then
          Done (Returned [] (Some (fmt_Errorf "got into an invalid txid node")))
        else
          let r' := if flag_set f0 (i st) then r st ++ [h0] else r st in
          let pos' := if Z.land (pos st) 1 =? 0
                      then Z.lor (pos st) 1 else pos st in
          Continue (advance
            (mkState (s st ++ [mkNode (pos st) h0]) r' pos' (i st)
                     hashes' (mFlags st)))
  end.

(** [tip == 0 && s[0].h != nil]: the stack is one filled item. *)
Definition complete (s : list merkleNode) : bool :=
  (Z.of_nat (length s) - 1 =? 0) && filled (node_at s 0).

(** [tip > 1 && s[tip-1].h != nil && s[tip].h != nil]: three items or more,
    the last two filled. *)
Definition combinable (s : list merkleNode) : bool :=
  let tip := Z.of_nat (length s) - 1 in
  (tip >? 1) && filled (node_at s (tip - 1)) && filled (node_at s tip).

(** One iteration of the main loop of CheckMerkleBlock. *)
Definition step (root : Uint256) (transactions msb : Z) (st : state) : step_result :=
  let tip := Z.of_nat (length (s st)) - 1 in
  if complete (s st) then
    (* stack is one filled item: complete *)
    match node_at (s st) 0 with
    | Some (mkNode _ (Some h0)) =>
        if Uint256_IsEqual h0 root then Done (Returned (r st) None)
        else Done (Returned [] (Some (fmt_Errorf "computed root %s but expect %s\n")))
    | _ => Done Panicked
    end
  else
    match inDeadZone (pos st) transactions with
    | None => Done NoReturn
    | Some true =>
        (* partial parent: hash the left child with itself *)
        match node_at (s st) tip with
        | None => Done Panicked
        | Some ntip =>
            match MakeMerkleParent (h ntip) None with
            | Err e => Done (Returned (r st) (Some e))
            | Panic => Done Panicked
            | Ok hv =>
                match node_at (s st) (tip - 1) with
                | None => Done Panicked
                | Some _ =>
                    let s1 := set_h (s st) (Z.to_nat (tip - 1)) (Some hv) in
                    let s2 := firstn (Z.to_nat tip) s1 in
                    match node_at s2 (tip - 1) with
                    | None => Done Panicked
                    | Some n =>
                        Continue (mkState s2 (r st) (Z.lor (p n) 1) (i st)
                                          (mHashes st) (mFlags st))
                    end
                end
            end
        end
    | Some false =>
        if combinable (s st) then
          (* combine two filled nodes into the parent node *)
          match node_at (s st) (tip - 1), node_at (s st) tip with
          | Some nl, Some nr =>
              match MakeMerkleParent (h nl) (h nr) with
              | Err e => Done (Returned (r st) (Some e))
              | Panic => Done Panicked
              | Ok hv =>
                  let s1 := set_h (s st) (Z.to_nat (tip - 2)) (Some hv) in
                  let s2 := firstn (Z.to_nat (tip - 1)) s1 in
                  match node_at s2 (tip - 2) with
                  | None => Done Panicked
                  | Some n =>
                      Continue (mkState s2 (r st) (Z.lor (p n) 1) (i st)
                                        (mHashes st) (mFlags st))
                  end
              end
          | _, _ => Done Panicked
          end
        else
          new_node transactions msb st
    end.

(** The main loop, and with the outcome the hashes of [m.Hashes] not
    yet popped when the function returned. *)
Fixpoint run (fuel : nat) (root : Uint256) (transactions msb : Z) (st : state)
  : outcome * list hashptr :=
  match fuel with
  | O => (NoReturn, mHashes st)
  | S fuel' =>
      match step root transactions msb st with
      | Done o => (o, mHashes st)
      | Continue st' => run fuel' root transactions msb st'
      end
  end.

(** Every iteration that goes on either pops the stack or uses up a
    flag bit, so this many iterations are never all used. *)
Definition iterations (m : MerkleBlock) : nat := 16 * length (Flags m) + 1.

(** The variables when the main loop is entered: an empty stack, nothing
    found, the position of the root, the first flag bit. *)
Definition initial (m : MerkleBlock) (msb : Z) : state :=
  mkState [] [] (u32 (shl32 msb 1 - 2)) 0 (Hashes m) (Flags m).

(** func CheckMerkleBlock(m MerkleBlock) ([]*Uint256, error), together
    with what is left of [m.Hashes]. *)
Definition CheckMerkleBlock_run (m : MerkleBlock) : outcome * list hashptr :=
  if Transactions m =? 0 then
    (Returned [] (Some (fmt_Errorf "No transactions in merkleblock")), Hashes m)
  else if (length (Flags m) =? 0)%nat then
    (Returned [] (Some (fmt_Errorf "No flag bits")), Hashes m)
  else
    match nextPowerOfTwo (Transactions m) with
    | None => (NoReturn, Hashes m)
    | Some msb =>
        run (iterations m) (MerkleRoot m) (Transactions m) msb (initial m msb)
    end.

(** The iterations as a relation: [reaches st st'] when the loop gets from
    [st] to [st'], [runs_to st res] when from [st] it returns [res]. *)
Inductive reaches (root : Uint256) (transactions msb : Z) : state -> state -> Prop :=
| reaches_here st : reaches root transactions msb st st
| reaches_step st st1 st2 :
    step root transactions msb st = Continue st1 ->
    reaches root transactions msb st1 st2 ->
    reaches root transactions msb st st2.

Inductive runs_to (root : Uint256) (transactions msb : Z)
  : state -> outcome * list hashptr -> Prop :=
| runs_done st o :
    step root transactions msb st = Done o ->
    runs_to root transactions msb st (o, mHashes st)
| runs_step st st1 res :
    step root transactions msb st = Continue st1 ->
    runs_to root transactions msb st1 res ->
    runs_to root transactions msb st res.

(** An iteration makes a new node when no stack operation applies. *)
Definition makes_node (transactions : Z) (st : state) : bool :=
  negb (complete (s st)) &&
  match inDeadZone (pos st) transactions with
  | Some false => negb (combinable (s st))
  | _ => false
  end.

Definition CheckMerkleBlock (m : MerkleBlock) : outcome :=
  fst (CheckMerkleBlock_run m).

End WithHash.
End Merkle.

(** A byte of [Bits] or [MatchedBits] as a flag: set when not zero. *)
Definition bit_of (b : byte) : bool := negb (byte_eqb b x00).

(** The flag bits still to be read: those of the byte at the head of
    [m.Flags] from position [i] on, then those of the bytes after it. *)
Definition bits8 (f : byte) : list bool :=
  map (Merkle.flag_set f) [0; 1; 2; 3; 4; 5; 6; 7].

Definition stream (st : Merkle.state) : list bool :=
  skipn (Z.to_nat (Merkle.i st)) (flat_map bits8 (Merkle.mFlags st)).

(** ** The builder of partial merkle trees

    The test [run] of package bloom builds a tree with [MBlock], checks it
    with CheckMerkleBlock, and is in the sources; [MBlock]'s methods are
    not. *)
Module MBlock.

Record MBlock : Type := mkMBlock {
  NumTx : Z;
  AllHashes : list Uint256;
  MatchedBits : list byte
}.

(** [isParent |= m.MatchedBits[i]] on bytes. *)
Definition byte_or (a b : byte) : byte :=
  byte_of_Z (Z.lor (Z_of_byte a) (Z_of_byte b)).

Section WithHash.

Variable Sha256D : list byte -> list byte.
Variable m : MBlock.

(** Modelled from the spec: [HashMerkleBranches], the parent of two
    nodes, which §4.3 gives as [SHA256D(left || right)]. *)
Definition HashMerkleBranches (left right : Uint256) : Uint256 :=
  Sha256D (left ++ right).

(** Modelled from the spec: [MBlock.CalcTreeWidth], the number of nodes
    of the tree at [height] above the leaves: the leaves are paired
    level after level, an odd last node alone, so this is
    [(NumTx + 2^height - 1) >> height]. *)
Definition CalcTreeWidth (height : nat) : Z :=
  Z.shiftr (NumTx m + Z.shiftl 1 (Z.of_nat height) - 1) (Z.of_nat height).

(** Modelled from the spec: [MBlock.CalcHash], the hash of the node at
    [height] and index [pos]: a leaf is its transaction id, a parent the
    hash of its two children, the left child taken twice where the right
    one is beyond the width of the level (the "dead zone" of §4.3). *)
Fixpoint CalcHash (height : nat) (pos : Z) : Uint256 :=
  match height with
  | O => nth (Z.to_nat pos) (AllHashes m) []
  | S height' =>
      let left := CalcHash height' (pos * 2) in
      let right := if pos * 2 + 1 <? CalcTreeWidth height'
                   then CalcHash height' (pos * 2 + 1) else left in
      HashMerkleBranches left right
  end.

(** Whether a leaf below the node at [height], [pos] is matched: the
    bytes [MatchedBits[i]] for [pos<<height <= i < (pos+1)<<height],
    [i < NumTx], or-ed together. *)
Fixpoint or_matched (count : nat) (i : Z) (acc : byte) : byte :=
  match count with
  | O => acc
  | S count' =>
      if i <? NumTx m
      then or_matched count' (i + 1)
                      (byte_or acc (nth (Z.to_nat i) (MatchedBits m) x00))
      else acc
  end.

Definition isParent (height : nat) (pos : Z) : byte :=
  or_matched (2 ^ height) (Z.shiftl pos (Z.of_nat height)) x00.

(** Modelled from the spec: [MBlock.TraverseAndBuild], the depth-first
    construction of what the verifier of §4.3 consumes: one flag bit per
    node visited, set when a matched leaf lies below it; the node's hash
    for a leaf and for an inner node whose bit is clear; for an inner
    node whose bit is set, its left child and then, when it exists, its
    right child.  The result is what the call appends to [Bits] and to
    [FinalHashes]. *)
Fixpoint TraverseAndBuild (height : nat) (pos : Z) : list byte * list Uint256 :=
  let isP := isParent height pos in
  match height with
  | O => ([isP], [CalcHash height pos])
  | S height' =>
      if byte_eqb isP x00 then ([isP], [CalcHash height pos])
      else
        let '(bl, hl) := TraverseAndBuild height' (pos * 2) in
        let '(br, hr) :=
          if pos * 2 + 1 <? CalcTreeWidth height'
          then TraverseAndBuild height' (pos * 2 + 1) else ([], []) in
        (isP :: bl ++ br, hl ++ hr)
  end.

(** What the verifier makes of the part of the proof built for the node
    at [height], [pos]: [found] are the hashes of the leaves whose flag
    bit is set, in order; [clean] says that no parent the proof descends
    into has two children with the same hash. *)
Fixpoint found (height : nat) (pos : Z) : list Merkle.hashptr :=
  match height with
  | O => if bit_of (isParent 0 pos) then [Some (CalcHash 0 pos)] else []
  | S height' =>
      if byte_eqb (isParent height pos) x00 then []
      else found height' (pos * 2) ++
           (if pos * 2 + 1 <? CalcTreeWidth height'
            then found height' (pos * 2 + 1) else [])
  end.

Fixpoint clean (height : nat) (pos : Z) : bool :=
  match height with
  | O => true
  | S height' =>
      if byte_eqb (isParent height pos) x00 then true
      else clean height' (pos * 2) &&
           (if pos * 2 + 1 <? CalcTreeWidth height'
            then clean height' (pos * 2 + 1) &&
                 negb (Uint256_IsEqual (CalcHash height' (pos * 2))
                                       (CalcHash height' (pos * 2 + 1)))
            else true)
  end.

(** No two sibling nodes of the tree below the node at [height], [pos]
    have the same hash: the trees that CVE-2012-2459 is not about. *)
Fixpoint siblings_differ (height : nat) (pos : Z) : bool :=
  match height with
  | O => true
  | S height' =>
      siblings_differ height' (pos * 2) &&
      (if pos * 2 + 1 <? CalcTreeWidth height'
       then siblings_differ height' (pos * 2 + 1) &&
            negb (Uint256_IsEqual (CalcHash height' (pos * 2))
                                  (CalcHash height' (pos * 2 + 1)))
       else true)
  end.

(** [height := 0; for mBlock.CalcTreeWidth(height) > 1 { height++ }] *)
Fixpoint height_loop (fuel : nat) (height : nat) : option nat :=
  match fuel with
  | O => None
  | S fuel' =>
      if CalcTreeWidth height >? 1 then height_loop fuel' (S height)
      else Some height
  end.

(** [merkleBlock.Flags[i/8] |= mBlock.Bits[i] << (i % 8)], for [i] from
    the given index on, over the rest of [Bits]. *)
Fixpoint set_flags (bits : list byte) (i : nat) (flags : list byte) : list byte :=
  match bits with
  | [] => flags
  | b :: bits' =>
      let q := (i / 8)%nat in
      let f := byte_of_Z (Z.lor (Z_of_byte (nth q flags x00))
                                (Z.shiftl (Z_of_byte b) (Z.of_nat (i mod 8)) mod 256)) in
      set_flags bits' (S i) (firstn q flags ++ f :: skipn (S q) flags)
  end.

(** The merkle block that [run] hands to CheckMerkleBlock. *)
Definition build : option Merkle.MerkleBlock :=
  match height_loop 33 0, Merkle.treeDepth (NumTx m) with
  | Some height, Some depth =>
      let '(Bits, FinalHashes) := TraverseAndBuild height 0 in
      let merkleRoot := CalcHash (Z.to_nat depth) 0 in
      Some (Merkle.mkMerkleBlock
              merkleRoot
              (NumTx m)
              (map Some FinalHashes)
              (set_flags Bits 0 (repeat x00 ((length Bits + 7) / 8))))
  | _, _ => None
  end.

End WithHash.

(** The block of [txs] transactions with the given ids, of which those
    in [matches] are of interest, as [run] fills it in. *)
Definition of_matches (hashes : list Uint256) (matches : list bool) : MBlock :=
  mkMBlock (Z.of_nat (length hashes)) hashes
           (map (fun b : bool => if b then x01 else x00) matches).

End MBlock.

(** The transaction ids of the matched leaves, in leaf order. *)
Fixpoint matched_ids (hashes : list Uint256) (matches : list bool) : list Uint256 :=
  match hashes, matches with
  | hv :: hashes', b :: matches' =>
      if b then hv :: matched_ids hashes' matches' else matched_ids hashes' matches'
  | _, _ => []
  end.

(** ** The wire forms, as the specification words them *)

(** The VarUint form of §4.1: one byte below 0xFD is the value itself;
    0xFD is followed by a uint16, 0xFE by a uint32, 0xFF by a uint64,
    little endian. *)
Definition VarUint_form (v : Z) : list byte :=
  if v <? 0xFD then [byte_of_Z v]
  else if v <? 2 ^ 16 then xfd :: PutUint 2 v
  else if v <? 2 ^ 32 then xfe :: PutUint 4 v
  else xff :: PutUint 8 v.

(** VarBytes: the VarUint length, then the bytes. *)
Definition VarBytes_form (b : list byte) : list byte :=
  VarUint_form (Z.of_nat (length b)) ++ b.

(** ** SHA-256

    [Sha256D] of package common is [sha256.Sum256] applied twice.  The
    properties below hold for any function in its place and take it as a
    parameter; this is SHA-256 itself (FIPS 180-4), with which the model
    runs on concrete messages. *)
Module Sha256.

Definition w32 (z : Z) : Z := z mod 2 ^ 32.

Definition rotr (n x : Z) : Z :=
  Z.lor (Z.shiftr x n) (w32 (Z.shiftl x (32 - n))).

Definition Ch (x y z : Z) : Z :=
  Z.lxor (Z.land x y) (Z.land (Z.lxor x 0xffffffff) z).
Definition Maj (x y z : Z) : Z :=
  Z.lxor (Z.lxor (Z.land x y) (Z.land x z)) (Z.land y z).
Definition Sigma0 (x : Z) : Z :=
  Z.lxor (Z.lxor (rotr 2 x) (rotr 13 x)) (rotr 22 x).
Definition Sigma1 (x : Z) : Z :=
  Z.lxor (Z.lxor (rotr 6 x) (rotr 11 x)) (rotr 25 x).
Definition sigma0 (x : Z) : Z :=
  Z.lxor (Z.lxor (rotr 7 x) (rotr 18 x)) (Z.shiftr x 3).
Definition sigma1 (x : Z) : Z :=
  Z.lxor (Z.lxor (rotr 17 x) (rotr 19 x)) (Z.shiftr x 10).

(** The round constants are the first 32 bits of the fractional parts of
    the cube roots of the first 64 primes, the initial hash value those of
    the square roots of the first 8. *)
Definition primes : list Z :=
  [2; 3; 5; 7; 11; 13; 17; 19; 23; 29; 31; 37; 41; 43; 47; 53; 59; 61; 67;
   71; 73; 79; 83; 89; 97; 101; 103; 107; 109; 113; 127; 131; 137; 139; 149;
   151; 157; 163; 167; 173; 179; 181; 191; 193; 197; 199; 211; 223; 227;
   229; 233; 239; 241; 251; 257; 263; 269; 271; 277; 281; 283; 293; 307;
   311].

(** The integer cube root below 2^n, bit by bit. *)
Fixpoint cube_root (n : nat) (x acc : Z) : Z :=
  match n with
  | O => acc
  | S n' =>
      let c := acc + 2 ^ Z.of_nat n' in
      if c * c * c <=? x then cube_root n' x c else cube_root n' x acc
  end.

Definition K : list Z :=
  Eval vm_compute in map (fun q => w32 (cube_root 36 (q * 2 ^ 96) 0)) primes.

Definition H0 : list Z :=
  Eval vm_compute in map (fun q => w32 (Z.sqrt (q * 2 ^ 64))) (firstn 8 primes).

(** Big-endian words. *)
Fixpoint word_of (bs : list byte) (acc : Z) : Z :=
  match bs with
  | [] => acc
  | b :: bs' => word_of bs' (acc * 256 + Z_of_byte b)
  end.

Fixpoint bytes_of (n : nat) (v : Z) (acc : list byte) : list byte :=
  match n with
  | O => acc
  | S n' => bytes_of n' (v / 256) (byte_of_Z v :: acc)
  end.

Fixpoint words (n : nat) (bs : list byte) : list Z :=
  match n with
  | O => []
  | S n' => word_of (firstn 4 bs) 0 :: words n' (skipn 4 bs)
  end.

(** The message schedule, latest word first. *)
Fixpoint schedule (n : nat) (ws : list Z) : list Z :=
  match n with
  | O => ws
  | S n' =>
      let w := w32 (sigma1 (nth 1 ws 0) + nth 6 ws 0
                    + sigma0 (nth 14 ws 0) + nth 15 ws 0) in
      schedule n' (w :: ws)
  end.

Definition round (st : list Z) (kw : Z * Z) : list Z :=
  match st with
  | [a; b; c; d; e; f; g; h] =>
      let t1 := h + Sigma1 e + Ch e f g + fst kw + snd kw in
      let t2 := Sigma0 a + Maj a b c in
      [w32 (t1 + t2); a; b; c; w32 (d + t1); e; f; g]
  | _ => st
  end.

Definition compress (hs : list Z) (block : list byte) : list Z :=
  let ws := rev (schedule 48 (rev (words 16 block))) in
  let st := fold_left round (combine K ws) hs in
  map (fun xy => w32 (fst xy + snd xy)) (combine hs st).

Fixpoint blocks (n : nat) (hs : list Z) (bs : list byte) : list Z :=
  match n with
  | O => hs
  | S n' => blocks n' (compress hs (firstn 64 bs)) (skipn 64 bs)
  end.

Definition pad (msg : list byte) : list byte :=
  let l := Z.of_nat (length msg) in
  msg ++ x80 :: repeat x00 (Z.to_nat ((55 - l) mod 64)) ++ bytes_of 8 (8 * l) [].

Definition Sum256 (msg : list byte) : list byte :=
  let padded := pad msg in
  let hs := blocks (length padded / 64) H0 padded in
  flat_map (fun v => bytes_of 4 v []) hs.

Definition Sha256D (data : list byte) : list byte := Sum256 (Sum256 data).

End Sha256.

(** ** The tree as the verifier numbers it

    In a tree of depth [d] the rows are numbered one after the other: the
    leaves take the positions from 0, the row above them those from
    [2^d], and so on up to the root at [2^(d+1) - 2].  [position l e k] is
    the position of node [k] of the row [l] above the leaves, in a tree of
    depth [l + e]. *)
Definition pw (n : nat) : Z := 2 ^ Z.of_nat n.

Definition position (l e : nat) (k : Z) : Z := pw (l + e + 1) - pw (e + 1) + k.

(** The byte whose bits, least significant first, are [bs]. *)
Fixpoint bits_val (bs : list bool) : Z :=
  match bs with
  | [] => 0
  | b :: bs' => Z.b2z b + 2 * bits_val bs'
  end.

Definition byte_of_bits (bs : list bool) : byte := byte_of_Z (bits_val bs).

(** A byte of [Bits] or [MatchedBits] is 0 or 1. *)
Definition is_bit (b : byte) : Prop := b = x00 \/ b = x01.

(** A valid merkle tree over the given transaction ids: one in which no
    two sibling nodes have the same hash. *)
Definition valid_tree (Sha256D : list byte -> list byte) (hashes : list Uint256) : bool :=
  match Merkle.treeDepth (Z.of_nat (length hashes)) with
  | Some depth =>
      MBlock.siblings_differ Sha256D (MBlock.of_matches hashes []) (Z.to_nat depth) 0
  | None => false
  end.

(** ** Package serialization: strings

    A Go string is the sequence of its bytes; [[]byte(value)] and
    [string(val)] change the type, not the bytes. *)

(** func WriteVarString(writer io.Writer, value string) error *)
Definition WriteVarString (writer : Writer) (value : list byte) : result Writer :=
  writer <- WriteVarUint writer (Z.of_nat (length value)) ;;
  writer <- Write writer value ;;
  Ok writer.

(** func ReadVarString(reader io.Reader) (string, error) *)
Definition ReadVarString (reader : Reader) : result (list byte * Reader) :=
  '(val, reader) <- ReadVarBytes reader ;;
  Ok (val, reader).

(** The pointer a caller passes to ReadElement for a value [WriteElement]
    was given: the same type and, for the two slices, the same length. *)
Definition target_of (e : element) : target :=
  match e with
  | E_Uint256 _ => T_Uint256
  | E_Uint256s l => T_Uint256s (length l)
  | E_Uint256ptrs l => T_Uint256ptrs (length l)
  | E_bytes _ => T_bytes
  | E_uint8 _ => T_uint8
  | E_uint16 _ => T_uint16
  | E_uint32 _ => T_uint32
  end.

(** The values of the Go types behind an [element]: hashes of 32 bytes,
    integers of their width, a byte slice within the largest allocation. *)
Definition element_wf (e : element) : Prop :=
  match e with
  | E_Uint256 u => length u = 32%nat
  | E_Uint256s l | E_Uint256ptrs l => Forall (fun u => length u = 32%nat) l
  | E_bytes b => Z.of_nat (length b) <= maxAlloc
  | E_uint8 v => 0 <= v < 2 ^ 8
  | E_uint16 v => 0 <= v < 2 ^ 16
  | E_uint32 v => 0 <= v < 2 ^ 32
  end.

(** An empty byte slice: the one element whose wire form ReadElement
    reads back only when more input follows. *)
Definition is_empty_bytes (e : element) : bool :=
  match e with
  | E_bytes [] => true
  | _ => false
  end.

(** [subsequence l1 l2]: [l1] is [l2] with some of its elements left out,
    the others in their order. *)
Inductive subsequence {A : Type} : list A -> list A -> Prop :=
| subsequence_nil : subsequence [] []
| subsequence_skip x l1 l2 : subsequence l1 l2 -> subsequence l1 (x :: l2)
| subsequence_take x l1 l2 : subsequence l1 l2 -> subsequence (x :: l1) (x :: l2).

(** ** Package bloom: the merkleblock message

    [BlockHeader] is a [core.Header]: the type and its two methods are
    declared outside the sources, so they are parameters here.  The
    header's Deserialize is given the receiver, whose fields it may
    leave as they are. *)
Module MerkleBlockMsg.
Section WithHeader.

Variable Header : Type.
Variable Header_Serialize : Header -> Writer -> result Writer.
Variable Header_Deserialize : Header -> Reader -> result (Header * Reader).

Record MerkleBlock : Type := mkMerkleBlock {
  BlockHeader : Header;
  Transactions : Z;
  Hashes : list Merkle.hashptr;
  Flags : list byte
}.

(** func (msg *MerkleBlock) CMD() string *)
Definition CMD (msg : MerkleBlock) : string := "merkleblock".

(** [*v] for every [v] of a [[]*Uint256]: [None] when one of them is
    nil, which is where WriteElement panics. *)
Fixpoint deref_all (l : list Merkle.hashptr) : option (list Uint256) :=
  match l with
  | [] => Some []
  | None :: _ => None
  | Some u :: l' =>
      match deref_all l' with
      | Some us => Some (u :: us)
      | None => None
      end
  end.

(** func (msg *MerkleBlock) Serialize() ([]byte, error); the buffer
    written before a panic is not seen by anyone. *)
Definition Serialize (msg : MerkleBlock) : result (list byte) :=
  buf <- Header_Serialize (BlockHeader msg) [] ;;
  match deref_all (Hashes msg) with
  | None => Panic
  | Some hashes =>
      buf <- WriteElements buf
               [E_uint32 (Transactions msg);
                E_uint32 (u32 (Z.of_nat (length (Hashes msg))));
                E_Uint256ptrs hashes; E_bytes (Flags msg)] ;;
      Ok buf
  end.

(** func (msg *MerkleBlock) Deserialize(body []byte) error: the message
    after a nil error. *)
Definition Deserialize (msg : MerkleBlock) (body : list byte) : result MerkleBlock :=
  '(header, buf) <- Header_Deserialize (BlockHeader msg) body ;;
  '(transactions, buf) <- ReadUint32 buf ;;
  '(hashes, buf) <- ReadUint32 buf ;;
  '(es, _) <- ReadElements buf [T_Uint256ptrs (Z.to_nat hashes); T_bytes] ;;
  match es with
  | [E_Uint256ptrs l; E_bytes flags] =>
      Ok (mkMerkleBlock header transactions (map Some l) flags)
  | _ => Panic
  end.

(** The values of the Go struct that a message can carry: a uint32, a
    slice whose length fits the uint32 written for it, hashes that are
    32 bytes each, flag bytes within the largest allocation. *)
Definition wf (msg : MerkleBlock) : Prop :=
  0 <= Transactions msg < 2 ^ 32 /\
  Z.of_nat (length (Hashes msg)) < 2 ^ 32 /\
  Forall (fun h => exists u, h = Some u /\ length u = 32%nat) (Hashes msg) /\
  Z.of_nat (length (Flags msg)) <= maxAlloc.

End WithHeader.
End MerkleBlockMsg.

(** ** Package sdk: AddrFilter

    [addrs] is a Go map from [Uint168] (an array of 21 bytes) to
    [*Uint168]: a finite map with decidable keys, here the weak list
    maps of the standard library.  A pointer that is not nil is modelled
    by the array it points to when it is handed over; [nil] pointers and
    the nil map of a zero [AddrFilter] are [None].  The mutex serialises
    the calls: they are modelled one after the other. *)
Module Uint168Key <: DecidableType.DecidableType.
Definition t : Type := list byte.
Definition eq : t -> t -> Prop := @Logic.eq t.
Definition eq_refl : forall x : t, eq x x := @Logic.eq_refl t.
Definition eq_sym : forall x y : t, eq x y -> eq y x := @Logic.eq_sym t.
Definition eq_trans : forall x y z : t, eq x y -> eq y z -> eq x z := @Logic.eq_trans t.
Definition eq_dec : forall x y : t, {eq x y} + {~ eq x y} :=
  list_eq_dec Byte.byte_eq_dec.
End Uint168Key.

Module AddrMap := FMapWeakList.Make Uint168Key.
Module AddrMapFacts := FMapFacts.WFacts AddrMap.

Module AddrFilter.

Definition Uint168 : Type := list byte.

(** type AddrFilter struct *)
Record AddrFilter : Type := mkAddrFilter {
  addrs : option (AddrMap.t Uint168)
}.

(** [new(AddrFilter)]: the map is nil. *)
Definition zero : AddrFilter := mkAddrFilter None.

(** [for _, addr := range addrs { filter.addrs[*addr] = addr }]; [*addr]
    panics on a nil pointer. *)
Fixpoint load (m : AddrMap.t Uint168) (l : list (option Uint168))
  : result (AddrMap.t Uint168) :=
  match l with
  | [] => Ok m
  | None :: _ => Panic
  | Some addr :: l' => load (AddrMap.add addr addr m) l'
  end.

(** func (filter *AddrFilter) LoadAddrs(addrs []*Uint168): the filter
    after the call. *)
Definition LoadAddrs (filter : AddrFilter) (l : list (option Uint168))
  : result AddrFilter :=
  m <- load (AddrMap.empty Uint168) l ;;
  Ok (mkAddrFilter (Some m)).

(** func NewAddrFilter(addrs []*Uint168) *AddrFilter *)
Definition NewAddrFilter (l : list (option Uint168)) : result AddrFilter :=
  LoadAddrs zero l.

(** func (filter *AddrFilter) IsLoaded() bool; the length of a nil map
    is 0. *)
Definition IsLoaded (filter : AddrFilter) : bool :=
  match addrs filter with
  | None => false
  | Some m => (0 <? AddrMap.cardinal m)%nat
  end.

(** func (filter *AddrFilter) AddAddr(addr *Uint168); an assignment to
    an entry of a nil map panics. *)
Definition AddAddr (filter : AddrFilter) (addr : option Uint168)
  : result AddrFilter :=
  match addr with
  | None => Panic
  | Some a =>
      match addrs filter with
      | None => Panic
      | Some m => Ok (mkAddrFilter (Some (AddrMap.add a a m)))
      end
  end.

(** func (filter *AddrFilter) DeleteAddr(hash Uint168); [delete] on a
    nil map does nothing. *)
Definition DeleteAddr (filter : AddrFilter) (hash : Uint168) : AddrFilter :=
  match addrs filter with
  | None => filter
  | Some m => mkAddrFilter (Some (AddrMap.remove hash m))
  end.

(** func (filter *AddrFilter) GetAddrs() []*Uint168: the values of the
    map in the order the range statement happens to take, which Go
    leaves open; the order of [AddrMap.elements] is one such order. *)
Definition GetAddrs (filter : AddrFilter) : list Uint168 :=
  match addrs filter with
  | None => []
  | Some m => map snd (AddrMap.elements m)
  end.

(** func (filter *AddrFilter) ContainAddr(hash Uint168) bool *)
Definition ContainAddr (filter : AddrFilter) (hash : Uint168) : bool :=
  match addrs filter with
  | None => false
  | Some m => AddrMap.mem hash m
  end.

(** Every address is stored under its own value: what the three methods
    that write the map keep. *)
Definition keyed_by_value (filter : AddrFilter) : Prop :=
  match addrs filter with
  | None => True
  | Some m => forall k v, AddrMap.MapsTo k v m -> v = k
  end.

End AddrFilter.

(** * Properties *)

(** Comparisons decided by a boolean test, turned into propositions for
    the arithmetic solver. *)
Ltac boolZ :=
  repeat match goal with
  | H : (_ >? _) = _ |- _ => rewrite Z.gtb_ltb in H
  | H : (_ >=? _) = _ |- _ => rewrite Z.geb_leb in H
  | H : (_ <? _) = true |- _ => apply Z.ltb_lt in H
  | H : (_ <? _) = false |- _ => apply Z.ltb_ge in H
  | H : (_ <=? _) = true |- _ => apply Z.leb_le in H
  | H : (_ <=? _) = false |- _ => apply Z.leb_gt in H
  | H : (_ =? _) = true |- _ => apply Z.eqb_eq in H
  | H : (_ =? _) = false |- _ => apply Z.eqb_neq in H
  end.

Ltac zlia := boolZ; try exfalso; lia.

(** ** Bytes and little-endian integers *)

Lemma Z_of_byte_range (b : byte) : 0 <= Z_of_byte b < 256.
Proof.
  unfold Z_of_byte. pose proof (Byte.to_N_bounded b). lia.
Qed.

Lemma Z_of_byte_of_Z (v : Z) : Z_of_byte (byte_of_Z v) = v mod 256.
Proof.
  unfold Z_of_byte, byte_of_Z.
  assert (Hr : 0 <= v mod 256 < 256) by (apply Z.mod_pos_bound; lia).
  destruct (Byte.of_N (Z.to_N (v mod 256))) as [b|] eqn:E.
  - apply Byte.to_of_N in E. rewrite E. lia.
  - apply Byte.of_N_None_iff in E. lia.
Qed.

Lemma byte_of_Z_of_byte (b : byte) : byte_of_Z (Z_of_byte b) = b.
Proof.
  unfold byte_of_Z, Z_of_byte.
  pose proof (Byte.to_N_bounded b) as Hb.
  rewrite Z.mod_small by lia.
  rewrite N2Z.id, Byte.of_to_N. reflexivity.
Qed.

Lemma Z_of_byte_inj (a b : byte) : Z_of_byte a = Z_of_byte b -> a = b.
Proof.
  intros E. rewrite <- (byte_of_Z_of_byte a), <- (byte_of_Z_of_byte b), E.
  reflexivity.
Qed.

Lemma byte_eqb_spec (a b : byte) : byte_eqb a b = (Z_of_byte a =? Z_of_byte b).
Proof.
  unfold byte_eqb. destruct (Byte.eqb a b) eqn:E.
  - apply Byte.byte_dec_bl in E. subst. symmetry. apply Z.eqb_refl.
  - symmetry. apply Z.eqb_neq. intros H. apply Z_of_byte_inj in H.
    apply Byte.eqb_false in E. contradiction.
Qed.

Lemma byte_eqb_of_Z (v c : Z) :
  0 <= v < 256 -> byte_eqb (byte_of_Z v) (byte_of_Z c) = (v =? c mod 256).
Proof.
  intros Hv. rewrite byte_eqb_spec, !Z_of_byte_of_Z.
  rewrite (Z.mod_small v) by lia. reflexivity.
Qed.

Lemma bytes_Equal_eq (a b : list byte) : bytes_Equal a b = true <-> a = b.
Proof.
  unfold bytes_Equal. destruct (list_eq_dec _ a b); split; congruence.
Qed.

Lemma bytes_Equal_refl (a : list byte) : bytes_Equal a a = true.
Proof. apply bytes_Equal_eq. reflexivity. Qed.

Lemma PutUint_length (n : nat) (v : Z) : length (PutUint n v) = n.
Proof.
  revert v. induction n as [|n IH]; intros v; simpl; [|rewrite IH]; reflexivity.
Qed.

Lemma Uint_PutUint (n : nat) (v : Z) :
  Uint (PutUint n v) = v mod 2 ^ (8 * Z.of_nat n).
Proof.
  revert v. induction n as [|n IH]; intros v.
  - simpl. rewrite Z.mod_1_r. reflexivity.
  - cbn [PutUint Uint]. rewrite IH, Z_of_byte_of_Z.
    replace (8 * Z.of_nat (S n)) with (8 + 8 * Z.of_nat n) by lia.
    rewrite Z.pow_add_r by lia. change (2 ^ 8) with 256.
    rewrite Z.rem_mul_r by lia. reflexivity.
Qed.

Lemma Uint_range (p : list byte) : 0 <= Uint p < 2 ^ (8 * Z.of_nat (length p)).
Proof.
  induction p as [|b p IH].
  - simpl. lia.
  - cbn [Uint length]. pose proof (Z_of_byte_range b).
    replace (8 * Z.of_nat (S (length p))) with (8 + 8 * Z.of_nat (length p)) by lia.
    rewrite Z.pow_add_r by lia. change (2 ^ 8) with 256. nia.
Qed.

Lemma PutUint_Uint (p : list byte) : PutUint (length p) (Uint p) = p.
Proof.
  induction p as [|b p IH]; [reflexivity|].
  cbn [length PutUint Uint]. pose proof (Z_of_byte_range b) as Hb.
  replace (Z_of_byte b + 256 * Uint p) with (Z_of_byte b + Uint p * 256) by lia.
  f_equal.
  - apply Z_of_byte_inj. rewrite Z_of_byte_of_Z.
    rewrite Z.mod_add by lia. apply Z.mod_small. lia.
  - rewrite Z.div_add by lia.
    rewrite Z.div_small by lia. exact IH.
Qed.

(** ** The reader *)

Lemma Read_full (p rest : list byte) :
  p <> [] ->
  Read (p ++ rest) (repeat x00 (length p)) = (length p, None, p, rest).
Proof.
  intros Hp. unfold Read.
  destruct (p ++ rest) as [|b l] eqn:E.
  - destruct p; [congruence | discriminate].
  - rewrite <- E. rewrite repeat_length, length_app.
    rewrite Nat.min_l by lia.
    rewrite firstn_app, firstn_all, Nat.sub_diag, firstn_O, app_nil_r.
    rewrite skipn_app, skipn_all, Nat.sub_diag, skipn_O.
    rewrite skipn_all2 by (rewrite repeat_length; lia).
    rewrite app_nil_r. reflexivity.
Qed.

Lemma Read_nil (p : list byte) : Read [] p = (0%nat, Some io_EOF, p, []).
Proof. reflexivity. Qed.

Lemma ReadFull_app (p rest : list byte) :
  ReadFull (p ++ rest) (length p) = Ok (p, rest).
Proof.
  unfold ReadFull. destruct p as [|b p]; [reflexivity|].
  simpl.
  assert (E : (length p <=? length (p ++ rest))%nat = true).
  { apply Nat.leb_le. rewrite length_app. lia. }
  rewrite E.
  rewrite firstn_app, firstn_all, Nat.sub_diag, firstn_O, app_nil_r.
  rewrite skipn_app, skipn_all, Nat.sub_diag, skipn_O. reflexivity.
Qed.

(** ** VarUint *)

Lemma Read_one (b : byte) (l : list byte) :
  Read (b :: l) [x00] = (1%nat, None, [b], l).
Proof. reflexivity. Qed.

Lemma Read_PutUint (n : nat) (v : Z) (rest : list byte) :
  n <> 0%nat ->
  Read (PutUint n v ++ rest) (repeat x00 n) = (n, None, PutUint n v, rest).
Proof.
  intros Hn. pose proof (Read_full (PutUint n v) rest) as H.
  rewrite PutUint_length in H. apply H.
  destruct n; [congruence | discriminate].
Qed.

Lemma byte_eqb_small (v c : Z) :
  0 <= v < 256 -> 0 <= c < 256 -> v <> c ->
  byte_eqb (byte_of_Z v) (byte_of_Z c) = false.
Proof.
  intros Hv Hc Hne. rewrite byte_eqb_of_Z by lia.
  rewrite Z.mod_small by lia. apply Z.eqb_neq. exact Hne.
Qed.

(** Reading back what WriteVarUint wrote, form by form. *)
Lemma ReadVarUint_literal (v maxint : Z) (rest : list byte) :
  0 <= v < 0xFD -> maxint = 0 \/ v <= maxint ->
  ReadVarUint (byte_of_Z v :: rest) maxint = Ok (v, rest).
Proof.
  intros Hv Hm. unfold ReadVarUint. rewrite Read_one. cbn [hd].
  change xfd with (byte_of_Z 253). change xfe with (byte_of_Z 254).
  change xff with (byte_of_Z 255).
  rewrite !byte_eqb_small by lia.
  cbn [bind fst]. rewrite Z_of_byte_of_Z, Z.mod_small by lia.
  destruct Hm as [-> | Hm].
  - cbn [Z.eqb]. unfold MaxUint64.
    destruct (v >? 2 ^ 64 - 1) eqn:E; [lia | reflexivity].
  - destruct (maxint =? 0) eqn:E0.
    + unfold MaxUint64. destruct (v >? 2 ^ 64 - 1) eqn:E; [lia | reflexivity].
    + destruct (v >? maxint) eqn:E; [lia | reflexivity].
Qed.

Lemma ReadVarUint_prefixed (pre : byte) (n : nat) (v maxint : Z) (rest : list byte) :
  (pre = xfd /\ n = 2%nat) \/ (pre = xfe /\ n = 4%nat) \/ (pre = xff /\ n = 8%nat) ->
  0 <= v < 2 ^ (8 * Z.of_nat n) -> maxint = 0 \/ v <= maxint ->
  ReadVarUint (pre :: PutUint n v ++ rest) maxint = Ok (v, rest).
Proof.
  intros Hpre Hv Hm.
  assert (Hn : n <> 0%nat) by (destruct Hpre as [[_ ->]|[[_ ->]|[_ ->]]]; discriminate).
  assert (Hv64 : v < 2 ^ 64).
  { destruct Hpre as [[_ ->]|[[_ ->]|[_ ->]]]; cbn in Hv; lia. }
  assert (Hcmp : (v >? (if maxint =? 0 then MaxUint64 else maxint)) = false).
  { unfold MaxUint64. destruct (maxint =? 0) eqn:E0; lia. }
  unfold ReadVarUint. rewrite Read_one. cbn [hd].
  destruct Hpre as [[-> ->]|[[-> ->]|[-> ->]]];
    repeat match goal with
    | |- context [byte_eqb ?a ?b] =>
        let c := eval vm_compute in (byte_eqb a b) in
        change (byte_eqb a b) with c
    end;
    cbv iota;
    rewrite Read_PutUint by discriminate;
    cbn [bind fst]; rewrite Uint_PutUint, Z.mod_small by exact Hv;
    rewrite Hcmp; reflexivity.
Qed.

(** C6.  For every uint64 [value], WriteVarUint appends exactly: the one
    byte [value] below 0xFD; 0xFD and two little-endian bytes up to
    0xFFFF; 0xFE and four little-endian bytes up to 0xFFFFFFFF; 0xFF and
    eight little-endian bytes above; and ReadVarUint, with no limit or a
    limit that [value] does not exceed, reads [value] back from what was
    written and leaves the bytes that follow. *)
Theorem WriteVarUint_forms_ReadVarUint_inverts
    (writer : Writer) (value maxint : Z) (rest : list byte) :
  0 <= value < 2 ^ 64 ->
  maxint = 0 \/ value <= maxint ->
  (value < 0xFD ->
     WriteVarUint writer value = Ok (writer ++ [byte_of_Z value])) /\
  (0xFD <= value <= 0xFFFF ->
     WriteVarUint writer value = Ok (writer ++ xfd :: PutUint 2 value)) /\
  (0xFFFF < value <= 0xFFFFFFFF ->
     WriteVarUint writer value = Ok (writer ++ xfe :: PutUint 4 value)) /\
  (0xFFFFFFFF < value ->
     WriteVarUint writer value = Ok (writer ++ xff :: PutUint 8 value)) /\
  (exists out, WriteVarUint [] value = Ok out /\
     ReadVarUint (out ++ rest) maxint = Ok (value, rest)).
Proof.
  intros Hv Hm. unfold WriteVarUint, Write.
  repeat split.
  - intros H. destruct (value <? 253) eqn:E; [reflexivity | lia].
  - intros H. destruct (value <? 253) eqn:E; [lia|].
    destruct (value <=? 65535) eqn:E1; [|lia].
    rewrite Z.mod_small by lia. reflexivity.
  - intros H. destruct (value <? 253) eqn:E; [lia|].
    destruct (value <=? 65535) eqn:E1; [lia|].
    destruct (value <=? 4294967295) eqn:E2; [|lia].
    rewrite Z.mod_small by lia. reflexivity.
  - intros H. destruct (value <? 253) eqn:E; [lia|].
    destruct (value <=? 65535) eqn:E1; [lia|].
    destruct (value <=? 4294967295) eqn:E2; [lia|]. reflexivity.
  - destruct (value <? 253) eqn:E.
    + eexists. split; [reflexivity|]. cbn [app].
      apply ReadVarUint_literal; lia.
    + destruct (value <=? 65535) eqn:E1.
      * eexists. split; [reflexivity|]. cbn [app].
        rewrite Z.mod_small by lia.
        apply (ReadVarUint_prefixed xfd 2); [tauto | cbn; lia | exact Hm].
      * destruct (value <=? 4294967295) eqn:E2.
        -- eexists. split; [reflexivity|]. cbn [app].
           rewrite Z.mod_small by lia.
           apply (ReadVarUint_prefixed xfe 4); [tauto | cbn; lia | exact Hm].
        -- eexists. split; [reflexivity|]. cbn [app].
           apply (ReadVarUint_prefixed xff 8); [tauto | cbn; lia | exact Hm].
Qed.

Lemma WriteVarUint_ReadVarUint_witness :
  (0 <= 300 < 2 ^ 64) /\ (0 = 0 \/ 300 <= 0) /\
  WriteVarUint [] 300 = Ok [xfd; x2c; x01] /\
  ReadVarUint [xfd; x2c; x01; x07] 0 = Ok (300, [x07]).
Proof.
  assert (Hv : 0 <= 300 < 2 ^ 64) by lia.
  assert (Hm : 0 = 0 \/ 300 <= 0) by (left; reflexivity).
  split; [exact Hv|]. split; [exact Hm|].
  destruct (WriteVarUint_forms_ReadVarUint_inverts [] 300 0 [x07] Hv Hm)
    as (_ & H16 & _ & _ & out & Hout & Hread).
  split.
  - apply H16. lia.
  - rewrite (H16 ltac:(lia)) in Hout. injection Hout as <-. exact Hread.
Defined.

(** C7, as the specification has it, fails: the three bytes FD 01 00
    encode the value 1, which fits a single byte, and ReadVarUint returns
    1 with a nil error. *)
Lemma ReadVarUint_noncanonical_accepted :
  1 < 0xFD /\ ReadVarUint (xfd :: PutUint 2 1) 0 = Ok (1, []).
Proof. split; [lia | reflexivity]. Qed.

(** C7, amended.  ReadVarUint does not require the shortest form: a value
    below 0xFD after the prefix 0xFD, a value that fits uint16 after 0xFE,
    and a value that fits uint32 after 0xFF are all read back as that
    value with a nil error (when the limit allows the value). *)
Theorem ReadVarUint_is_lenient (v maxint : Z) (rest : list byte) :
  maxint = 0 \/ v <= maxint ->
  (0 <= v < 0xFD ->
     ReadVarUint (xfd :: PutUint 2 v ++ rest) maxint = Ok (v, rest)) /\
  (0 <= v <= 0xFFFF ->
     ReadVarUint (xfe :: PutUint 4 v ++ rest) maxint = Ok (v, rest)) /\
  (0 <= v <= 0xFFFFFFFF ->
     ReadVarUint (xff :: PutUint 8 v ++ rest) maxint = Ok (v, rest)).
Proof.
  intros Hm. repeat split; intros Hv.
  - apply (ReadVarUint_prefixed xfd 2); [tauto | cbn; lia | exact Hm].
  - apply (ReadVarUint_prefixed xfe 4); [tauto | cbn; lia | exact Hm].
  - apply (ReadVarUint_prefixed xff 8); [tauto | cbn; lia | exact Hm].
Qed.

Lemma ReadVarUint_is_lenient_witness :
  (0 = 0 \/ 7 <= 0) /\ 0 <= 7 < 0xFD /\
  ReadVarUint (xfd :: PutUint 2 7 ++ [xaa]) 0 = Ok (7, [xaa]).
Proof.
  assert (Hm : 0 = 0 \/ 7 <= 0) by (left; reflexivity).
  assert (Hv : 0 <= 7 < 0xFD) by lia.
  split; [exact Hm|]. split; [exact Hv|].
  exact (proj1 (ReadVarUint_is_lenient 7 0 [xaa] Hm) Hv).
Defined.

(** ** Short reads and the range check *)

(** C8, as the specification has it, fails: with one byte left where two
    are asked for, ReadUint16 returns that byte, zero-extended, and a nil
    error; and on an exhausted reader ReadVarUint returns the reader's
    io.EOF, not ErrEof. *)
Lemma short_read_not_ErrEof :
  ReadUint16 [x01] = Ok (1, []) /\ ReadVarUint [] 0 = Err io_EOF.
Proof. split; reflexivity. Qed.

Lemma ReadVarUint_decoded_bound (reader reader' : Reader) (v maxint : Z) :
  ReadVarUint reader maxint = Ok (v, reader') -> 0 <= v <= MaxUint64.
Proof.
  unfold ReadVarUint.
  destruct (Read reader [x00]) as [[[n0 err0] fb0] r0].
  destruct err0 as [e|]; [discriminate|].
  assert (Hb : forall k r1, k = 2%nat \/ k = 4%nat \/ k = 8%nat ->
             forall n1 err1 fb r2, Read r1 (repeat x00 k) = (n1, err1, fb, r2) ->
             0 <= Uint fb <= MaxUint64).
  { intros k r1 Hk n1 err1 fb r2 HR.
    assert (Hlen : length fb = k).
    { unfold Read in HR. destruct r1 as [|b l].
      - injection HR as _ _ <- _. apply repeat_length.
      - injection HR as _ _ <- _.
        rewrite length_app, length_firstn, length_skipn, repeat_length.
        cbn [length]. lia. }
    pose proof (Uint_range fb) as Hr. rewrite Hlen in Hr. unfold MaxUint64.
    destruct Hk as [-> | [-> | ->]]; cbn in Hr; lia. }
  destruct (byte_eqb (hd x00 fb0) xfd).
  { destruct (Read r0 (repeat x00 2)) as [[[n1 err1] fb] r2] eqn:HR.
    destruct err1; [discriminate|]. cbn [bind fst].
    destruct (Uint fb >? _); [discriminate|]. intros H. injection H as <- _.
    eapply (Hb 2%nat); eauto. }
  destruct (byte_eqb (hd x00 fb0) xfe).
  { destruct (Read r0 (repeat x00 4)) as [[[n1 err1] fb] r2] eqn:HR.
    destruct err1; [discriminate|]. cbn [bind fst].
    destruct (Uint fb >? _); [discriminate|]. intros H. injection H as <- _.
    eapply (Hb 4%nat); eauto. }
  destruct (byte_eqb (hd x00 fb0) xff).
  { destruct (Read r0 (repeat x00 8)) as [[[n1 err1] fb] r2] eqn:HR.
    destruct err1; [discriminate|]. cbn [bind fst].
    destruct (Uint fb >? _); [discriminate|]. intros H. injection H as <- _.
    eapply (Hb 8%nat); eauto. }
  cbn [bind fst]. destruct (Z_of_byte (hd x00 fb0) >? _); [discriminate|].
  intros H. injection H as <- _.
  pose proof (Z_of_byte_range (hd x00 fb0)). unfold MaxUint64. lia.
Qed.

(** What ReadVarUint decodes does not depend on the limit: the limit only
    turns a value above it into ErrRange. *)
Lemma ReadVarUint_limit (reader reader' : Reader) (v maxint : Z) :
  ReadVarUint reader 0 = Ok (v, reader') ->
  ReadVarUint reader maxint =
    if (negb (maxint =? 0)) && (v >? maxint) then Err ErrRange else Ok (v, reader').
Proof.
  intros H0. pose proof (ReadVarUint_decoded_bound _ _ _ _ H0) as Hv.
  revert H0. unfold ReadVarUint.
  destruct (Read reader [x00]) as [[[n0 err0] fb0] r0].
  destruct err0 as [e|]; [discriminate|].
  match goal with
  | |- bind ?c _ = _ -> _ => destruct c as [[v1 r1]| |]; cbn [bind fst]
  end; try discriminate.
  change (0 =? 0) with true. cbv iota.
  destruct (v1 >? MaxUint64) eqn:E; [discriminate|].
  intros H. injection H as -> ->.
  destruct (maxint =? 0) eqn:E0; cbn [negb andb].
  - rewrite E. reflexivity.
  - reflexivity.
Qed.

(** C8, amended.  On a reader that supplies no byte, ReadUint8, ReadUint16,
    ReadUint32 and ReadUint64 fail with ErrEof, and ReadVarUint and
    ReadVarBytes fail with the reader's own error, io.EOF, as ReadBytes
    does for a length up to the largest allocation, above which it
    panics; and ReadVarUint fails with ErrRange whenever the value it
    decodes exceeds the limit given, where the limit 0 stands for no
    limit. *)
Theorem reads_at_end_and_range (reader reader' : Reader) (v maxint len : Z) :
  ReadVarUint reader 0 = Ok (v, reader') ->
  (ReadUint8 [] = Err ErrEof /\ ReadUint16 [] = Err ErrEof /\
   ReadUint32 [] = Err ErrEof /\ ReadUint64 [] = Err ErrEof) /\
  (ReadVarUint [] maxint = Err io_EOF /\ ReadVarBytes [] = Err io_EOF /\
   (0 <= len <= maxAlloc -> ReadBytes [] len = Err io_EOF) /\
   (maxAlloc < len -> ReadBytes [] len = Panic)) /\
  (maxint <> 0 -> v > maxint -> ReadVarUint reader maxint = Err ErrRange) /\
  (maxint = 0 \/ v <= maxint -> ReadVarUint reader maxint = Ok (v, reader')).
Proof.
  intros Hdec. split; [|split; [|split]].
  - repeat split; reflexivity.
  - split; [reflexivity|]. split; [reflexivity|]. split.
    + intros Hlen. unfold ReadBytes, byteXReader.
      destruct (len >? maxAlloc) eqn:E; [lia|]. reflexivity.
    + intros Hlen. unfold ReadBytes, byteXReader.
      destruct (len >? maxAlloc) eqn:E; [reflexivity | lia].
  - intros Hm Hv. rewrite (ReadVarUint_limit _ _ _ maxint Hdec).
    destruct (maxint =? 0) eqn:E0; [lia|].
    destruct (v >? maxint) eqn:E1; [reflexivity | lia].
  - intros Hm. rewrite (ReadVarUint_limit _ _ _ maxint Hdec).
    destruct (maxint =? 0) eqn:E0; [reflexivity|].
    destruct (v >? maxint) eqn:E1; [lia | reflexivity].
Qed.

Lemma reads_at_end_and_range_witness :
  ReadVarUint [xfd; x2c; x01] 0 = Ok (300, []) /\
  ReadVarUint [xfd; x2c; x01] 299 = Err ErrRange /\
  ReadVarUint [xfd; x2c; x01] 300 = Ok (300, []) /\
  (0 <= 4 <= maxAlloc) /\ ReadBytes [] 4 = Err io_EOF /\
  maxAlloc < 2 ^ 62 /\ ReadBytes [] (2 ^ 62) = Panic.
Proof.
  assert (Hl : 0 <= 4 <= maxAlloc) by (unfold maxAlloc; lia).
  assert (Hh : maxAlloc < 2 ^ 62) by (unfold maxAlloc; lia).
  assert (Hd : ReadVarUint [xfd; x2c; x01] 0 = Ok (300, [])) by reflexivity.
  split; [exact Hd|]. split; [|split; [|split; [exact Hl|split; [|split; [exact Hh|]]]]].
  - destruct (reads_at_end_and_range _ _ _ 299 4 Hd) as (_ & _ & H & _).
    apply H; lia.
  - destruct (reads_at_end_and_range _ _ _ 300 4 Hd) as (_ & _ & _ & H).
    apply H. right. lia.
  - destruct (reads_at_end_and_range _ _ _ 0 4 Hd) as (_ & (_ & _ & H & _) & _).
    exact (H Hl).
  - destruct (reads_at_end_and_range _ _ _ 0 (2 ^ 62) Hd) as (_ & (_ & _ & _ & H) & _).
    exact (H Hh).
Defined.

(** ** Round trips of the composite types *)

Lemma WriteVarUint_form (w : Writer) (v : Z) :
  0 <= v < 2 ^ 64 -> WriteVarUint w v = Ok (w ++ VarUint_form v).
Proof.
  intros Hv. unfold WriteVarUint, VarUint_form, Write.
  destruct (v <? 253) eqn:E; [reflexivity|].
  destruct (v <=? 65535) eqn:E1.
  - destruct (v <? 2 ^ 16) eqn:E2; [|lia]. rewrite Z.mod_small by lia. reflexivity.
  - destruct (v <? 2 ^ 16) eqn:E2; [lia|].
    destruct (v <=? 4294967295) eqn:E3.
    + destruct (v <? 2 ^ 32) eqn:E4; [|lia]. rewrite Z.mod_small by lia. reflexivity.
    + destruct (v <? 2 ^ 32) eqn:E4; [lia|]. reflexivity.
Qed.

Lemma ReadVarUint_form (v : Z) (rest : list byte) :
  0 <= v < 2 ^ 64 -> ReadVarUint (VarUint_form v ++ rest) 0 = Ok (v, rest).
Proof.
  intros Hv. unfold VarUint_form.
  destruct (v <? 253) eqn:E.
  - apply ReadVarUint_literal; [lia | left; reflexivity].
  - destruct (v <? 2 ^ 16) eqn:E1.
    + apply (ReadVarUint_prefixed xfd 2); [tauto | cbn; lia | left; reflexivity].
    + destruct (v <? 2 ^ 32) eqn:E2.
      * apply (ReadVarUint_prefixed xfe 4); [tauto | cbn; lia | left; reflexivity].
      * apply (ReadVarUint_prefixed xff 8); [tauto | cbn; lia | left; reflexivity].
Qed.

Lemma VarUint_form_not_nil (v : Z) : VarUint_form v <> [].
Proof.
  unfold VarUint_form.
  destruct (v <? 253); [discriminate|].
  destruct (v <? 2 ^ 16); [discriminate|].
  destruct (v <? 2 ^ 32); discriminate.
Qed.

Lemma WriteVarBytes_form (w : Writer) (value : list byte) :
  Z.of_nat (length value) <= maxAlloc ->
  WriteVarBytes w value = Ok (w ++ VarBytes_form value).
Proof.
  intros Hl. unfold WriteVarBytes, VarBytes_form, maxAlloc in *.
  rewrite WriteVarUint_form by lia. cbn [bind]. unfold Write.
  rewrite <- app_assoc. reflexivity.
Qed.

Lemma byteXReader_app (value rest : list byte) :
  Z.of_nat (length value) <= maxAlloc ->
  value <> [] \/ rest <> [] ->
  byteXReader (value ++ rest) (Z.of_nat (length value)) = Ok (value, rest).
Proof.
  intros Hl Hne. unfold byteXReader.
  destruct (Z.of_nat (length value) >? maxAlloc) eqn:E; [lia|].
  rewrite Nat2Z.id.
  destruct value as [|b value].
  - destruct Hne as [Hne | Hne]; [congruence|].
    destruct rest as [|c rest]; [congruence|]. reflexivity.
  - rewrite Read_full by discriminate. reflexivity.
Qed.

Lemma ReadVarBytes_form (value rest : list byte) :
  Z.of_nat (length value) <= maxAlloc ->
  value <> [] \/ rest <> [] ->
  ReadVarBytes (VarBytes_form value ++ rest) = Ok (value, rest).
Proof.
  intros Hl Hne. unfold ReadVarBytes, VarBytes_form.
  rewrite <- app_assoc, ReadVarUint_form by (unfold maxAlloc in Hl; lia).
  cbn [bind]. apply byteXReader_app; assumption.
Qed.

Lemma OutPoint_round_trip (op recv : OutPoint.OutPoint) (rest : list byte) :
  OutPoint.wf op ->
  OutPoint.Serialize op [] = Ok (OutPoint.TxID op ++ PutUint 2 (OutPoint.Index op)) /\
  OutPoint.Deserialize recv
    ((OutPoint.TxID op ++ PutUint 2 (OutPoint.Index op)) ++ rest) = Ok (op, rest).
Proof.
  intros [Hlen Hidx]. split; [reflexivity|].
  unfold OutPoint.Deserialize.
  cbn [ReadElements ReadElement]. unfold Uint256_Deserialize, binary_Read.
  rewrite <- app_assoc. change 32%nat with (Pos.to_nat 32). 
  replace (Pos.to_nat 32) with (length (OutPoint.TxID op)) by (rewrite Hlen; reflexivity).
  rewrite ReadFull_app. cbn [bind].
  pose proof (ReadFull_app (PutUint 2 (OutPoint.Index op)) rest) as HR.
  rewrite PutUint_length in HR. rewrite HR. cbn [bind].
  rewrite Uint_PutUint, Z.mod_small by (cbn; lia).
  destruct op; reflexivity.
Qed.

Lemma DataReq_round_trip (m recv : DataReq.DataReq) (rest : list byte) :
  DataReq.wf m ->
  DataReq.Serialize m = Ok (PutUint 1 (DataReq.Type_ m) ++ DataReq.Hash m) /\
  DataReq.Deserialize recv ((PutUint 1 (DataReq.Type_ m) ++ DataReq.Hash m) ++ rest)
    = Ok m.
Proof.
  intros [Ht Hlen]. split; [reflexivity|].
  unfold DataReq.Deserialize.
  cbn [ReadElements ReadElement]. unfold Uint256_Deserialize, binary_Read.
  rewrite <- app_assoc.
  pose proof (ReadFull_app (PutUint 1 (DataReq.Type_ m)) (DataReq.Hash m ++ rest)) as HR.
  rewrite PutUint_length in HR. rewrite HR. cbn [bind].
  change 32%nat with (Pos.to_nat 32).
  replace (Pos.to_nat 32) with (length (DataReq.Hash m)) by (rewrite Hlen; reflexivity).
  rewrite ReadFull_app. cbn [bind].
  rewrite Uint_PutUint, Z.mod_small by (cbn; lia).
  destruct m; reflexivity.
Qed.

Section FunctionCodeRoundTrip.

Variable ContractParameterType : Type.
Variable ContractParameterTypeToByte : list ContractParameterType -> list byte.
Variable ByteToContractParameterType : list byte -> list ContractParameterType.
Hypothesis conversions_invert :
  forall l, ByteToContractParameterType (ContractParameterTypeToByte l) = l.

Let FC := FunctionCode.FunctionCode ContractParameterType.

Lemma FunctionCode_round_trip (fc recv : FC) (rest : list byte) :
  Z.of_nat (length (ContractParameterTypeToByte (FunctionCode.ParameterTypes _ fc)))
    <= maxAlloc ->
  Z.of_nat (length (FunctionCode.Code _ fc)) <= maxAlloc ->
  FunctionCode.Code _ fc <> [] \/ rest <> [] ->
  exists out,
    FunctionCode.Serialize _ ContractParameterTypeToByte fc [] = Ok out /\
    FunctionCode.Deserialize _ ByteToContractParameterType recv (out ++ rest) =
      Ok (FunctionCode.mkFunctionCode _
            (FunctionCode.Code _ fc)
            (FunctionCode.ParameterTypes _ fc)
            (FunctionCode.ReturnTypes _ recv), rest).
Proof.
  intros Hp Hc Hne. unfold FunctionCode.Serialize, FunctionCode.Deserialize.
  rewrite WriteVarBytes_form by exact Hp. cbn [bind].
  rewrite WriteVarBytes_form by exact Hc. cbn [bind app].
  eexists. split; [reflexivity|].
  rewrite <- app_assoc.
  rewrite ReadVarBytes_form; [| exact Hp |].
  2:{ right. unfold VarBytes_form. intros H.
      apply app_eq_nil in H. destruct H as [H _].
      apply app_eq_nil in H. destruct H as [H _].
      exact (VarUint_form_not_nil _ H). }
  cbn [bind].
  rewrite ReadVarBytes_form by assumption. cbn [bind].
  cbn [FunctionCode.ParameterTypes FunctionCode.ReturnTypes].
  rewrite conversions_invert. reflexivity.
Qed.

End FunctionCodeRoundTrip.

Lemma firstn_app_exact {A} (n : nat) (a b : list A) :
  length a = n -> firstn n (a ++ b) = a.
Proof.
  intros <-. rewrite firstn_app, firstn_all, Nat.sub_diag, firstn_O.
  apply app_nil_r.
Qed.

Lemma skipn_app_exact {A} (n : nat) (a b : list A) :
  length a = n -> skipn n (a ++ b) = b.
Proof.
  intros <-. rewrite skipn_app, skipn_all, Nat.sub_diag, skipn_O. reflexivity.
Qed.

Lemma IndexByte_bounds (b : list byte) (c : byte) :
  -1 <= IndexByte b c < Z.of_nat (length b).
Proof.
  induction b as [|x b IH]; cbn [IndexByte length].
  - lia.
  - destruct (byte_eqb x c); [lia|].
    destruct (IndexByte b c <? 0) eqn:E; lia.
Qed.

(** [IndexByte] finds the first occurrence: the bytes before it differ
    from [c] and the byte at it is [c]; it is -1 exactly when [c] does not
    occur. *)
Lemma IndexByte_found (b : list byte) (c : byte) :
  0 <= IndexByte b c ->
  nth_error b (Z.to_nat (IndexByte b c)) = Some c /\
  ~ In c (firstn (Z.to_nat (IndexByte b c)) b).
Proof.
  induction b as [|x b IH]; cbn [IndexByte]; [lia|].
  destruct (byte_eqb x c) eqn:Ex.
  - intros _. unfold byte_eqb in Ex. apply Byte.byte_dec_bl in Ex. subst x.
    split; [reflexivity | intros []].
  - destruct (IndexByte b c <? 0) eqn:E; [lia|].
    intros _. assert (H0 : 0 <= IndexByte b c) by lia.
    destruct (IH H0) as [Hn Hf].
    replace (Z.to_nat (IndexByte b c + 1)) with (S (Z.to_nat (IndexByte b c))) by lia.
    split; [exact Hn|].
    cbn [firstn]. intros [Hx | Hin]; [|exact (Hf Hin)].
    subst x. rewrite byte_eqb_spec, Z.eqb_refl in Ex. discriminate.
Qed.

Lemma IndexByte_absent (b : list byte) (c : byte) :
  IndexByte b c < 0 <-> ~ In c b.
Proof.
  induction b as [|x b IH]; cbn [IndexByte].
  - split; [intros _ [] | lia].
  - destruct (byte_eqb x c) eqn:Ex.
    + unfold byte_eqb in Ex. apply Byte.byte_dec_bl in Ex. subst x.
      split; [lia | intros H; exfalso; apply H; left; reflexivity].
    + assert (Hne : x <> c).
      { intros ->. rewrite byte_eqb_spec, Z.eqb_refl in Ex. discriminate. }
      destruct (IndexByte b c <? 0) eqn:E.
      * split; [|lia]. intros _ [Hx | Hin]; [contradiction|].
        apply IH in Hin; [exact Hin | lia].
      * split; [lia|]. intros H. exfalso.
        assert (Hnb : ~ In c b) by (intros Hin; apply H; right; exact Hin).
        apply IH in Hnb. lia.
Qed.

Lemma Header_round_trip (h : Header.Header) :
  Header.wf h ->
  In x00 (Header.CMD h) ->
  exists out, Header.Serialize h = Ok out /\ Header.Deserialize out = Ok h.
Proof.
  intros (Hm & Hc & Hl & Hs) Hnul.
  unfold Header.Serialize. eexists. split; [reflexivity|].
  set (A := PutUint 4 (Header.Magic h)).
  set (C := PutUint 4 (Header.Length h)).
  assert (HA : length A = 4%nat) by apply PutUint_length.
  assert (HC : length C = 4%nat) by apply PutUint_length.
  unfold Header.CMDLEN, Header.CHECKSUMLEN in *.
  unfold Header.Deserialize.
  unfold Header.CMDOFFSET, Header.CMDLEN, Header.HEADERLEN, Header.CHECKSUMLEN.
  assert (Hlen : length (A ++ Header.CMD h ++ C ++ Header.Checksum h) = 24%nat).
  { rewrite !length_app. lia. }
  rewrite Hlen. cbn [Nat.ltb Nat.leb Nat.add].
  rewrite (skipn_app_exact 4 A) by exact HA.
  rewrite (firstn_app_exact 12 (Header.CMD h)) by exact Hc.
  pose proof (IndexByte_bounds (Header.CMD h) x00) as Hb. rewrite Hc in Hb.
  assert (Hnn : 0 <= IndexByte (Header.CMD h) x00).
  { destruct (Z_lt_le_dec (IndexByte (Header.CMD h) x00) 0) as [Hlt|]; [|assumption].
    apply IndexByte_absent in Hlt. contradiction. }
  destruct (IndexByte (Header.CMD h) x00 <? 0) eqn:E1; [lia|].
  assert (E2 : (IndexByte (Header.CMD h) x00 >=? Z.of_nat 12) = false)
    by (rewrite Z.geb_leb; apply Z.leb_gt; lia).
  rewrite E2. cbn [orb].
  rewrite (firstn_all2 (n := 24)) by lia.
  rewrite (firstn_app_exact 4 A) by exact HA.
  rewrite (skipn_app_exact 4 A) by exact HA.
  rewrite (firstn_app_exact 12 (Header.CMD h)) by exact Hc.
  replace (A ++ Header.CMD h ++ C ++ Header.Checksum h)
    with ((A ++ Header.CMD h) ++ C ++ Header.Checksum h)
    by (rewrite <- app_assoc; reflexivity).
  rewrite (skipn_app_exact 16) by (rewrite length_app; lia).
  rewrite (firstn_app_exact 4 C) by exact HC.
  replace ((A ++ Header.CMD h) ++ C ++ Header.Checksum h)
    with (((A ++ Header.CMD h) ++ C) ++ Header.Checksum h)
    by (rewrite <- !app_assoc; reflexivity).
  rewrite (skipn_app_exact 20) by (rewrite !length_app; lia).
  rewrite firstn_all2 by lia.
  unfold A, C. rewrite !Uint_PutUint.
  rewrite !Z.mod_small by (cbn; lia).
  destruct h; reflexivity.
Qed.

(** C4, as the specification has it, fails: FunctionCode.Serialize does
    not write [ReturnTypes], so a FunctionCode with a return type comes
    back from a fresh receiver without it. *)
Lemma FunctionCode_ReturnTypes_not_round_tripped :
  exists out fc',
    FunctionCode.Serialize byte (fun l => l)
      (FunctionCode.mkFunctionCode byte [x51] [x00] [x01]) [] = Ok out /\
    FunctionCode.Deserialize byte (fun l => l)
      (FunctionCode.mkFunctionCode byte [] [] []) out = Ok (fc', []) /\
    fc' <> FunctionCode.mkFunctionCode byte [x51] [x00] [x01].
Proof.
  eexists. eexists. split; [reflexivity|]. split; [reflexivity|]. discriminate.
Qed.

(** C4, amended.  Serializing and then deserializing gives back the value
    itself for an OutPoint and for a DataReq, and for a message Header
    whose command field holds a NUL byte; for a FunctionCode that is
    followed by more input or has a non-empty [Code] it gives back [Code]
    and [ParameterTypes], while [ReturnTypes], which is not part of the
    wire form, stays what the receiver had. *)
Theorem serialize_deserialize_round_trip :
  (forall (op recv : OutPoint.OutPoint) (rest : list byte),
      OutPoint.wf op ->
      exists out, OutPoint.Serialize op [] = Ok out /\
                  OutPoint.Deserialize recv (out ++ rest) = Ok (op, rest)) /\
  (forall (m recv : DataReq.DataReq) (rest : list byte),
      DataReq.wf m ->
      exists out, DataReq.Serialize m = Ok out /\
                  DataReq.Deserialize recv (out ++ rest) = Ok m) /\
  (forall h : Header.Header,
      Header.wf h -> In x00 (Header.CMD h) ->
      exists out, Header.Serialize h = Ok out /\ Header.Deserialize out = Ok h) /\
  (forall (T : Type) (toByte : list T -> list byte) (ofByte : list byte -> list T)
          (fc recv : FunctionCode.FunctionCode T) (rest : list byte),
      (forall l, ofByte (toByte l) = l) ->
      Z.of_nat (length (toByte (FunctionCode.ParameterTypes T fc))) <= maxAlloc ->
      Z.of_nat (length (FunctionCode.Code T fc)) <= maxAlloc ->
      FunctionCode.Code T fc <> [] \/ rest <> [] ->
      exists out,
        FunctionCode.Serialize T toByte fc [] = Ok out /\
        FunctionCode.Deserialize T ofByte recv (out ++ rest) =
          Ok (FunctionCode.mkFunctionCode T
                (FunctionCode.Code T fc)
                (FunctionCode.ParameterTypes T fc)
                (FunctionCode.ReturnTypes T recv), rest)).
Proof.
  split; [|split; [|split]].
  - intros op recv rest Hwf.
    destruct (OutPoint_round_trip op recv rest Hwf) as [HS HD].
    eexists. split; [exact HS | exact HD].
  - intros m recv rest Hwf.
    destruct (DataReq_round_trip m recv rest Hwf) as [HS HD].
    eexists. split; [exact HS | exact HD].
  - intros h Hwf Hnul. exact (Header_round_trip h Hwf Hnul).
  - intros T toByte ofByte fc recv rest Hinv Hp Hc Hne.
    exact (FunctionCode_round_trip T toByte ofByte Hinv fc recv rest Hp Hc Hne).
Qed.

Lemma serialize_deserialize_round_trip_witness :
  OutPoint.wf (OutPoint.NewOutPoint (repeat x07 32) 513) /\
  (exists out,
     OutPoint.Serialize (OutPoint.NewOutPoint (repeat x07 32) 513) [] = Ok out /\
     OutPoint.Deserialize (OutPoint.NewOutPoint [] 0) (out ++ [x09]) =
       Ok (OutPoint.NewOutPoint (repeat x07 32) 513, [x09])) /\
  (Z.of_nat (length [x51; x52]) <= maxAlloc /\ [x51; x52] <> [] /\
   exists out,
     FunctionCode.Serialize byte (fun l => l)
       (FunctionCode.mkFunctionCode byte [x51; x52] [x00] [x01]) [] = Ok out /\
     FunctionCode.Deserialize byte (fun l => l)
       (FunctionCode.mkFunctionCode byte [] [] [xff]) (out ++ []) =
       Ok (FunctionCode.mkFunctionCode byte [x51; x52] [x00] [xff], [])).
Proof.
  assert (Hwf : OutPoint.wf (OutPoint.NewOutPoint (repeat x07 32) 513)).
  { split; [reflexivity | cbn; lia]. }
  assert (Hl : Z.of_nat (length [x51; x52]) <= maxAlloc) by (unfold maxAlloc; cbn; lia).
  assert (Hl1 : Z.of_nat (length [x00]) <= maxAlloc) by (unfold maxAlloc; cbn; lia).
  assert (Hne : [x51; x52] <> @nil byte) by discriminate.
  destruct serialize_deserialize_round_trip as (HO & _ & _ & HF).
  split; [exact Hwf|]. split; [exact (HO _ _ [x09] Hwf)|].
  split; [exact Hl|]. split; [exact Hne|].
  exact (HF byte (fun l => l) (fun l => l)
            (FunctionCode.mkFunctionCode byte [x51; x52] [x00] [x01])
            (FunctionCode.mkFunctionCode byte [] [] [xff]) []
            (fun l => eq_refl) Hl1 Hl (or_introl Hne)).
Defined.

(** ** Message framing *)

(** The double hash of the empty body starts with the bytes the package
    keeps as [EmptyMsgSum]. *)
Lemma EmptyMsgSum_is_checksum_of_empty :
  firstn Header.CHECKSUMLEN (Sha256.Sha256D []) = Header.EmptyMsgSum.
Proof. vm_compute. reflexivity. Qed.

(** C5, as the specification has it, fails: a header whose command field
    is "ab", NUL, "c", NULs, and whose length field is 2^32 - 1, far above
    32 MiB, is deserialized from its 24 bytes and verified against an
    empty body without an error. *)
Lemma oversized_and_trailing_command_accepted :
  let hdr := Header.mkHeader 7 ("a" :: "b" :: x00 :: "c" :: repeat x00 8)%byte
                             (2 ^ 32 - 1) Header.EmptyMsgSum in
  2 ^ 32 - 1 > 32 * 1024 * 1024 /\
  nth_error (Header.CMD hdr) 2 = Some x00 /\
  nth_error (Header.CMD hdr) 3 = Some "c"%byte /\
  (exists buf, Header.Serialize hdr = Ok buf /\ Header.Deserialize buf = Ok hdr) /\
  Header.Verify 7 Sha256.Sha256D hdr [] = Ok tt.
Proof.
  cbv zeta. split; [lia|]. split; [reflexivity|]. split; [reflexivity|].
  split.
  - eexists. split; [reflexivity|]. vm_compute. reflexivity.
  - vm_compute. reflexivity.
Qed.

Section Framing.

Variable config_Magic : Z.
Variable Sha256D : list byte -> list byte.

Lemma Deserialize_CMD (buf : list byte) (h : Header.Header) :
  Header.Deserialize buf = Ok h ->
  Header.CMD h = firstn Header.CMDLEN (skipn Header.CMDOFFSET buf) /\
  0 <= IndexByte (Header.CMD h) x00.
Proof.
  unfold Header.Deserialize.
  destruct (length buf <? Header.CMDOFFSET + Header.CMDLEN)%nat; [discriminate|].
  destruct (IndexByte _ x00 <? 0) eqn:E1; [discriminate|].
  destruct (IndexByte _ x00 >=? _); [discriminate|]. cbn [orb].
  destruct (length buf <? Header.HEADERLEN)%nat eqn:E3; [discriminate|].
  intros H. injection H as Hh.
  assert (Hc : Header.CMD h =
               firstn Header.CMDLEN (skipn 4 (firstn Header.HEADERLEN buf)))
    by (rewrite <- Hh; reflexivity).
  rewrite Hc. clear Hh Hc.
  apply Nat.ltb_ge in E3.
  assert (Heq : firstn Header.CMDLEN (skipn 4 (firstn Header.HEADERLEN buf)) =
                firstn Header.CMDLEN (skipn Header.CMDOFFSET buf)).
  { unfold Header.CMDLEN, Header.HEADERLEN, Header.CMDOFFSET.
    rewrite skipn_firstn_comm, firstn_firstn. reflexivity. }
  rewrite Heq. split; [reflexivity | lia].
Qed.

(** C5, amended.  [Verify] rejects a header whose magic differs from the
    configured one and a header whose checksum differs from the first
    four bytes of the double SHA-256 of the body, and accepts every
    other header, whatever its length field and command; [Deserialize]
    rejects the 24 bytes of a header whose command field holds no NUL
    byte, and accepts them when it holds one, whatever follows it. *)
Theorem Verify_and_Deserialize_reject (header : Header.Header) (buf hdr : list byte) :
  length hdr = Header.HEADERLEN ->
  (Header.Magic header <> config_Magic ->
     Header.Verify config_Magic Sha256D header buf =
       Err (fmt_Errorf "Unmatched magic number ")) /\
  (Header.Magic header = config_Magic ->
   Header.Checksum header <> firstn Header.CHECKSUMLEN (Sha256D buf) ->
     Header.Verify config_Magic Sha256D header buf =
       Err (fmt_Errorf "Unmatched checksum, expecting %s get $s")) /\
  (Header.Magic header = config_Magic ->
   Header.Checksum header = firstn Header.CHECKSUMLEN (Sha256D buf) ->
     Header.Verify config_Magic Sha256D header buf = Ok tt) /\
  (~ In x00 (firstn Header.CMDLEN (skipn Header.CMDOFFSET hdr)) ->
     Header.Deserialize hdr = Err (errors_New "Unexpected length of CMD")) /\
  (In x00 (firstn Header.CMDLEN (skipn Header.CMDOFFSET hdr)) ->
     exists h, Header.Deserialize hdr = Ok h).
Proof.
  intros Hlen. unfold Header.Verify.
  split; [|split; [|split; [|split]]].
  - intros Hm. apply Z.eqb_neq in Hm. rewrite Hm. reflexivity.
  - intros Hm Hc. apply Z.eqb_eq in Hm. rewrite Hm. cbn [negb].
    destruct (bytes_Equal _ _) eqn:E; [|reflexivity].
    apply bytes_Equal_eq in E. contradiction.
  - intros Hm Hc. apply Z.eqb_eq in Hm. rewrite Hm. cbn [negb].
    rewrite Hc, bytes_Equal_refl. reflexivity.
  - intros Hno. unfold Header.Deserialize. rewrite Hlen.
    cbn [Nat.ltb Nat.leb Header.CMDOFFSET Header.CMDLEN Nat.add Header.HEADERLEN].
    apply IndexByte_absent in Hno.
    destruct (IndexByte _ x00 <? 0) eqn:E; [reflexivity | lia].
  - intros Hin. unfold Header.Deserialize. rewrite Hlen.
    cbn [Nat.ltb Nat.leb Header.CMDOFFSET Header.CMDLEN Nat.add Header.HEADERLEN].
    pose proof (IndexByte_bounds
      (firstn Header.CMDLEN (skipn Header.CMDOFFSET hdr)) x00) as Hb.
    assert (Hl12 : (length (firstn Header.CMDLEN (skipn Header.CMDOFFSET hdr)) <= 12)%nat)
      by (rewrite length_firstn; unfold Header.CMDLEN; lia).
    assert (Hnn : 0 <= IndexByte (firstn Header.CMDLEN (skipn Header.CMDOFFSET hdr)) x00).
    { destruct (Z_lt_le_dec
        (IndexByte (firstn Header.CMDLEN (skipn Header.CMDOFFSET hdr)) x00) 0)
        as [Hlt|]; [|assumption].
      apply IndexByte_absent in Hlt. contradiction. }
    unfold Header.CMDLEN, Header.CMDOFFSET in *.
    destruct (IndexByte _ x00 <? 0) eqn:E1; [lia|].
    assert (E2 : (IndexByte (firstn 12 (skipn 4 hdr)) x00 >=? Z.of_nat 12) = false)
      by (rewrite Z.geb_leb; apply Z.leb_gt; lia).
    rewrite E2. cbn [orb]. eexists. reflexivity.
Qed.

(** C10.  On a header whose command field holds a NUL byte, GetCMD
    returns the bytes before the first NUL; on one whose command field
    holds none it panics, and that is the header NewHeader makes of a
    command of twelve non-NUL characters; a header that Deserialize
    returned holds a NUL byte in its command field, so GetCMD returns on
    it. *)
Theorem GetCMD_total_iff_NUL (header : Header.Header) :
  (In x00 (Header.CMD header) ->
     exists end_ : nat,
       Header.GetCMD header = Ok (firstn end_ (Header.CMD header)) /\
       nth_error (Header.CMD header) end_ = Some x00 /\
       ~ In x00 (firstn end_ (Header.CMD header))) /\
  (~ In x00 (Header.CMD header) -> Header.GetCMD header = Panic) /\
  (forall (cmd checksum : list byte) (len : Z),
     length cmd = Header.CMDLEN -> ~ In x00 cmd ->
     (Header.CHECKSUMLEN <= length checksum)%nat ->
     exists h, Header.NewHeader config_Magic cmd checksum len = Ok h /\
               Header.CMD h = cmd /\ Header.GetCMD h = Panic) /\
  (forall buf, Header.Deserialize buf = Ok header ->
     exists cmd, Header.GetCMD header = Ok cmd).
Proof.
  assert (Hpanic : forall h, ~ In x00 (Header.CMD h) -> Header.GetCMD h = Panic).
  { intros h Hno. unfold Header.GetCMD. apply IndexByte_absent in Hno.
    destruct (IndexByte _ x00 <? 0) eqn:E; [reflexivity | lia]. }
  split; [|split; [|split]].
  - intros Hin. unfold Header.GetCMD.
    assert (Hnn : 0 <= IndexByte (Header.CMD header) x00).
    { destruct (Z_lt_le_dec (IndexByte (Header.CMD header) x00) 0) as [Hlt|];
        [|assumption].
      apply IndexByte_absent in Hlt. contradiction. }
    destruct (IndexByte_found _ _ Hnn) as [Hn Hf].
    destruct (IndexByte _ x00 <? 0) eqn:E; [lia|].
    exists (Z.to_nat (IndexByte (Header.CMD header) x00)). auto.
  - apply Hpanic.
  - intros cmd checksum len Hc Hno Hs. unfold Header.NewHeader.
    rewrite Hc. rewrite Nat.ltb_irrefl.
    destruct (length checksum <? Header.CHECKSUMLEN)%nat eqn:E;
      [apply Nat.ltb_lt in E; lia|].
    eexists. split; [reflexivity|].
    assert (Hcopy : Header.copy_into Header.CMDLEN cmd = cmd).
    { unfold Header.copy_into. rewrite Hc, Nat.sub_diag. cbn [repeat].
      rewrite app_nil_r. rewrite <- Hc. apply firstn_all. }
    cbn [Header.CMD]. split; [exact Hcopy|].
    apply Hpanic. cbn [Header.CMD]. rewrite Hcopy. exact Hno.
  - intros buf HD. apply Deserialize_CMD in HD. destruct HD as [_ Hnn].
    unfold Header.GetCMD.
    destruct (IndexByte _ x00 <? 0) eqn:E; [lia|]. eexists. reflexivity.
Qed.

End Framing.

Lemma Verify_and_Deserialize_reject_witness :
  length (repeat xff 24) = Header.HEADERLEN /\
  ~ In x00 (firstn Header.CMDLEN (skipn Header.CMDOFFSET (repeat xff 24))) /\
  Header.Deserialize (repeat xff 24) = Err (errors_New "Unexpected length of CMD") /\
  Header.Verify 7 Sha256.Sha256D
    (Header.mkHeader 8 (repeat x00 12) 0 Header.EmptyMsgSum) [] =
    Err (fmt_Errorf "Unmatched magic number ").
Proof.
  assert (Hl : length (repeat xff 24) = Header.HEADERLEN) by reflexivity.
  assert (Hno : ~ In x00 (firstn Header.CMDLEN (skipn Header.CMDOFFSET (repeat xff 24)))).
  { cbn. intros H. repeat (destruct H as [H | H]; [discriminate H|]). exact H. }
  destruct (Verify_and_Deserialize_reject 7 Sha256.Sha256D
              (Header.mkHeader 8 (repeat x00 12) 0 Header.EmptyMsgSum)
              [] (repeat xff 24) Hl) as (Hm & _ & _ & Hd & _).
  split; [exact Hl|]. split; [exact Hno|]. split; [exact (Hd Hno)|].
  apply Hm. cbn. discriminate.
Defined.

Lemma GetCMD_total_iff_NUL_witness :
  In x00 (Header.CMD (Header.mkHeader 7 ("p" :: "i" :: "n" :: "g" :: repeat x00 8)%byte
                                      0 Header.EmptyMsgSum)) /\
  (exists end_ : nat,
     Header.GetCMD (Header.mkHeader 7 ("p" :: "i" :: "n" :: "g" :: repeat x00 8)%byte
                                    0 Header.EmptyMsgSum)
       = Ok (firstn end_ ("p" :: "i" :: "n" :: "g" :: repeat x00 8)%byte) /\
     nth_error ("p" :: "i" :: "n" :: "g" :: repeat x00 8)%byte end_ = Some x00 /\
     ~ In x00 (firstn end_ ("p" :: "i" :: "n" :: "g" :: repeat x00 8)%byte)).
Proof.
  assert (Hin : In x00 (Header.CMD
            (Header.mkHeader 7 ("p" :: "i" :: "n" :: "g" :: repeat x00 8)%byte
                             0 Header.EmptyMsgSum))).
  { cbn. do 4 right. left. reflexivity. }
  split; [exact Hin|].
  exact (proj1 (GetCMD_total_iff_NUL 7 _) Hin).
Defined.

(** ** The merkle verifier: the loop ends *)

Lemma node_at_Some (s : list Merkle.merkleNode) (k : Z) (n : Merkle.merkleNode) :
  Merkle.node_at s k = Some n -> 0 <= k < Z.of_nat (length s).
Proof.
  unfold Merkle.node_at. destruct (k <? 0) eqn:E; [discriminate|].
  intros H. assert (Hn : nth_error s (Z.to_nat k) <> None) by congruence.
  apply nth_error_Some in Hn. lia.
Qed.

Lemma set_h_length (s : list Merkle.merkleNode) (k : nat) (hv : Merkle.hashptr) :
  length (Merkle.set_h s k hv) = length s.
Proof.
  unfold Merkle.set_h. destruct (nth_error s k) as [n|] eqn:E; [|reflexivity].
  assert (Hk : (k < length s)%nat) by (apply nth_error_Some; congruence).
  rewrite length_app. cbn [length]. rewrite length_firstn, length_skipn. lia.
Qed.

Lemma advance_fields (st : Merkle.state) :
  Merkle.s (Merkle.advance st) = Merkle.s st /\
  Merkle.r (Merkle.advance st) = Merkle.r st /\
  Merkle.pos (Merkle.advance st) = Merkle.pos st /\
  Merkle.mHashes (Merkle.advance st) = Merkle.mHashes st.
Proof.
  unfold Merkle.advance. destruct (_ =? 8); repeat split; reflexivity.
Qed.

Lemma advance_flags (st : Merkle.state) :
  Merkle.flag_position_ok st -> Merkle.mFlags st <> [] ->
  Merkle.flag_position_ok (Merkle.advance st) /\
  8 * Z.of_nat (length (Merkle.mFlags (Merkle.advance st))) - Merkle.i (Merkle.advance st)
    = 8 * Z.of_nat (length (Merkle.mFlags st)) - Merkle.i st - 1.
Proof.
  intros [Hi H0] Hne. unfold Merkle.advance, Merkle.flag_position_ok.
  rewrite Z.mod_small by lia.
  destruct (Merkle.mFlags st) as [|f0 fs] eqn:Ef; [congruence|].
  destruct (Merkle.i st + 1 =? 8) eqn:E; cbn [Merkle.i Merkle.mFlags tl length].
  - split; [split; [lia | reflexivity] | lia].
  - split; [split; [lia | discriminate] | cbn [length]; lia].
Qed.

(** An equation between a finished and a continuing iteration. *)
Ltac no_step := let H := fresh in intros H; discriminate H.

Section VerifierLoop.

Variable Sha256D : list byte -> list byte.
Variable root : Uint256.
Variables transactions msb : Z.

Let step := Merkle.step Sha256D root transactions msb.
Let reaches := Merkle.reaches Sha256D root transactions msb.
Let runs_to := Merkle.runs_to Sha256D root transactions msb.

Lemma measure_nonneg (st : Merkle.state) :
  Merkle.flag_position_ok st -> 0 <= Merkle.measure st.
Proof.
  intros [Hi H0]. unfold Merkle.measure.
  destruct (Merkle.mFlags st) as [|f0 fs]; [rewrite H0 by reflexivity|];
    cbn [length]; lia.
Qed.

Lemma step_decreases (st st' : Merkle.state) :
  Merkle.flag_position_ok st ->
  step st = Merkle.Continue st' ->
  Merkle.flag_position_ok st' /\ Merkle.measure st' < Merkle.measure st.
Proof.
  intros Hok. unfold step, Merkle.step, Merkle.new_node. cbv zeta.
  set (tip := Z.of_nat (length (Merkle.s st)) - 1).
  destruct (Merkle.complete (Merkle.s st)).
  { destruct (Merkle.node_at (Merkle.s st) 0) as [[p0 [h0|]]|];
      try no_step. destruct (Uint256_IsEqual h0 root); cbv iota; no_step. }
  destruct (Merkle.inDeadZone (Merkle.pos st) transactions) as [[|]|];
    [| |no_step].
  - (* dead zone *)
    destruct (Merkle.node_at (Merkle.s st) tip) as [ntip|] eqn:Etip; [|no_step].
    destruct (Merkle.MakeMerkleParent Sha256D (Merkle.h ntip) None); try no_step.
    destruct (Merkle.node_at (Merkle.s st) (tip - 1)) as [n1|] eqn:E1; [|no_step].
    destruct (Merkle.node_at (firstn _ _) _) as [n2|]; [|no_step].
    intros H. injection H as <-.
    apply node_at_Some in E1.
    unfold Merkle.flag_position_ok, Merkle.measure in *.
    cbn [Merkle.i Merkle.mFlags Merkle.s].
    rewrite length_firstn, set_h_length. split; [exact Hok | unfold tip in *; lia].
  - destruct (Merkle.combinable (Merkle.s st)) eqn:Ec.
    + (* combine *)
      destruct (Merkle.node_at (Merkle.s st) (tip - 1)) as [nl|]; [|no_step].
      destruct (Merkle.node_at (Merkle.s st) tip) as [nr|] eqn:Er; [|no_step].
      destruct (Merkle.MakeMerkleParent Sha256D _ _); try no_step.
      destruct (Merkle.node_at (firstn _ _) _) as [n2|]; [|no_step].
      intros H. injection H as <-.
      unfold Merkle.combinable in Ec. cbv zeta in Ec. fold tip in Ec.
      apply andb_prop in Ec. destruct Ec as [Ec _].
      apply andb_prop in Ec. destruct Ec as [Ec _].
      unfold Merkle.flag_position_ok, Merkle.measure in *.
      cbn [Merkle.i Merkle.mFlags Merkle.s].
      rewrite length_firstn, set_h_length. split; [exact Hok | unfold tip in *; lia].
    + (* a new node *)
      destruct (Merkle.mHashes st) as [|h0 hashes']; [no_step|].
      destruct (Merkle.mFlags st) as [|f0 fs] eqn:Ef; [no_step|].
      assert (Hpush : forall s' r' pos' hs',
                 let st1 := Merkle.advance
                   (Merkle.mkState s' r' pos' (Merkle.i st) hs' (f0 :: fs)) in
                 length s' = S (length (Merkle.s st)) ->
                 Merkle.flag_position_ok st1 /\ Merkle.measure st1 < Merkle.measure st).
      { intros s' r' pos' hs' st1 Hlen.
        assert (Hok1 : Merkle.flag_position_ok
                         (Merkle.mkState s' r' pos' (Merkle.i st) hs' (f0 :: fs))).
        { destruct Hok as [Hi _]. split; [exact Hi | discriminate]. }
        destruct (advance_flags _ Hok1) as [Hok2 Hm]; [no_step|].
        destruct (advance_fields
                    (Merkle.mkState s' r' pos' (Merkle.i st) hs' (f0 :: fs)))
          as (Hs & _).
        split; [exact Hok2|]. unfold Merkle.measure. fold st1 in Hm, Hs.
        rewrite Hm, Hs. cbn [Merkle.s Merkle.i Merkle.mFlags].
        rewrite Hlen, Ef. lia. }
      destruct (negb (Z.land (Merkle.pos st) msb =? 0)).
      * destruct (negb (Merkle.flag_set f0 (Merkle.i st)));
          intros H; injection H as <-; apply Hpush;
          rewrite length_app; cbn [length]; lia.
      * destruct (Merkle.pos st >=? transactions); [no_step|].
        intros H. injection H as <-. apply Hpush.
        rewrite length_app. cbn [length]. lia.
Qed.

Lemma run_complete (st : Merkle.state) (res : Merkle.outcome * list Merkle.hashptr) :
  runs_to st res ->
  forall fuel : nat,
    Merkle.flag_position_ok st -> Merkle.measure st < Z.of_nat fuel ->
    Merkle.run Sha256D fuel root transactions msb st = res.
Proof.
  induction 1 as [st o Hs | st st1 res Hs Hr IH]; intros fuel Hok Hm.
  - destruct fuel as [|fuel]; [pose proof (measure_nonneg st Hok); lia|].
    cbn [Merkle.run]. fold step. unfold step in Hs |- *. rewrite Hs. reflexivity.
  - destruct fuel as [|fuel]; [pose proof (measure_nonneg st Hok); lia|].
    cbn [Merkle.run]. unfold step in Hs. rewrite Hs.
    destruct (step_decreases st st1 Hok Hs) as [Hok1 Hlt].
    apply IH; [exact Hok1 | lia].
Qed.

Lemma reaches_runs_to (st st' : Merkle.state) res :
  reaches st st' -> runs_to st' res -> runs_to st res.
Proof.
  induction 1 as [st | st st1 st2 Hs Hr IH]; intros Hres; [exact Hres|].
  eapply Merkle.runs_step; [exact Hs | exact (IH Hres)].
Qed.

Lemma reaches_trans (st st1 st2 : Merkle.state) :
  reaches st st1 -> reaches st1 st2 -> reaches st st2.
Proof.
  induction 1 as [st | st sta stb Hs Hr IH]; intros H2; [exact H2|].
  eapply Merkle.reaches_step; [exact Hs | exact (IH H2)].
Qed.

Lemma reaches_one (st st' : Merkle.state) :
  step st = Merkle.Continue st' -> reaches st st'.
Proof.
  intros Hs. eapply Merkle.reaches_step; [exact Hs | apply Merkle.reaches_here].
Qed.

End VerifierLoop.

(** ** Positions in the tree: the bit operations of the verifier *)

Lemma land_pow2 (x d : Z) :
  0 <= d -> Z.land x (2 ^ d) = if Z.testbit x d then 2 ^ d else 0.
Proof.
  intros Hd. apply Z.bits_inj'. intros n Hn.
  rewrite Z.land_spec, Z.pow2_bits_eqb by exact Hd.
  destruct (Z.eqb_spec d n) as [-> | Hne].
  - destruct (Z.testbit x n); cbn [andb].
    + rewrite Z.pow2_bits_eqb by exact Hn. rewrite Z.eqb_refl. reflexivity.
    + rewrite Z.bits_0. reflexivity.
  - rewrite andb_false_r.
    destruct (Z.testbit x d).
    + rewrite Z.pow2_bits_eqb by exact Hd.
      symmetry. apply Z.eqb_neq. exact Hne.
    + rewrite Z.bits_0. reflexivity.
Qed.

Lemma testbit_below (x d : Z) : 0 <= d -> 0 <= x < 2 ^ d -> Z.testbit x d = false.
Proof.
  intros Hd Hx. rewrite Z.testbit_odd, Z.shiftr_div_pow2 by exact Hd.
  rewrite Z.div_small by exact Hx. reflexivity.
Qed.

Lemma testbit_top (x d : Z) :
  0 <= d -> 2 ^ d <= x < 2 ^ (d + 1) -> Z.testbit x d = true.
Proof.
  intros Hd Hx. rewrite Z.testbit_odd, Z.shiftr_div_pow2 by exact Hd.
  rewrite Z.pow_add_r in Hx by lia. change (2 ^ 1) with 2 in Hx.
  assert (E : x / 2 ^ d = 1).
  { symmetry. apply (Z.div_unique x (2 ^ d) 1 (x - 2 ^ d)); lia. }
  rewrite E. reflexivity.
Qed.

Lemma land_msb_low (x d : Z) : 0 <= d -> 0 <= x < 2 ^ d -> Z.land x (2 ^ d) = 0.
Proof.
  intros Hd Hx. rewrite land_pow2, testbit_below by assumption. reflexivity.
Qed.

Lemma land_msb_high (x d : Z) :
  0 <= d -> 2 ^ d <= x < 2 ^ (d + 1) -> Z.land x (2 ^ d) = 2 ^ d.
Proof.
  intros Hd Hx. rewrite land_pow2, testbit_top by assumption. reflexivity.
Qed.

Lemma lor_msb_low (x d : Z) : 0 <= d -> 0 <= x < 2 ^ d -> Z.lor x (2 ^ d) = x + 2 ^ d.
Proof.
  intros Hd Hx. pose proof (Z.add_lor_land x (2 ^ d)) as H.
  rewrite land_msb_low in H by assumption. lia.
Qed.

Lemma lxor_msb_high (x d : Z) :
  0 <= d -> 2 ^ d <= x < 2 ^ (d + 1) -> Z.lxor x (2 ^ d) = x - 2 ^ d.
Proof.
  intros Hd Hx. pose proof (Z.add_lxor_2land x (2 ^ d)) as H.
  rewrite land_msb_high in H by assumption. lia.
Qed.

Lemma land_1 (x : Z) : Z.land x 1 = x mod 2.
Proof. exact (Z.land_ones x 1 ltac:(lia)). Qed.

Lemma lor_1 (x : Z) : Z.lor x 1 = x + 1 - x mod 2.
Proof.
  pose proof (Z.add_lor_land x 1) as H. rewrite land_1 in H. lia.
Qed.

Lemma shl32_small (a n : Z) :
  0 <= n -> 0 <= a * 2 ^ n < 2 ^ 32 -> shl32 a n = a * 2 ^ n.
Proof.
  intros Hn Ha. unfold shl32, u32.
  rewrite Z.shiftl_mul_pow2 by exact Hn. apply Z.mod_small. exact Ha.
Qed.

(** ** treeDepth and nextPowerOfTwo *)

Lemma pow2_le_mono (a b : Z) : 0 <= a <= b -> 2 ^ a <= 2 ^ b.
Proof. intros H. apply Z.pow_le_mono_r; lia. Qed.

Lemma pow2_pos (a : Z) : 0 <= a -> 0 < 2 ^ a.
Proof. intros H. apply Z.pow_pos_nonneg; lia. Qed.

Lemma treeDepth_loop_spec (fuel : nat) (n e : Z) :
  0 < n <= 2 ^ 31 -> 0 <= e <= 31 -> 31 - e < Z.of_nat fuel ->
  (e = 0 \/ 2 ^ (e - 1) < n) ->
  exists d, Merkle.treeDepth_loop fuel n e = Some d /\
            0 <= d <= 31 /\ n <= 2 ^ d /\ (d = 0 \/ 2 ^ (d - 1) < n).
Proof.
  revert e. induction fuel as [|fuel IH]; intros e Hn He Hf Hinv; [lia|].
  cbn [Merkle.treeDepth_loop].
  assert (Hs : shl32 1 e = 2 ^ e).
  { rewrite shl32_small; [lia | lia |].
    pose proof (pow2_pos e ltac:(lia)).
    pose proof (pow2_le_mono e 31 ltac:(lia)). lia. }
  rewrite Hs. destruct (2 ^ e <? n) eqn:E.
  - apply Z.ltb_lt in E.
    assert (He1 : e < 31).
    { destruct (Z_lt_le_dec e 31) as [|Hge]; [assumption|].
      assert (e = 31) by lia. subst e. lia. }
    unfold u32. rewrite Z.mod_small by lia.
    apply IH; try lia. right. replace (e + 1 - 1) with e by lia. exact E.
  - apply Z.ltb_ge in E. exists e. repeat split; try lia; try exact Hinv.
Qed.

Lemma treeDepth_spec (n : Z) :
  0 < n <= 2 ^ 31 ->
  exists d, Merkle.treeDepth n = Some d /\
            0 <= d <= 31 /\ n <= 2 ^ d /\ (d = 0 \/ 2 ^ (d - 1) < n).
Proof.
  intros Hn. apply treeDepth_loop_spec; try lia.
Qed.

Lemma nextPowerOfTwo_spec (n : Z) :
  0 < n <= 2 ^ 31 ->
  exists d, Merkle.treeDepth n = Some d /\
            Merkle.nextPowerOfTwo n = Some (2 ^ d) /\
            0 <= d <= 31 /\ n <= 2 ^ d /\ (d = 0 \/ 2 ^ (d - 1) < n).
Proof.
  intros Hn. destruct (treeDepth_spec n Hn) as (d & Hd & Hr & Hle & Hmin).
  exists d. unfold Merkle.nextPowerOfTwo. rewrite Hd.
  rewrite shl32_small; try lia.
  - repeat split; try lia; try assumption. f_equal. lia.
  - pose proof (pow2_pos d ltac:(lia)).
    pose proof (pow2_le_mono d 31 ltac:(lia)). lia.
Qed.

(** Above 2^31 the loop of treeDepth never ends: [1 << e] is at most
    2^31, whatever [e] is. *)
Lemma treeDepth_diverges (fuel : nat) (n e : Z) :
  2 ^ 31 < n -> 0 <= e -> Merkle.treeDepth_loop fuel n e = None.
Proof.
  intros Hn. revert e. induction fuel as [|fuel IH]; intros e He; [reflexivity|].
  cbn [Merkle.treeDepth_loop].
  assert (Hs : shl32 1 e <= 2 ^ 31).
  { unfold shl32, u32. rewrite Z.shiftl_mul_pow2 by exact He. rewrite Z.mul_1_l.
    destruct (Z_lt_le_dec e 32) as [Hlt | Hge].
    - rewrite Z.mod_small.
      + apply pow2_le_mono. lia.
      + pose proof (pow2_pos e He). pose proof (pow2_le_mono e 31 ltac:(lia)). lia.
    - replace e with (32 + (e - 32)) by lia.
      rewrite Z.pow_add_r by lia. rewrite Z.mul_comm, Z.mod_mul by lia. lia. }
  destruct (shl32 1 e <? n) eqn:E; [|lia].
  apply IH. unfold u32. apply Z.mod_pos_bound. lia.
Qed.

(** ** inDeadZone *)

Lemma pw_S (n : nat) : pw (S n) = 2 * pw n.
Proof.
  unfold pw. rewrite Nat2Z.inj_succ, Z.pow_succ_r by lia. reflexivity.
Qed.

Lemma pw_pos (n : nat) : 0 < pw n.
Proof. unfold pw. apply pow2_pos. lia. Qed.

Lemma pw_add (a b : nat) : pw (a + b) = pw a * pw b.
Proof. unfold pw. rewrite Nat2Z.inj_add, Z.pow_add_r by lia. reflexivity. Qed.

Lemma pw_0 : pw 0 = 1.
Proof. reflexivity. Qed.

Lemma pw_le (a b : nat) : (a <= b)%nat -> pw a <= pw b.
Proof. intros H. unfold pw. apply pow2_le_mono. lia. Qed.

Lemma div_pw_lt (x : Z) (l : nat) (k : Z) :
  0 <= x -> (k >? x / pw l) = negb (k * pw l <=? x).
Proof.
  intros Hx. pose proof (pw_pos l) as Hp.
  pose proof (Z.mul_div_le x (pw l) Hp) as H1.
  pose proof (Z.mul_succ_div_gt x (pw l) Hp) as H2.
  destruct (k * pw l <=? x) eqn:E; cbn [negb].
  - apply Z.leb_le in E.
    destruct (k >? x / pw l) eqn:E1; [exfalso|reflexivity].
    assert (x / pw l < k) by lia. nia.
  - apply Z.leb_gt in E.
    destruct (k >? x / pw l) eqn:E1; [reflexivity|]. exfalso.
    assert (k <= x / pw l) by lia. nia.
Qed.

Lemma pw_succ (n : nat) : pw (n + 1) = 2 * pw n.
Proof. rewrite Nat.add_1_r. apply pw_S. Qed.

Lemma geb_false (a b : Z) : a < b -> (a >=? b) = false.
Proof. intros H. rewrite Z.geb_leb. apply Z.leb_gt. exact H. Qed.

Lemma geb_true (a b : Z) : b <= a -> (a >=? b) = true.
Proof. intros H. rewrite Z.geb_leb. apply Z.leb_le. exact H. Qed.

Lemma shiftr_1_lor_msb (y : Z) (d : nat) :
  0 <= y < 2 * pw d -> Z.lor (Z.shiftr y 1) (pw d) = y / 2 + pw d.
Proof.
  intros Hy. rewrite Z.shiftr_div_pow2 by lia. change (2 ^ 1) with 2.
  unfold pw. apply lor_msb_low; [lia|]. fold (pw d).
  split; [apply Z.div_pos; lia | apply Z.div_lt_upper_bound; lia].
Qed.

Lemma inDeadZone_loop_spec (e l : nat) (k : Z) :
  0 <= k < pw e ->
  forall (u : nat) (fuel : nat) (x : Z),
    (u <= l)%nat -> (u < fuel)%nat -> 0 <= x < pw (u + e) ->
    Merkle.inDeadZone_loop fuel (position l e k) (pw (l + e))
      (pw (l + e + 1) - pw (u + e))
      (pw (l + e + 1) - pw (u + e + 1) + x)
    = Some (k >? x / pw u).
Proof.
  intros Hk. unfold position. rewrite (pw_succ (l + e)), (pw_succ e).
  pose proof (pw_pos e) as Hpe. pose proof (pw_pos (l + e)) as Hpd.
  induction u as [|u IH]; intros fuel x Hul Hf Hx;
    (destruct fuel as [|fuel]; [lia|]); cbn [Merkle.inDeadZone_loop].
  - cbn [Nat.add] in *. rewrite (pw_succ e).
    rewrite geb_false by lia. rewrite pw_0, Z.div_1_r. f_equal.
    destruct (k >? x) eqn:E1;
      destruct (2 * pw (l + e) - 2 * pw e + k >? 2 * pw (l + e) - 2 * pw e + x) eqn:E2;
      lia.
  - pose proof I as _.
    pose proof (pw_pos (u + e)) as Hp.
    assert (Hs : pw (S u + e) = 2 * pw (u + e)) by (cbn [Nat.add]; apply pw_S).
    assert (Hle : pw (S u + e) <= pw (l + e)) by (apply pw_le; lia).
    assert (Hle2 : pw e <= pw (u + e)) by (apply pw_le; lia).
    rewrite (pw_succ (S u + e)), Hs in *.
    rewrite geb_true by lia.
    assert (Hx2 : 0 <= x / 2 < pw (u + e)).
    { split; [apply Z.div_pos; lia | apply Z.div_lt_upper_bound; lia]. }
    rewrite !shiftr_1_lor_msb by lia.
    replace (2 * pw (l + e) - 2 * pw (u + e)) with ((pw (l + e) - pw (u + e)) * 2) by lia.
    rewrite Z.div_mul by lia.
    replace (2 * pw (l + e) - 2 * (2 * pw (u + e)) + x)
      with (x + (pw (l + e) - 2 * pw (u + e)) * 2) by lia.
    rewrite Z.div_add by lia.
    specialize (IH fuel (x / 2) ltac:(lia) ltac:(lia) Hx2).
    rewrite (pw_succ (u + e)) in IH.
    replace (pw (l + e) - pw (u + e) + pw (l + e))
      with (2 * pw (l + e) - pw (u + e)) by lia.
    replace (x / 2 + (pw (l + e) - 2 * pw (u + e)) + pw (l + e))
      with (2 * pw (l + e) - 2 * pw (u + e) + x / 2) by lia.
    rewrite IH. f_equal.
    rewrite pw_S, Z.div_div by (pose proof (pw_pos u); lia). reflexivity.
Qed.

(** A node is in the dead zone exactly when its row is too short to hold
    it. *)
Lemma inDeadZone_position (n : Z) (l e : nat) (k : Z) :
  0 < n <= pw (l + e) -> (l + e <= 31)%nat ->
  Merkle.nextPowerOfTwo n = Some (pw (l + e)) ->
  0 <= k < pw e ->
  Merkle.inDeadZone (position l e k) n = Some (negb (k * pw l <? n)).
Proof.
  intros Hn Hd Hnp Hk. unfold Merkle.inDeadZone. rewrite Hnp.
  pose proof (pw_pos (l + e)) as Hp. pose proof (pw_pos e) as Hpe.
  assert (Hp31 : pw (l + e) <= 2 ^ 31) by (unfold pw; apply pow2_le_mono; lia).
  assert (Hroot : u32 (shl32 (pw (l + e)) 1 - 2) = 2 * pw (l + e) - 2).
  { unfold shl32, u32. rewrite Z.shiftl_mul_pow2 by lia. change (2 ^ 1) with 2.
    destruct (Z.eq_dec (pw (l + e)) (2 ^ 31)) as [E | E].
    - rewrite E. reflexivity.
    - rewrite (Z.mod_small (pw (l + e) * 2)) by lia.
      rewrite Z.mod_small by lia. lia. }
  rewrite Hroot.
  assert (Hpos : position l e k <= 2 * pw (l + e) - 2).
  { unfold position. replace (l + e + 1)%nat with (S (l + e)) by lia.
    replace (e + 1)%nat with (S e) by lia. rewrite !pw_S. lia. }
  destruct (position l e k >? 2 * pw (l + e) - 2) eqn:E; [lia|].
  unfold u32. rewrite (Z.mod_small (n - 1)) by lia.
  pose proof (inDeadZone_loop_spec e l k Hk l 34 (n - 1)) as H.
  replace (pw (l + e + 1) - pw (l + e)) with (pw (l + e)) in H
    by (replace (l + e + 1)%nat with (S (l + e)) by lia; rewrite pw_S; lia).
  replace (pw (l + e + 1) - pw (l + e + 1) + (n - 1)) with (n - 1) in H by lia.
  rewrite H by lia. f_equal.
  rewrite div_pw_lt by lia. f_equal.
  destruct (k * pw l <=? n - 1) eqn:E1; destruct (k * pw l <? n) eqn:E2; lia.
Qed.

(** ** CheckMerkleBlock: the guards before the loop *)

(** C9, as the specification has it, fails at the block that has both no
    transactions and no flag bytes: the first guard answers, and the
    error is "No transactions in merkleblock", not "No flag bits". *)
Lemma no_transactions_guard_comes_first :
  Merkle.Flags (Merkle.mkMerkleBlock (repeat x00 32) 0 [] []) = [] /\
  Merkle.CheckMerkleBlock Sha256.Sha256D
    (Merkle.mkMerkleBlock (repeat x00 32) 0 [] []) =
    Merkle.Returned [] (Some (fmt_Errorf "No transactions in merkleblock")) /\
  Merkle.CheckMerkleBlock Sha256.Sha256D
    (Merkle.mkMerkleBlock (repeat x00 32) 0 [] []) <>
    Merkle.Returned [] (Some (fmt_Errorf "No flag bits")).
Proof.
  split; [reflexivity|]. split; [reflexivity|]. discriminate.
Qed.

(** C9, amended.  A MerkleBlock with no transactions is answered with the
    error "No transactions in merkleblock" and no transaction ids; one
    with an empty Flags is answered with an error and no transaction ids,
    and the error is "No flag bits" when the block has transactions; in
    both cases no hash of [m.Hashes] has been taken. *)
Theorem CheckMerkleBlock_guards (Sha256D : list byte -> list byte)
    (m : Merkle.MerkleBlock) :
  (Merkle.Transactions m = 0 ->
     Merkle.CheckMerkleBlock_run Sha256D m =
       (Merkle.Returned [] (Some (fmt_Errorf "No transactions in merkleblock")),
        Merkle.Hashes m)) /\
  (Merkle.Flags m = [] ->
     exists e,
       Merkle.CheckMerkleBlock_run Sha256D m =
         (Merkle.Returned [] (Some e), Merkle.Hashes m) /\
       (Merkle.Transactions m <> 0 -> e = fmt_Errorf "No flag bits")).
Proof.
  unfold Merkle.CheckMerkleBlock_run. split.
  - intros ->. reflexivity.
  - intros Hf. rewrite Hf. destruct (Merkle.Transactions m =? 0) eqn:Ht.
    + eexists. split; [reflexivity|]. intros Hne. apply Z.eqb_eq in Ht. contradiction.
    + eexists. split; [reflexivity|]. reflexivity.
Qed.

Lemma CheckMerkleBlock_guards_witness :
  Merkle.Transactions (Merkle.mkMerkleBlock (repeat x00 32) 3 [Some (repeat x01 32)] []) <> 0 /\
  Merkle.Flags (Merkle.mkMerkleBlock (repeat x00 32) 3 [Some (repeat x01 32)] []) = [] /\
  Merkle.CheckMerkleBlock_run Sha256.Sha256D
    (Merkle.mkMerkleBlock (repeat x00 32) 3 [Some (repeat x01 32)] []) =
    (Merkle.Returned [] (Some (fmt_Errorf "No flag bits")), [Some (repeat x01 32)]).
Proof.
  assert (Ht : Merkle.Transactions
                 (Merkle.mkMerkleBlock (repeat x00 32) 3 [Some (repeat x01 32)] []) <> 0)
    by (cbn; discriminate).
  split; [exact Ht|]. split; [reflexivity|].
  destruct (proj2 (CheckMerkleBlock_guards Sha256.Sha256D
                     (Merkle.mkMerkleBlock (repeat x00 32) 3 [Some (repeat x01 32)] []))
                  eq_refl) as (e & Hrun & He).
  rewrite Hrun, (He Ht). reflexivity.
Defined.

(** ** CheckMerkleBlock: what the loop rejects *)

Section Consistency.

Variable Sha256D : list byte -> list byte.
Variable m : Merkle.MerkleBlock.
Variable msb : Z.

Hypothesis transactions_range : 0 < Merkle.Transactions m < 2 ^ 32.
Hypothesis flags_not_empty : Merkle.Flags m <> [].
Hypothesis msb_is_next_power :
  Merkle.nextPowerOfTwo (Merkle.Transactions m) = Some msb.

Let step := Merkle.step Sha256D (Merkle.MerkleRoot m) (Merkle.Transactions m) msb.
Let reaches := Merkle.reaches Sha256D (Merkle.MerkleRoot m) (Merkle.Transactions m) msb.
Let runs_to := Merkle.runs_to Sha256D (Merkle.MerkleRoot m) (Merkle.Transactions m) msb.

Lemma initial_ok : 
  Merkle.flag_position_ok (Merkle.initial m msb) /\
  Merkle.measure (Merkle.initial m msb) < Z.of_nat (Merkle.iterations m).
Proof.
  unfold Merkle.flag_position_ok, Merkle.measure, Merkle.initial, Merkle.iterations.
  cbn [Merkle.i Merkle.mFlags Merkle.s length]. repeat split; lia.
Qed.

Lemma CheckMerkleBlock_run_runs_to (res : Merkle.outcome * list Merkle.hashptr) :
  runs_to (Merkle.initial m msb) res ->
  Merkle.CheckMerkleBlock_run Sha256D m = res.
Proof.
  intros Hr. unfold Merkle.CheckMerkleBlock_run.
  destruct (Merkle.Transactions m =? 0) eqn:E; [lia|].
  destruct (length (Merkle.Flags m) =? 0)%nat eqn:E1.
  { apply Nat.eqb_eq in E1. apply length_zero_iff_nil in E1. contradiction. }
  rewrite msb_is_next_power.
  destruct initial_ok as [Hok Hm].
  exact (run_complete Sha256D _ _ _ _ _ Hr _ Hok Hm).
Qed.

Lemma CheckMerkleBlock_run_at (st : Merkle.state) (o : Merkle.outcome) :
  reaches (Merkle.initial m msb) st -> step st = Merkle.Done o ->
  Merkle.CheckMerkleBlock_run Sha256D m = (o, Merkle.mHashes st).
Proof.
  intros Hr Hs. apply CheckMerkleBlock_run_runs_to.
  eapply reaches_runs_to; [exact Hr|]. apply Merkle.runs_done. exact Hs.
Qed.

Lemma step_makes_node (st : Merkle.state) :
  Merkle.makes_node (Merkle.Transactions m) st = true ->
  step st = Merkle.new_node (Merkle.Transactions m) msb st.
Proof.
  unfold Merkle.makes_node, step, Merkle.step. intros H.
  apply andb_prop in H. destruct H as [Hc Hd].
  apply negb_true_iff in Hc. rewrite Hc.
  destruct (Merkle.inDeadZone _ _) as [[|]|]; try discriminate.
  apply negb_true_iff in Hd. rewrite Hd. reflexivity.
Qed.

Lemma transactions_le : Merkle.Transactions m <= 2 ^ 31.
Proof.
  destruct (Z_le_gt_dec (Merkle.Transactions m) (2 ^ 31)) as [H | H]; [exact H|].
  exfalso. unfold Merkle.nextPowerOfTwo, Merkle.treeDepth in msb_is_next_power.
  rewrite treeDepth_diverges in msb_is_next_power by lia. discriminate.
Qed.

Lemma leaf_beyond_count_is_dead (pos : Z) :
  0 <= pos < 2 ^ 32 -> Z.land pos msb = 0 -> pos >= Merkle.Transactions m ->
  Merkle.inDeadZone pos (Merkle.Transactions m) = Some true.
Proof.
  intros Hp Hl Hge. pose proof transactions_le as Hle.
  destruct (nextPowerOfTwo_spec (Merkle.Transactions m) ltac:(lia))
    as (d & _ & Hnp & Hd & Hn & _).
  rewrite msb_is_next_power in Hnp. injection Hnp as ->.
  unfold Merkle.inDeadZone. rewrite msb_is_next_power.
  destruct (pos >? u32 (shl32 (2 ^ d) 1 - 2)) eqn:E; [reflexivity|].
  cbn [Merkle.inDeadZone_loop].
  assert (Hlow : pos < 2 ^ d).
  { destruct (Z_lt_le_dec pos (2 ^ d)) as [|Hhi]; [assumption|]. exfalso.
    pose proof (pow2_pos d ltac:(lia)) as Hpd.
    destruct (Z_lt_le_dec pos (2 ^ (d + 1))) as [Hlt | Hge2].
    - rewrite land_msb_high in Hl by lia. lia.
    - rewrite Z.pow_add_r in Hge2 by lia. change (2 ^ 1) with 2 in Hge2.
      assert (Hd31 : d < 31).
      { destruct (Z_lt_le_dec d 31) as [|Hd31]; [assumption|].
        assert (d = 31) by lia. subst d. lia. }
      assert (Hroot : u32 (shl32 (2 ^ d) 1 - 2) = 2 ^ d * 2 - 2).
      { pose proof (pow2_le_mono d 30 ltac:(lia)).
        rewrite shl32_small; [|lia|change (2 ^ 1) with 2; lia].
        change (2 ^ 1) with 2. unfold u32. apply Z.mod_small. lia. }
      rewrite Hroot in E. lia. }
  rewrite geb_false by exact Hlow. f_equal.
  unfold u32. rewrite Z.mod_small by lia.
  destruct (pos >? Merkle.Transactions m - 1) eqn:E1; [reflexivity | lia].
Qed.

(** C3, amended.  When the loop of CheckMerkleBlock is to make a new node
    and no hash is left, or hashes are left and no flag byte is, or when
    the stack is down to one filled node whose hash differs from the
    header's merkle root, the call returns an error and no transaction
    ids.  When that one hash equals the merkle root the call returns what
    it found with a nil error, whichever hashes are still unused.  And a
    position of the bottom row at or beyond the number of transactions
    lies in the dead zone, so that no new node is made there. *)
Theorem CheckMerkleBlock_rejects_inconsistent (st : Merkle.state) :
  reaches (Merkle.initial m msb) st ->
  (Merkle.makes_node (Merkle.Transactions m) st = true ->
   Merkle.mHashes st = [] ->
     Merkle.CheckMerkleBlock Sha256D m =
       Merkle.Returned [] (Some (fmt_Errorf "Ran out of hashes at position %d."))) /\
  (Merkle.makes_node (Merkle.Transactions m) st = true ->
   Merkle.mHashes st <> [] -> Merkle.mFlags st = [] ->
     Merkle.CheckMerkleBlock Sha256D m =
       Merkle.Returned [] (Some (fmt_Errorf "Ran out of flag bits."))) /\
  (forall p0 h0, Merkle.s st = [Merkle.mkNode p0 (Some h0)] ->
     h0 <> Merkle.MerkleRoot m ->
     Merkle.CheckMerkleBlock Sha256D m =
       Merkle.Returned [] (Some (fmt_Errorf "computed root %s but expect %s\n"))) /\
  (forall p0, Merkle.s st = [Merkle.mkNode p0 (Some (Merkle.MerkleRoot m))] ->
     Merkle.CheckMerkleBlock_run Sha256D m =
       (Merkle.Returned (Merkle.r st) None, Merkle.mHashes st)) /\
  (0 <= Merkle.pos st < 2 ^ 32 -> Z.land (Merkle.pos st) msb = 0 ->
   Merkle.pos st >= Merkle.Transactions m ->
     Merkle.inDeadZone (Merkle.pos st) (Merkle.Transactions m) = Some true /\
     Merkle.makes_node (Merkle.Transactions m) st = false).
Proof.
  intros Hr. unfold Merkle.CheckMerkleBlock.
  split; [|split; [|split; [|split]]].
  - intros Hmk Hh.
    rewrite (CheckMerkleBlock_run_at st
      (Merkle.Returned [] (Some (fmt_Errorf "Ran out of hashes at position %d."))) Hr);
      [reflexivity|].
    rewrite (step_makes_node st Hmk). unfold Merkle.new_node. rewrite Hh. reflexivity.
  - intros Hmk Hh Hf.
    rewrite (CheckMerkleBlock_run_at st
      (Merkle.Returned [] (Some (fmt_Errorf "Ran out of flag bits."))) Hr);
      [reflexivity|].
    rewrite (step_makes_node st Hmk). unfold Merkle.new_node. rewrite Hf.
    destruct (Merkle.mHashes st); [congruence | reflexivity].
  - intros p0 h0 Hs Hne.
    rewrite (CheckMerkleBlock_run_at st
      (Merkle.Returned [] (Some (fmt_Errorf "computed root %s but expect %s\n"))) Hr);
      [reflexivity|].
    unfold step, Merkle.step. rewrite Hs. cbn.
    unfold Uint256_IsEqual. destruct (bytes_Equal h0 (Merkle.MerkleRoot m)) eqn:E;
      [apply bytes_Equal_eq in E; contradiction | reflexivity].
  - intros p0 Hs.
    apply (CheckMerkleBlock_run_at st (Merkle.Returned (Merkle.r st) None) Hr).
    unfold step, Merkle.step. rewrite Hs. cbn.
    unfold Uint256_IsEqual. rewrite bytes_Equal_refl. reflexivity.
  - intros Hp Hl Hge. pose proof (leaf_beyond_count_is_dead _ Hp Hl Hge) as Hd.
    split; [exact Hd|]. unfold Merkle.makes_node. rewrite Hd.
    apply andb_false_r.
Qed.

End Consistency.

(** C3, as the specification has it, fails: a block of one transaction
    whose hash list holds the transaction id, which is also the merkle
    root, and one hash more is accepted; the second hash is never used. *)
Lemma unused_trailing_hash_accepted :
  Merkle.CheckMerkleBlock_run Sha256.Sha256D
    (Merkle.mkMerkleBlock (repeat x11 32) 1
       [Some (repeat x11 32); Some (repeat x22 32)] [x01]) =
  (Merkle.Returned [Some (repeat x11 32)] None, [Some (repeat x22 32)]).
Proof. vm_compute. reflexivity. Qed.

Lemma CheckMerkleBlock_rejects_inconsistent_witness :
  0 < Merkle.Transactions (Merkle.mkMerkleBlock (repeat x11 32) 1 [] [x01]) < 2 ^ 32 /\
  Merkle.Flags (Merkle.mkMerkleBlock (repeat x11 32) 1 [] [x01]) <> [] /\
  Merkle.nextPowerOfTwo 1 = Some 1 /\
  Merkle.makes_node 1
    (Merkle.initial (Merkle.mkMerkleBlock (repeat x11 32) 1 [] [x01]) 1) = true /\
  Merkle.CheckMerkleBlock Sha256.Sha256D
    (Merkle.mkMerkleBlock (repeat x11 32) 1 [] [x01]) =
    Merkle.Returned [] (Some (fmt_Errorf "Ran out of hashes at position %d.")).
Proof.
  assert (Ht : 0 < Merkle.Transactions
                     (Merkle.mkMerkleBlock (repeat x11 32) 1 [] [x01]) < 2 ^ 32)
    by (cbn; lia).
  assert (Hf : Merkle.Flags (Merkle.mkMerkleBlock (repeat x11 32) 1 [] [x01]) <> [])
    by discriminate.
  assert (Hn : Merkle.nextPowerOfTwo 1 = Some 1) by reflexivity.
  split; [exact Ht|]. split; [exact Hf|]. split; [exact Hn|].
  split; [reflexivity|].
  refine (proj1 (CheckMerkleBlock_rejects_inconsistent Sha256.Sha256D
                   (Merkle.mkMerkleBlock (repeat x11 32) 1 [] [x01]) 1 Ht Hf Hn
                   (Merkle.initial (Merkle.mkMerkleBlock (repeat x11 32) 1 [] [x01]) 1)
                   (Merkle.reaches_here _ _ _ _ _)) eq_refl eq_refl).
Defined.

(** ** The stack *)

Lemma node_at_app (base l : list Merkle.merkleNode) (z : Z) :
  0 <= z ->
  Merkle.node_at (base ++ l) (Z.of_nat (length base) + z) = nth_error l (Z.to_nat z).
Proof.
  intros Hz. unfold Merkle.node_at.
  destruct (Z.of_nat (length base) + z <? 0) eqn:E; [zlia|].
  replace (Z.to_nat (Z.of_nat (length base) + z)) with (length base + Z.to_nat z)%nat by lia.
  rewrite nth_error_app2 by lia. f_equal. lia.
Qed.

Lemma set_h_app (base l : list Merkle.merkleNode) (n : Merkle.merkleNode)
    (hv : Merkle.hashptr) :
  Merkle.set_h (base ++ n :: l) (length base) hv = base ++ Merkle.mkNode (Merkle.p n) hv :: l.
Proof.
  unfold Merkle.set_h.
  rewrite nth_error_app2, Nat.sub_diag by lia. cbn [nth_error].
  rewrite firstn_app_exact by reflexivity.
  replace (S (length base)) with (length (base ++ [n])) by (rewrite length_app; cbn; lia).
  replace (base ++ n :: l) with ((base ++ [n]) ++ l) by (rewrite <- app_assoc; reflexivity).
  rewrite skipn_app_exact by reflexivity. reflexivity.
Qed.

Lemma firstn_app_one {A} (base l : list A) (x : A) :
  firstn (length base + 1) (base ++ x :: l) = base ++ [x].
Proof.
  replace (base ++ x :: l) with ((base ++ [x]) ++ l) by (rewrite <- app_assoc; reflexivity).
  apply firstn_app_exact. rewrite length_app. reflexivity.
Qed.

Lemma complete_two (base : list Merkle.merkleNode) (a b : Merkle.merkleNode)
    (l : list Merkle.merkleNode) :
  Merkle.complete (base ++ a :: b :: l) = false.
Proof.
  unfold Merkle.complete. rewrite length_app. cbn [length].
  destruct (Z.of_nat (length base + S (S (length l))) - 1 =? 0) eqn:E; [zlia|].
  reflexivity.
Qed.

Lemma complete_placeholder (base : list Merkle.merkleNode) (p0 : Z) :
  Merkle.complete (base ++ [Merkle.mkNode p0 None]) = false.
Proof.
  destruct base as [|a base]; [reflexivity|].
  destruct base as [|b base]; [reflexivity|].
  cbn [app]. apply (complete_two [] a b).
Qed.

Lemma combinable_placeholder (base : list Merkle.merkleNode) (p0 : Z) :
  Merkle.combinable (base ++ [Merkle.mkNode p0 None]) = false.
Proof.
  unfold Merkle.combinable. cbv zeta. rewrite length_app. cbn [length].
  replace (Z.of_nat (length base + 1) - 1) with (Z.of_nat (length base) + 0) by lia.
  rewrite (node_at_app base _ 0) by lia. cbn. apply andb_false_r.
Qed.

Lemma combinable_placeholder_left (base : list Merkle.merkleNode) (p0 : Z)
    (n : Merkle.merkleNode) :
  Merkle.combinable (base ++ [Merkle.mkNode p0 None; n]) = false.
Proof.
  unfold Merkle.combinable. cbv zeta. rewrite length_app. cbn [length].
  replace (Z.of_nat (length base + 2) - 1 - 1) with (Z.of_nat (length base) + 0) by lia.
  rewrite (node_at_app base _ 0) by lia. cbn.
  rewrite andb_false_r. reflexivity.
Qed.

(** ** The flag bits *)

Lemma stream_advance (st : Merkle.state) (b : bool) (rest : list bool) :
  Merkle.flag_position_ok st -> stream st = b :: rest ->
  exists f0 fs,
    Merkle.mFlags st = f0 :: fs /\ Merkle.flag_set f0 (Merkle.i st) = b /\
    forall s' r' pos' hs',
      let st' := Merkle.advance
                   (Merkle.mkState s' r' pos' (Merkle.i st) hs' (Merkle.mFlags st)) in
      stream st' = rest /\ Merkle.flag_position_ok st'.
Proof.
  intros [Hi H0] Hs. unfold stream in Hs.
  destruct (Merkle.mFlags st) as [|f0 fs] eqn:Ef.
  { cbn in Hs. rewrite skipn_nil in Hs. discriminate. }
  exists f0, fs. split; [reflexivity|].
  cbn [flat_map] in Hs.
  assert (Hcases : Merkle.i st = 0 \/ Merkle.i st = 1 \/ Merkle.i st = 2 \/
                   Merkle.i st = 3 \/ Merkle.i st = 4 \/ Merkle.i st = 5 \/
                   Merkle.i st = 6 \/ Merkle.i st = 7) by lia.
  unfold Merkle.advance, stream, Merkle.flag_position_ok.
  cbn [Merkle.i Merkle.mFlags].
  destruct Hcases as [E|[E|[E|[E|[E|[E|[E|E]]]]]]]; rewrite E in *;
    cbn in Hs; injection Hs as Hb Hr; (split; [exact Hb|]);
    intros s' r' pos' hs'; cbn;
    (split; [exact Hr | split; [lia | try discriminate; try reflexivity]]).
Qed.

(** ** One iteration, case by case *)

Section Iterations.

Variable Sha256D : list byte -> list byte.
Variable root : Uint256.
Variables transactions msb : Z.

Let step := Merkle.step Sha256D root transactions msb.

Lemma step_idle (st : Merkle.state) :
  Merkle.complete (Merkle.s st) = false ->
  Merkle.inDeadZone (Merkle.pos st) transactions = Some false ->
  Merkle.combinable (Merkle.s st) = false ->
  step st = Merkle.new_node transactions msb st.
Proof.
  intros Hc Hd Hb. unfold step, Merkle.step. rewrite Hc, Hd, Hb. reflexivity.
Qed.

Lemma new_node_leaf (st : Merkle.state) (hv : Merkle.hashptr)
    (hs : list Merkle.hashptr) (b : bool) (rest : list bool) :
  Merkle.mHashes st = hv :: hs -> stream st = b :: rest ->
  Merkle.flag_position_ok st ->
  Z.land (Merkle.pos st) msb = 0 -> Merkle.pos st < transactions ->
  exists st',
    Merkle.new_node transactions msb st = Merkle.Continue st' /\
    Merkle.s st' = Merkle.s st ++ [Merkle.mkNode (Merkle.pos st) hv] /\
    Merkle.r st' = (if b then Merkle.r st ++ [hv] else Merkle.r st) /\
    Merkle.pos st' = (if Z.land (Merkle.pos st) 1 =? 0
                      then Z.lor (Merkle.pos st) 1 else Merkle.pos st) /\
    Merkle.mHashes st' = hs /\ stream st' = rest /\ Merkle.flag_position_ok st'.
Proof.
  intros Hh Hs Hok Hl Hlt.
  destruct (stream_advance st b rest Hok Hs) as (f0 & fs & Ef & Hb & Hadv).
  unfold Merkle.new_node. rewrite Hh, Ef, Hl. rewrite Ef in Hadv.
  change (negb (0 =? 0)) with false. cbv iota.
  rewrite geb_false by exact Hlt. cbv zeta. rewrite Hb.
  eexists. split; [reflexivity|].
  match goal with
  | |- context [Merkle.advance ?x] =>
      destruct (advance_fields x) as (H1 & H2 & H3 & H4);
      rewrite H1, H2, H3, H4
  end.
  cbn [Merkle.s Merkle.r Merkle.pos Merkle.mHashes].
  repeat split; try reflexivity; apply Hadv.
Qed.

Lemma new_node_fill (st : Merkle.state) (hv : Merkle.hashptr)
    (hs : list Merkle.hashptr) (rest : list bool) :
  Merkle.mHashes st = hv :: hs -> stream st = false :: rest ->
  Merkle.flag_position_ok st ->
  Z.land (Merkle.pos st) msb <> 0 ->
  exists st',
    Merkle.new_node transactions msb st = Merkle.Continue st' /\
    Merkle.s st' = Merkle.s st ++ [Merkle.mkNode (Merkle.pos st) hv] /\
    Merkle.r st' = Merkle.r st /\
    Merkle.pos st' = (if Z.land (Merkle.pos st) 1 =? 0
                      then Z.lor (Merkle.pos st) 1
                      else Z.lor (Z.shiftr (Merkle.pos st) 1) msb) /\
    Merkle.mHashes st' = hs /\ stream st' = rest /\ Merkle.flag_position_ok st'.
Proof.
  intros Hh Hs Hok Hl.
  destruct (stream_advance st false rest Hok Hs) as (f0 & fs & Ef & Hb & Hadv).
  unfold Merkle.new_node. rewrite Hh, Ef. rewrite Ef in Hadv.
  apply Z.eqb_neq in Hl. rewrite Hl, Hb. cbn [negb]. cbv zeta.
  eexists. split; [reflexivity|].
  match goal with
  | |- context [Merkle.advance ?x] =>
      destruct (advance_fields x) as (H1 & H2 & H3 & H4);
      rewrite H1, H2, H3, H4
  end.
  cbn [Merkle.s Merkle.r Merkle.pos Merkle.mHashes].
  repeat split; try reflexivity; try apply Hadv.
  destruct (Z.land (Merkle.pos st) 1 =? 0); reflexivity.
Qed.

Lemma new_node_descend (st : Merkle.state) (rest : list bool) :
  Merkle.mHashes st <> [] -> stream st = true :: rest ->
  Merkle.flag_position_ok st ->
  Z.land (Merkle.pos st) msb <> 0 ->
  exists st',
    Merkle.new_node transactions msb st = Merkle.Continue st' /\
    Merkle.s st' = Merkle.s st ++ [Merkle.mkNode (Merkle.pos st) None] /\
    Merkle.r st' = Merkle.r st /\
    Merkle.pos st' = shl32 (Z.lxor (Merkle.pos st) msb) 1 /\
    Merkle.mHashes st' = Merkle.mHashes st /\ stream st' = rest /\
    Merkle.flag_position_ok st'.
Proof.
  intros Hh Hs Hok Hl.
  destruct (stream_advance st true rest Hok Hs) as (f0 & fs & Ef & Hb & Hadv).
  unfold Merkle.new_node. rewrite Ef. rewrite Ef in Hadv.
  destruct (Merkle.mHashes st) as [|hv hs] eqn:Eh; [congruence|].
  apply Z.eqb_neq in Hl. rewrite Hl, Hb. cbn [negb]. cbv zeta.
  eexists. split; [reflexivity|].
  match goal with
  | |- context [Merkle.advance ?x] =>
      destruct (advance_fields x) as (H1 & H2 & H3 & H4);
      rewrite H1, H2, H3, H4
  end.
  cbn [Merkle.s Merkle.r Merkle.pos Merkle.mHashes].
  repeat split; try reflexivity; apply Hadv.
Qed.

Lemma step_combine (st : Merkle.state) (base : list Merkle.merkleNode)
    (n0 : Merkle.merkleNode) (p1 p2 : Z) (a b : Uint256) :
  Merkle.s st = base ++ [n0; Merkle.mkNode p1 (Some a); Merkle.mkNode p2 (Some b)] ->
  Merkle.inDeadZone (Merkle.pos st) transactions = Some false ->
  step st =
    if Uint256_IsEqual a b
    then Merkle.Done (Merkle.Returned (Merkle.r st) (Some (errors_New "DUP HASH CRASH")))
    else Merkle.Continue
           (Merkle.mkState
              (base ++ [Merkle.mkNode (Merkle.p n0) (Some (Sha256D (a ++ b)))])
              (Merkle.r st) (Z.lor (Merkle.p n0) 1) (Merkle.i st)
              (Merkle.mHashes st) (Merkle.mFlags st)).
Proof.
  intros Hs Hd. unfold step, Merkle.step. rewrite Hs, Hd.
  rewrite complete_two. unfold Merkle.combinable. cbv zeta.
  rewrite length_app. cbn [length].
  replace (Z.of_nat (length base + 3) - 1) with (Z.of_nat (length base) + 2) by lia.
  replace (Z.of_nat (length base) + 2 - 1) with (Z.of_nat (length base) + 1) by lia.
  replace (Z.of_nat (length base) + 2 - 2) with (Z.of_nat (length base) + 0) by lia.
  rewrite !node_at_app by lia.
  change (Z.to_nat 0) with 0%nat. change (Z.to_nat 1) with 1%nat.
  change (Z.to_nat 2) with 2%nat. cbn [nth_error].
  assert (E : (Z.of_nat (length base) + 2 >? 1) = true)
    by (rewrite Z.gtb_ltb; apply Z.ltb_lt; lia).
  rewrite E. cbn [Merkle.filled andb Merkle.h Merkle.MakeMerkleParent].
  destruct (Uint256_IsEqual a b); [reflexivity|].
  replace (Z.to_nat (Z.of_nat (length base) + 0)) with (length base) by lia.
  rewrite set_h_app.
  replace (Z.to_nat (Z.of_nat (length base) + 1)) with (length base + 1)%nat by lia.
  rewrite firstn_app_one.
  rewrite (node_at_app base _ 0) by lia.
  change (Z.to_nat 0) with 0%nat. cbn [nth_error Merkle.p]. reflexivity.
Qed.

Lemma step_dead_zone (st : Merkle.state) (base : list Merkle.merkleNode)
    (n0 : Merkle.merkleNode) (p1 : Z) (a : Uint256) :
  Merkle.s st = base ++ [n0; Merkle.mkNode p1 (Some a)] ->
  Merkle.inDeadZone (Merkle.pos st) transactions = Some true ->
  step st =
    Merkle.Continue
      (Merkle.mkState
         (base ++ [Merkle.mkNode (Merkle.p n0) (Some (Sha256D (a ++ a)))])
         (Merkle.r st) (Z.lor (Merkle.p n0) 1) (Merkle.i st)
         (Merkle.mHashes st) (Merkle.mFlags st)).
Proof.
  intros Hs Hd. unfold step, Merkle.step. rewrite Hs, Hd.
  rewrite complete_two. cbv zeta.
  rewrite length_app. cbn [length].
  replace (Z.of_nat (length base + 2) - 1) with (Z.of_nat (length base) + 1) by lia.
  replace (Z.of_nat (length base) + 1 - 1) with (Z.of_nat (length base) + 0) by lia.
  rewrite !node_at_app by lia.
  change (Z.to_nat 0) with 0%nat. change (Z.to_nat 1) with 1%nat.
  change (Z.to_nat 2) with 2%nat. cbn [nth_error].
  cbn [Merkle.h Merkle.MakeMerkleParent].
  replace (Z.to_nat (Z.of_nat (length base) + 0)) with (length base) by lia.
  rewrite set_h_app.
  replace (Z.to_nat (Z.of_nat (length base) + 1)) with (length base + 1)%nat by lia.
  rewrite firstn_app_one.
  rewrite (node_at_app base _ 0) by lia.
  change (Z.to_nat 0) with 0%nat. cbn [nth_error Merkle.p]. reflexivity.
Qed.

Lemma step_complete (st : Merkle.state) (p0 : Z) (h0 : Uint256) :
  Merkle.s st = [Merkle.mkNode p0 (Some h0)] ->
  step st =
    if Uint256_IsEqual h0 root
    then Merkle.Done (Merkle.Returned (Merkle.r st) None)
    else Merkle.Done
           (Merkle.Returned [] (Some (fmt_Errorf "computed root %s but expect %s\n"))).
Proof.
  intros Hs. unfold step, Merkle.step. rewrite Hs. reflexivity.
Qed.

End Iterations.

(** ** Positions of children, siblings and parents *)

Lemma position_leaf (e : nat) (k : Z) : position 0 e k = k.
Proof. unfold position. cbn [Nat.add]. lia. Qed.

Lemma position_upper (l e : nat) (k : Z) :
  0 <= k < pw e ->
  pw (S l + e) <= position (S l) e k < 2 * pw (S l + e).
Proof.
  intros Hk. unfold position. rewrite (pw_succ (S l + e)), (pw_succ e).
  assert (pw (S e) <= pw (S l + e)) by (apply pw_le; lia).
  rewrite pw_S in *. lia.
Qed.

Lemma position_range (l e : nat) (k : Z) :
  0 <= k < pw e -> 0 <= position l e k < 2 * pw (l + e).
Proof.
  intros Hk. unfold position. rewrite (pw_succ (l + e)), (pw_succ e).
  assert (pw e <= pw (l + e)) by (apply pw_le; lia). lia.
Qed.

Lemma position_mod2 (l e : nat) (k : Z) : position l e k mod 2 = k mod 2.
Proof.
  unfold position. rewrite (pw_succ (l + e)), (pw_succ e).
  replace (2 * pw (l + e) - 2 * pw e + k) with (k + (pw (l + e) - pw e) * 2) by lia.
  apply Z.mod_add. lia.
Qed.

Lemma position_land_msb_leaf (e : nat) (k : Z) :
  0 <= k < pw e -> Z.land (position 0 e k) (pw (0 + e)) = 0.
Proof.
  intros Hk. rewrite position_leaf. cbn [Nat.add]. unfold pw in *.
  apply land_msb_low; lia.
Qed.

Lemma position_land_msb_upper (l e : nat) (k : Z) :
  0 <= k < pw e -> Z.land (position (S l) e k) (pw (S l + e)) <> 0.
Proof.
  intros Hk. pose proof (position_upper l e k Hk) as Hp.
  pose proof (pw_pos (S l + e)) as Hpos.
  unfold pw in Hp, Hpos |- *. rewrite land_msb_high; [lia | lia |].
  rewrite Z.pow_add_r by lia. change (2 ^ 1) with 2. lia.
Qed.

Lemma position_sibling (l e : nat) (k : Z) :
  k mod 2 = 0 -> Z.lor (position l e k) 1 = position l e k + 1.
Proof.
  intros Hk. rewrite lor_1, position_mod2, Hk. lia.
Qed.

Lemma position_right (l e : nat) (k : Z) :
  k mod 2 = 1 -> Z.lor (position l e k) 1 = position l e k.
Proof.
  intros Hk. rewrite lor_1, position_mod2, Hk. lia.
Qed.

Lemma position_descend (l e : nat) (k : Z) :
  (S l + e <= 31)%nat -> 0 <= k < pw e ->
  shl32 (Z.lxor (position (S l) e k) (pw (S l + e))) 1 = position l (S e) (k * 2).
Proof.
  intros Hd Hk. pose proof (position_upper l e k Hk) as Hp.
  assert (H31 : pw (S l + e) <= 2 ^ 31) by (unfold pw; apply pow2_le_mono; lia).
  assert (Hx : Z.lxor (position (S l) e k) (pw (S l + e))
               = position (S l) e k - pw (S l + e)).
  { unfold pw in Hp |- *. apply lxor_msb_high; [lia|].
    rewrite Z.pow_add_r by lia. change (2 ^ 1) with 2. lia. }
  rewrite Hx. rewrite shl32_small; [|lia|change (2 ^ 1) with 2; lia].
  change (2 ^ 1) with 2. unfold position.
  rewrite (pw_succ (S l + e)), (pw_succ e), (pw_succ (l + S e)), (pw_succ (S e)).
  replace (l + S e)%nat with (S l + e)%nat by lia. rewrite (pw_S e). lia.
Qed.

Lemma position_ascend (l e : nat) (k : Z) :
  0 <= k < pw (S e) -> k mod 2 = 1 ->
  Z.lor (Z.shiftr (position l (S e) k) 1) (pw (l + S e)) = position (S l) e (k / 2).
Proof.
  intros Hk Hodd. rewrite shiftr_1_lor_msb by (apply position_range; exact Hk).
  unfold position.
  rewrite (pw_succ (l + S e)), (pw_succ (S e)), (pw_succ (S l + e)), (pw_succ e).
  replace (S l + e)%nat with (l + S e)%nat by lia. rewrite (pw_S e).
  pose proof (Z.div_mod k 2 ltac:(lia)) as Hdm. rewrite Hodd in Hdm.
  replace (2 * pw (l + S e) - 2 * (2 * pw e) + k)
    with (1 + (pw (l + S e) - 2 * pw e + k / 2) * 2) by lia.
  rewrite Z.div_add by lia. change (1 / 2) with 0. lia.
Qed.

(** ** The builder *)

Section Builder.

Variable Sha256D : list byte -> list byte.
Variable mb : MBlock.MBlock.

Let N := MBlock.NumTx mb.

Lemma CalcTreeWidth_spec (l : nat) (j : Z) :
  (j <? MBlock.CalcTreeWidth mb l) = (j * pw l <? N).
Proof.
  unfold MBlock.CalcTreeWidth. fold N.
  rewrite Z.shiftl_mul_pow2, Z.shiftr_div_pow2 by lia. rewrite Z.mul_1_l.
  fold (pw l). pose proof (pw_pos l) as Hp.
  pose proof (Z.mul_div_le (N + pw l - 1) (pw l) Hp) as H1.
  pose proof (Z.mul_succ_div_gt (N + pw l - 1) (pw l) Hp) as H2.
  destruct (j <? (N + pw l - 1) / pw l) eqn:E1;
    destruct (j * pw l <? N) eqn:E2; try reflexivity; boolZ; exfalso; nia.
Qed.

Lemma TraverseAndBuild_hashes (l : nat) (k : Z) :
  snd (MBlock.TraverseAndBuild Sha256D mb l k) <> [].
Proof.
  revert k. induction l as [|l IH]; intros k.
  - cbn. discriminate.
  - cbn [MBlock.TraverseAndBuild].
    destruct (byte_eqb _ x00); [cbn; discriminate|].
    specialize (IH (k * 2)).
    destruct (MBlock.TraverseAndBuild Sha256D mb l (k * 2)) as [bl hl].
    destruct (if k * 2 + 1 <? MBlock.CalcTreeWidth mb l
              then MBlock.TraverseAndBuild Sha256D mb l (k * 2 + 1)
              else ([], [])) as [br hr].
    cbn [snd] in *. intros H. apply app_eq_nil in H. destruct H as [H _].
    exact (IH H).
Qed.

Lemma siblings_differ_clean (l : nat) (k : Z) :
  MBlock.siblings_differ Sha256D mb l k = true ->
  MBlock.clean Sha256D mb l k = true.
Proof.
  revert k. induction l as [|l IH]; intros k; [reflexivity|].
  cbn [MBlock.siblings_differ MBlock.clean]. intros H.
  destruct (byte_eqb _ x00); [reflexivity|].
  apply andb_prop in H. destruct H as [HL HR].
  rewrite (IH _ HL). cbn [andb].
  destruct (k * 2 + 1 <? MBlock.CalcTreeWidth mb l); [|reflexivity].
  apply andb_prop in HR. destruct HR as [HR HN].
  rewrite (IH _ HR), HN. reflexivity.
Qed.

End Builder.

(** ** The verifier follows the builder *)

Section Simulation.

Variable Sha256D : list byte -> list byte.
Variable mb : MBlock.MBlock.
Variable root : Uint256.
Variable d : nat.

Let N := MBlock.NumTx mb.

Hypothesis count_range : 0 < N <= pw d.
Hypothesis depth_range : (d <= 31)%nat.
Hypothesis msb_is_next_power : Merkle.nextPowerOfTwo N = Some (pw d).

Let step := Merkle.step Sha256D root N (pw d).
Let reaches := Merkle.reaches Sha256D root N (pw d).
Let runs_to := Merkle.runs_to Sha256D root N (pw d).
Let TraverseAndBuild := MBlock.TraverseAndBuild Sha256D mb.
Let CalcHash := MBlock.CalcHash Sha256D mb.
Let found := MBlock.found Sha256D mb.
Let clean := MBlock.clean Sha256D mb.

(** The state in which the node [k] of row [l] has just been filled: it
    is on the stack above [base], its matched leaves have been added to
    [r0], and what follows it in the message is still to be read. *)
Let node_done (l e : nat) (k : Z) (base : list Merkle.merkleNode)
    (r0 hs : list Merkle.hashptr) (bs : list bool) (st' : Merkle.state) : Prop :=
  Merkle.s st' = base ++ [Merkle.mkNode (position l e k) (Some (CalcHash l k))] /\
  Merkle.r st' = r0 ++ found l k /\
  Merkle.mHashes st' = hs /\ stream st' = bs /\ Merkle.flag_position_ok st' /\
  (k mod 2 = 0 -> Merkle.pos st' = position l e k + 1) /\
  (k mod 2 = 1 -> Merkle.inDeadZone (Merkle.pos st') N = Some false).

Lemma node_exists_alive (l e : nat) (k : Z) :
  (l + e = d)%nat -> 0 <= k < pw e -> k * pw l < N ->
  Merkle.inDeadZone (position l e k) N = Some false.
Proof.
  intros Hle Hk Hex. subst d.
  rewrite (inDeadZone_position N l e k count_range depth_range msb_is_next_power Hk).
  destruct (k * pw l <? N) eqn:E; [reflexivity | zlia].
Qed.

Lemma node_absent_dead (l e : nat) (k : Z) :
  (l + e = d)%nat -> 0 <= k < pw e -> ~ k * pw l < N ->
  Merkle.inDeadZone (position l e k) N = Some true.
Proof.
  intros Hle Hk Hex. subst d.
  rewrite (inDeadZone_position N l e k count_range depth_range msb_is_next_power Hk).
  destruct (k * pw l <? N) eqn:E; [zlia | reflexivity].
Qed.

Lemma parent_alive (l e : nat) (k : Z) :
  (l + e = d)%nat -> 0 <= k < pw e -> k * pw l < N -> k mod 2 = 1 ->
  Merkle.inDeadZone (Z.lor (Z.shiftr (position l e k) 1) (pw d)) N = Some false.
Proof.
  intros Hle Hk Hex Hodd.
  destruct e as [|e].
  { rewrite pw_0 in Hk. assert (k = 0) by lia. subst k. discriminate Hodd. }
  replace (pw d) with (pw (l + S e)) by (rewrite Hle; reflexivity).
  rewrite position_ascend by assumption.
  pose proof (Z.div_mod k 2 ltac:(lia)) as Hdm. rewrite Hodd in Hdm.
  apply node_exists_alive.
  - lia.
  - rewrite pw_S in Hk. lia.
  - rewrite pw_S. pose proof (pw_pos l). nia.
Qed.

Lemma subtree_verified (l : nat) :
  forall (e : nat) (k : Z) (st : Merkle.state)
         (hs : list Merkle.hashptr) (bs : list bool),
    (l + e = d)%nat -> 0 <= k < pw e -> k * pw l < N ->
    Merkle.complete (Merkle.s st) = false ->
    Merkle.combinable (Merkle.s st) = false ->
    Merkle.pos st = position l e k ->
    Merkle.mHashes st = map Some (snd (TraverseAndBuild l k)) ++ hs ->
    stream st = map bit_of (fst (TraverseAndBuild l k)) ++ bs ->
    Merkle.flag_position_ok st ->
    if clean l k
    then exists st', reaches st st' /\
                     node_done l e k (Merkle.s st) (Merkle.r st) hs bs st'
    else exists r' hs',
           runs_to st (Merkle.Returned r' (Some (errors_New "DUP HASH CRASH")), hs').
Proof.
  induction l as [|l IH]; intros e k st hs bs Hle Hk Hex Hc Hb Hpos Hh Hs Hok.
  - (* a leaf *)
    cbn in Hh, Hs. cbn [clean MBlock.clean].
    assert (Hd : Merkle.inDeadZone (Merkle.pos st) N = Some false)
      by (rewrite Hpos; apply node_exists_alive; assumption).
    assert (Hland : Z.land (Merkle.pos st) (pw d) = 0).
    { rewrite Hpos. replace d with (0 + e)%nat by exact Hle.
      apply position_land_msb_leaf. exact Hk. }
    assert (Hlt : Merkle.pos st < N).
    { rewrite Hpos, position_leaf. rewrite pw_0 in Hex. lia. }
    destruct (new_node_leaf N (pw d) st _ _ _ _ Hh Hs Hok Hland Hlt)
      as (st' & Hst & Hs' & Hr' & Hp' & Hh' & Hb' & Hok').
    exists st'. split.
    { apply reaches_one. unfold step.
      rewrite (step_idle Sha256D root N (pw d) st Hc Hd Hb). exact Hst. }
    unfold node_done. rewrite Hs', Hr', Hpos.
    split; [reflexivity|]. split.
    { cbn [found MBlock.found]. fold CalcHash.
      destruct (bit_of _); [reflexivity | rewrite app_nil_r; reflexivity]. }
    split; [exact Hh'|]. split; [exact Hb'|]. split; [exact Hok'|].
    rewrite Hp', Hpos, land_1, position_mod2. split; intros Hm; rewrite Hm.
    + change (0 =? 0) with true. cbv iota. apply position_sibling. exact Hm.
    + change (1 =? 0) with false. cbv iota. apply node_exists_alive; assumption.
  - (* an inner node *)
    assert (Hd : Merkle.inDeadZone (Merkle.pos st) N = Some false)
      by (rewrite Hpos; apply node_exists_alive; assumption).
    assert (Hland : Z.land (Merkle.pos st) (pw d) <> 0).
    { rewrite Hpos. replace d with (S l + e)%nat by exact Hle.
      apply position_land_msb_upper. exact Hk. }
    assert (Hstep : step st = Merkle.new_node N (pw d) st)
      by (apply step_idle; assumption).
    unfold step in Hstep.
    cbn [TraverseAndBuild MBlock.TraverseAndBuild] in Hh, Hs.
    cbn [clean MBlock.clean].
    destruct (byte_eqb (MBlock.isParent mb (S l) k) x00) eqn:EP.
    + (* no matched leaf below: the node's hash is in the message *)
      cbn [fst snd map app] in Hh, Hs.
      assert (Hbit : bit_of (MBlock.isParent mb (S l) k) = false)
        by (unfold bit_of; rewrite EP; reflexivity).
      rewrite Hbit in Hs.
      destruct (new_node_fill N (pw d) st _ _ _ Hh Hs Hok Hland)
        as (st' & Hst & Hs' & Hr' & Hp' & Hh' & Hb' & Hok').
      exists st'. split.
      { apply reaches_one. rewrite Hstep. exact Hst. }
      unfold node_done. rewrite Hs', Hr', Hpos.
      split; [reflexivity|]. split.
      { cbn [found MBlock.found]. rewrite EP, app_nil_r. reflexivity. }
      split; [exact Hh'|]. split; [exact Hb'|]. split; [exact Hok'|].
      rewrite Hp', Hpos, land_1, position_mod2. split; intros Hm; rewrite Hm.
      * change (0 =? 0) with true. cbv iota. apply position_sibling. exact Hm.
      * change (1 =? 0) with false. cbv iota. apply parent_alive; assumption.
    + (* a matched leaf below: descend *)
      fold TraverseAndBuild in Hh, Hs.
      pose proof (TraverseAndBuild_hashes Sha256D mb l (k * 2)) as Hne.
      fold TraverseAndBuild in Hne.
      pose proof (CalcTreeWidth_spec mb l (k * 2 + 1)) as HW. fold N in HW.
      destruct (TraverseAndBuild l (k * 2)) as [bl hl] eqn:ETL.
      cbn [snd] in Hne.
      assert (Hbit : bit_of (MBlock.isParent mb (S l) k) = true)
        by (unfold bit_of; rewrite EP; reflexivity).
      assert (Hk2 : 0 <= k * 2 < pw (S e)) by (rewrite pw_S; lia).
      assert (Hex2 : k * 2 * pw l < N) by (rewrite pw_S in Hex; lia).
      assert (Hle2 : (l + S e = d)%nat) by lia.
      (* the left child *)
      assert (Hleft : forall hr br,
                Merkle.mHashes st = map Some (hl ++ hr) ++ hs ->
                stream st = true :: map bit_of (bl ++ br) ++ bs ->
                exists st1, reaches st st1 /\
                  if clean l (k * 2)
                  then exists st2, reaches st1 st2 /\
                         node_done l (S e) (k * 2)
                           (Merkle.s st ++ [Merkle.mkNode (position (S l) e k) None])
                           (Merkle.r st) (map Some hr ++ hs) (map bit_of br ++ bs) st2
                  else exists r' hs',
                         runs_to st1
                           (Merkle.Returned r' (Some (errors_New "DUP HASH CRASH")), hs')).
      { intros hr br Hh1 Hs1.
        assert (Hhne : Merkle.mHashes st <> []).
        { rewrite Hh1. destruct hl; [congruence | discriminate]. }
        destruct (new_node_descend N (pw d) st _ Hhne Hs1 Hok Hland)
          as (st1 & Hst & Hs' & Hr' & Hp' & Hh' & Hb' & Hok').
        exists st1. split; [apply reaches_one; rewrite Hstep; exact Hst|].
        rewrite <- Hr', <- Hpos, <- Hs'.
        apply (IH (S e) (k * 2) st1 (map Some hr ++ hs) (map bit_of br ++ bs));
          try assumption.
        - rewrite Hs'. apply complete_placeholder.
        - rewrite Hs'. apply combinable_placeholder.
        - rewrite Hp', Hpos. replace d with (S l + e)%nat by exact Hle.
          apply position_descend; [lia | exact Hk].
        - rewrite Hh', Hh1, ETL. cbn [snd]. rewrite map_app, <- app_assoc. reflexivity.
        - rewrite Hb', ETL. cbn [fst]. rewrite map_app, <- app_assoc. reflexivity. }
      destruct (k * 2 + 1 <? MBlock.CalcTreeWidth mb l) eqn:EW.
      * (* the right child exists *)
        symmetry in HW. apply Z.ltb_lt in HW.
        destruct (TraverseAndBuild l (k * 2 + 1)) as [br hr] eqn:ETR.
        cbn [fst snd map] in Hh, Hs. rewrite Hbit in Hs.
        destruct (Hleft hr br Hh Hs) as (st1 & Hr1 & Hl1). clear Hleft.
        destruct (clean l (k * 2)) eqn:ECL.
        2:{ destruct Hl1 as (r' & hs' & Hrun). cbn [andb].
            exists r', hs'. eapply reaches_runs_to; [exact Hr1 | exact Hrun]. }
        destruct Hl1 as (st2 & Hr2 & Hs2 & Hrr2 & Hh2 & Hb2 & Hok2 & Hp2 & _).
        assert (Hk3 : 0 <= k * 2 + 1 < pw (S e)) by (rewrite pw_S; lia).
        assert (Hpos2 : Merkle.pos st2 = position l (S e) (k * 2 + 1)).
        { rewrite Hp2 by (apply Z.mod_mul; lia).
          unfold position. lia. }
        pose proof (IH (S e) (k * 2 + 1) st2 hs bs Hle2 Hk3 HW) as IHR.
        rewrite Hs2, <- app_assoc in IHR. cbn [app] in IHR.
        specialize (IHR (complete_two _ _ _ _) (combinable_placeholder_left _ _ _)
                        Hpos2).
        rewrite ETR in IHR. cbn [fst snd] in IHR.
        specialize (IHR Hh2 Hb2 Hok2).
        destruct (clean l (k * 2 + 1)) eqn:ECR.
        2:{ destruct IHR as (r' & hs' & Hrun). cbn [andb].
            exists r', hs'. eapply reaches_runs_to; [exact Hr1|].
            eapply reaches_runs_to; [exact Hr2 | exact Hrun]. }
        destruct IHR as (st3 & Hr3 & Hs3 & Hrr3 & Hh3 & Hb3 & Hok3 & _ & Hp3).
        assert (Hd3 : Merkle.inDeadZone (Merkle.pos st3) N = Some false).
        { apply Hp3. replace (k * 2 + 1) with (1 + k * 2) by lia.
          rewrite Z.mod_add by lia. reflexivity. }
        rewrite <- app_assoc in Hs3. cbn [app] in Hs3.
        pose proof (step_combine Sha256D root N (pw d) st3 _ _ _ _ _ _ Hs3 Hd3) as Hcomb.
        cbn [Merkle.p] in Hcomb. cbn [andb].
        destruct (Uint256_IsEqual (CalcHash l (k * 2)) (CalcHash l (k * 2 + 1))) eqn:EQ;
          unfold CalcHash in EQ; rewrite EQ; cbn [negb].
        -- do 2 eexists. eapply reaches_runs_to; [exact Hr1|].
           eapply reaches_runs_to; [exact Hr2|].
           eapply reaches_runs_to; [exact Hr3|].
           apply Merkle.runs_done. exact Hcomb.
        -- eexists. split.
           { eapply reaches_trans; [exact Hr1|].
             eapply reaches_trans; [exact Hr2|].
             eapply reaches_trans; [exact Hr3|].
             apply reaches_one. exact Hcomb. }
           unfold node_done.
           cbn [Merkle.s Merkle.r Merkle.pos Merkle.mHashes].
           split.
           { cbn [CalcHash MBlock.CalcHash]. rewrite EW. reflexivity. }
           split.
           { rewrite Hrr3, Hrr2. cbn [found MBlock.found]. rewrite EP, EW.
             rewrite <- app_assoc. reflexivity. }
           split; [exact Hh3|]. split; [exact Hb3|]. split; [exact Hok3|].
           split; intros Hm.
           ++ apply position_sibling. exact Hm.
           ++ rewrite position_right by exact Hm. apply node_exists_alive; assumption.
      * (* no right child: the left one is hashed with itself *)
        symmetry in HW. apply Z.ltb_ge in HW.
        cbn [fst snd map] in Hh, Hs. rewrite Hbit in Hs.
        destruct (Hleft [] [] Hh Hs) as (st1 & Hr1 & Hl1). clear Hleft.
        destruct (clean l (k * 2)) eqn:ECL.
        2:{ destruct Hl1 as (r' & hs' & Hrun). cbn [andb].
            exists r', hs'. eapply reaches_runs_to; [exact Hr1 | exact Hrun]. }
        destruct Hl1 as (st2 & Hr2 & Hs2 & Hrr2 & Hh2 & Hb2 & Hok2 & Hp2 & _).
        assert (Hk3 : 0 <= k * 2 + 1 < pw (S e)) by (rewrite pw_S; lia).
        assert (Hpos2 : Merkle.pos st2 = position l (S e) (k * 2 + 1)).
        { rewrite Hp2 by (apply Z.mod_mul; lia).
          unfold position. lia. }
        assert (Hd2 : Merkle.inDeadZone (Merkle.pos st2) N = Some true).
        { rewrite Hpos2. apply node_absent_dead; [exact Hle2 | exact Hk3 | lia]. }
        rewrite <- app_assoc in Hs2. cbn [app] in Hs2.
        pose proof (step_dead_zone Sha256D root N (pw d) st2 _ _ _ _ Hs2 Hd2) as Hdz.
        cbn [Merkle.p] in Hdz. cbn [andb].
        eexists. split.
        { eapply reaches_trans; [exact Hr1|].
          eapply reaches_trans; [exact Hr2|].
          apply reaches_one. exact Hdz. }
        unfold node_done.
        cbn [Merkle.s Merkle.r Merkle.pos Merkle.mHashes].
        split.
        { cbn [CalcHash MBlock.CalcHash]. rewrite EW. reflexivity. }
        split.
        { rewrite Hrr2. cbn [found MBlock.found]. rewrite EP, EW, app_nil_r.
          reflexivity. }
        cbn [map app] in Hh2, Hb2.
        split; [exact Hh2|]. split; [exact Hb2|]. split; [exact Hok2|].
        split; intros Hm.
        -- apply position_sibling. exact Hm.
        -- rewrite position_right by exact Hm. apply node_exists_alive; assumption.
Qed.

End Simulation.

(** ** Packing the flag bits *)

Ltac enum_bits pre :=
  first
    [ solve [exfalso; cbn [length] in *; lia]
    | destruct pre as [|[|] pre];
      [ vm_compute; reflexivity | enum_bits pre | enum_bits pre ] ].

Lemma bits8_byte_of_bits (pre : list bool) :
  (length pre <= 8)%nat ->
  bits8 (byte_of_bits pre) = pre ++ repeat false (8 - length pre).
Proof. intros H. enum_bits pre. Qed.

Lemma byte_of_bits_snoc (pre : list bool) (b : byte) :
  (length pre < 8)%nat -> is_bit b ->
  byte_of_Z (Z.lor (Z_of_byte (byte_of_bits pre))
                   (Z.shiftl (Z_of_byte b) (Z.of_nat (length pre mod 8)) mod 256))
  = byte_of_bits (pre ++ [bit_of b]).
Proof. intros H [-> | ->]; enum_bits pre. Qed.

Lemma flat_map_bits8_zero (n : nat) :
  flat_map bits8 (repeat x00 n) = repeat false (8 * n).
Proof.
  induction n as [|n IH]; [reflexivity|].
  cbn [repeat flat_map]. rewrite IH.
  replace (8 * S n)%nat with (8 + 8 * n)%nat by lia.
  rewrite repeat_app. reflexivity.
Qed.

(** Two lists with the same front, down to the count of a [repeat]. *)
Ltac same_front :=
  repeat match goal with
  | |- ?a ++ _ = ?a ++ _ => f_equal
  | |- ?a :: _ = ?a :: _ => f_equal
  | |- repeat ?x _ = repeat ?x _ => f_equal
  end.

Section SetFlags.

Variable Sha256D : list byte -> list byte.
Variable mb : MBlock.MBlock.

Let set_flags := MBlock.set_flags.

Lemma set_flags_shift (bits : list byte) (fa fl : list byte) (j : nat) :
  set_flags bits (8 * length fa + j) (fa ++ fl) = fa ++ set_flags bits j fl.
Proof.
  revert fl j. induction bits as [|b bits IH]; intros fl j; [reflexivity|].
  cbn [set_flags MBlock.set_flags].
  assert (Hq : ((8 * length fa + j) / 8 = length fa + j / 8)%nat).
  { rewrite Nat.mul_comm, Nat.div_add_l by lia. reflexivity. }
  assert (Hm : ((8 * length fa + j) mod 8 = j mod 8)%nat).
  { rewrite Nat.add_comm, Nat.mul_comm. apply Nat.Div0.mod_add. }
  rewrite Hq, Hm.
  rewrite app_nth2_plus.
  rewrite firstn_app_2.
  replace (S (length fa + j / 8)) with (length fa + S (j / 8))%nat by lia.
  rewrite skipn_app. rewrite skipn_all2 by lia.
  replace (length fa + S (j / 8) - length fa)%nat with (S (j / 8)) by lia.
  cbn [app]. rewrite <- app_assoc.
  replace (S (8 * length fa + j)) with (8 * length fa + S j)%nat by lia.
  apply IH.
Qed.

Lemma set_flags_bits (bits : list byte) :
  Forall is_bit bits ->
  forall (pre : list bool) (n : nat),
    (length pre <= 8)%nat -> (length pre + length bits <= 8 * S n)%nat ->
    flat_map bits8 (set_flags bits (length pre) (byte_of_bits pre :: repeat x00 n))
    = pre ++ map bit_of bits ++ repeat false (8 * S n - length pre - length bits).
Proof.
  induction 1 as [|b bits Hb Hbits IH]; intros pre n Hpre Hlen.
  - cbn [set_flags MBlock.set_flags flat_map map app length].
    rewrite bits8_byte_of_bits, flat_map_bits8_zero by exact Hpre.
    rewrite <- app_assoc, <- repeat_app. same_front. lia.
  - assert (Hlt : forall pre0 n0, (length pre0 < 8)%nat ->
                (length pre0 + length (b :: bits) <= 8 * S n0)%nat ->
                flat_map bits8
                  (set_flags (b :: bits) (length pre0)
                             (byte_of_bits pre0 :: repeat x00 n0))
                = pre0 ++ map bit_of (b :: bits) ++
                  repeat false (8 * S n0 - length pre0 - length (b :: bits))).
    { intros pre0 n0 Hp0 Hl0. cbn [set_flags MBlock.set_flags].
      rewrite (Nat.div_small (length pre0) 8) by lia.
      cbn [nth firstn skipn app].
      rewrite byte_of_bits_snoc by assumption.
      replace (S (length pre0)) with (length (pre0 ++ [bit_of b]))
        by (rewrite length_app; cbn [length]; lia).
      cbn [length] in Hl0.
      rewrite IH by (rewrite ?length_app; cbn [length]; lia).
      rewrite <- app_assoc. cbn [app map length]. rewrite length_app. cbn [length].
      same_front. lia. }
    destruct (Nat.eq_dec (length pre) 8) as [E8 | Hne].
    + destruct n as [|n]; [cbn [length] in Hlen; lia|].
      rewrite E8. cbn [repeat].
      change (byte_of_bits pre :: x00 :: repeat x00 n)
        with ([byte_of_bits pre] ++ x00 :: repeat x00 n).
      change 8%nat with (8 * length [byte_of_bits pre] + 0)%nat at 1.
      rewrite set_flags_shift. cbn [app flat_map].
      rewrite bits8_byte_of_bits by exact Hpre.
      rewrite E8. cbn [Nat.sub repeat]. rewrite app_nil_r.
      change x00 with (byte_of_bits []) at 1.
      change 0%nat with (length (@nil bool)).
      rewrite Hlt by (cbn [length] in *; lia).
      cbn [app length]. cbn [length] in Hlen. same_front. lia.
    + apply Hlt; [lia | exact Hlen].
Qed.

Lemma set_flags_stream (bits : list byte) :
  Forall is_bit bits ->
  exists pad,
    flat_map bits8 (set_flags bits 0 (repeat x00 ((length bits + 7) / 8)))
    = map bit_of bits ++ repeat false pad.
Proof.
  intros Hb. destruct ((length bits + 7) / 8)%nat as [|n] eqn:En.
  - assert (length bits = 0)%nat.
    { destruct (Nat.eq_dec (length bits) 0) as [|Hne]; [assumption|]. exfalso.
      assert (1 <= (length bits + 7) / 8)%nat by (apply Nat.div_le_lower_bound; lia).
      lia. }
    destruct bits; [|discriminate]. exists 0%nat. reflexivity.
  - exists (8 * S n - length bits)%nat. cbn [repeat].
    change x00 with (byte_of_bits []) at 1.
    change 0%nat with (length (@nil bool)) at 1.
    rewrite set_flags_bits; [cbn [app length]; same_front; lia | exact Hb | cbn; lia |].
    cbn [length].
    pose proof (Nat.div_mod_eq (length bits + 7) 8) as Hdm.
    pose proof (Nat.mod_upper_bound (length bits + 7) 8 ltac:(lia)). lia.
Qed.

End SetFlags.

(** ** The flag bits and hashes that the builder emits *)

Lemma byte_or_is_bit (a b : byte) :
  is_bit a -> is_bit b ->
  is_bit (MBlock.byte_or a b) /\
  bit_of (MBlock.byte_or a b) = bit_of a || bit_of b.
Proof.
  intros [-> | ->] [-> | ->]; (split; [vm_compute; auto | reflexivity]).
Qed.

Lemma nth_is_bit (l : list byte) (n : nat) : Forall is_bit l -> is_bit (nth n l x00).
Proof.
  intros H. revert n. induction H as [|b l Hb Hl IH]; intros [|n]; cbn [nth];
    try (left; reflexivity); auto.
Qed.

Lemma skipn_nth {A} (l : list A) (n : nat) (dflt : A) :
  (n < length l)%nat -> skipn n l = nth n l dflt :: skipn (S n) l.
Proof.
  revert n. induction l as [|a l IH]; intros n Hn; [cbn in Hn; lia|].
  destruct n as [|n]; [reflexivity|]. cbn [skipn nth]. apply IH. cbn in Hn. lia.
Qed.

Lemma firstn_add_skipn {A} (p q a : nat) (l : list A) :
  firstn (p + q) (skipn a l) = firstn p (skipn a l) ++ firstn q (skipn (a + p) l).
Proof.
  rewrite (Nat.add_comm a p), <- skipn_skipn.
  generalize (skipn a l) as x. clear a l.
  induction p as [|p IH]; intros x; [reflexivity|].
  destruct x as [|y x]; cbn [Nat.add firstn skipn app].
  - rewrite firstn_nil. reflexivity.
  - rewrite IH. reflexivity.
Qed.

Lemma pw_nat (l : nat) : Z.of_nat (2 ^ l) = pw l.
Proof. unfold pw. rewrite Nat2Z.inj_pow. reflexivity. Qed.

Lemma matched_ids_app (h1 h2 : list Uint256) (m1 m2 : list bool) :
  length h1 = length m1 ->
  matched_ids (h1 ++ h2) (m1 ++ m2) = matched_ids h1 m1 ++ matched_ids h2 m2.
Proof.
  revert m1. induction h1 as [|a h1 IH]; intros [|b m1] Hl; try discriminate.
  - reflexivity.
  - cbn [app matched_ids]. injection Hl as Hl. rewrite (IH _ Hl).
    destruct b; reflexivity.
Qed.

Lemma matched_ids_none (hs : list Uint256) (ms : list bool) :
  existsb (fun b => b) ms = false -> matched_ids hs ms = [].
Proof.
  revert ms. induction hs as [|a hs IH]; intros [|b ms] H; try reflexivity.
  cbn [existsb] in H. apply orb_false_iff in H. destruct H as [-> H].
  cbn [matched_ids]. apply IH. exact H.
Qed.

Lemma matched_bytes_are_bits (ms : list bool) :
  Forall is_bit (map (fun b : bool => if b then x01 else x00) ms).
Proof.
  induction ms as [|b ms IH]; constructor; [|exact IH].
  destruct b; [right | left]; reflexivity.
Qed.

Section Matched.

Variable Sha256D : list byte -> list byte.
Variable hashes : list Uint256.
Variable matches : list bool.
Hypothesis same_length : length hashes = length matches.

Let mb := MBlock.of_matches hashes matches.
Let N := Z.of_nat (length hashes).

(** The leaves below node [k] of row [l]. *)
Let below {A} (l : nat) (k : Z) (leaves : list A) : list A :=
  firstn (2 ^ l) (skipn (Z.to_nat (k * pw l)) leaves).

Lemma MatchedBits_are_bits : Forall is_bit (MBlock.MatchedBits mb).
Proof. apply matched_bytes_are_bits. Qed.

Lemma or_matched_spec (count : nat) :
  forall (i : Z) (acc : byte),
    0 <= i -> is_bit acc ->
    is_bit (MBlock.or_matched mb count i acc) /\
    bit_of (MBlock.or_matched mb count i acc) =
      bit_of acc || existsb (fun b => b) (firstn count (skipn (Z.to_nat i) matches)).
Proof.
  induction count as [|count IH]; intros i acc Hi Hacc.
  - cbn. rewrite orb_false_r. auto.
  - cbn [MBlock.or_matched]. cbn [MBlock.NumTx mb MBlock.of_matches].
    destruct (i <? Z.of_nat (length hashes)) eqn:E.
    + apply Z.ltb_lt in E.
      assert (Hn : (Z.to_nat i < length matches)%nat) by lia.
      rewrite (skipn_nth matches _ false Hn). cbn [firstn existsb].
      set (m := nth (Z.to_nat i) matches false).
      replace (nth (Z.to_nat i) (MBlock.MatchedBits mb) x00)
        with (if m then x01 else x00)
        by (symmetry;
            apply (map_nth (fun b : bool => if b then x01 else x00) matches false)).
      assert (Hm : is_bit (if m then x01 else x00))
        by (destruct m; [right | left]; reflexivity).
      destruct (byte_or_is_bit acc _ Hacc Hm) as [Hb Hbo].
      destruct (IH (i + 1) _ ltac:(lia) Hb) as [H1 H2].
      split; [exact H1|]. rewrite H2, Hbo.
      replace (Z.to_nat (i + 1)) with (S (Z.to_nat i)) by lia.
      rewrite <- orb_assoc. f_equal. f_equal. destruct m; reflexivity.
    + apply Z.ltb_ge in E.
      rewrite skipn_all2 by lia. rewrite firstn_nil. cbn [existsb].
      rewrite orb_false_r. auto.
Qed.

Lemma isParent_spec (l : nat) (k : Z) :
  0 <= k ->
  is_bit (MBlock.isParent mb l k) /\
  bit_of (MBlock.isParent mb l k) = existsb (fun b => b) (below l k matches).
Proof.
  intros Hk. unfold MBlock.isParent, below.
  rewrite Z.shiftl_mul_pow2 by lia. fold (pw l).
  pose proof (pw_pos l).
  apply (or_matched_spec (2 ^ l) (k * pw l) x00); [nia | left; reflexivity].
Qed.

Lemma TraverseAndBuild_bits (l : nat) :
  forall k, 0 <= k -> Forall is_bit (fst (MBlock.TraverseAndBuild Sha256D mb l k)).
Proof.
  induction l as [|l IH]; intros k Hk.
  - cbn [MBlock.TraverseAndBuild fst]. constructor; [|constructor].
    apply isParent_spec. exact Hk.
  - cbn [MBlock.TraverseAndBuild].
    destruct (byte_eqb _ x00).
    + cbn [fst]. constructor; [|constructor]. apply isParent_spec. exact Hk.
    + pose proof (IH (k * 2) ltac:(lia)) as HL.
      pose proof (IH (k * 2 + 1) ltac:(lia)) as HR.
      destruct (MBlock.TraverseAndBuild Sha256D mb l (k * 2)) as [bl hl].
      destruct (k * 2 + 1 <? MBlock.CalcTreeWidth mb l).
      * destruct (MBlock.TraverseAndBuild Sha256D mb l (k * 2 + 1)) as [br hr].
        cbn [fst] in *. constructor; [apply isParent_spec; exact Hk|].
        apply Forall_app. split; assumption.
      * cbn [fst] in *. constructor; [apply isParent_spec; exact Hk|].
        rewrite app_nil_r. exact HL.
Qed.

Lemma below_split {A} (l : nat) (k : Z) (leaves : list A) :
  0 <= k ->
  below (S l) k leaves = below l (k * 2) leaves ++ below l (k * 2 + 1) leaves.
Proof.
  intros Hk. unfold below. pose proof (pw_pos l) as Hp.
  replace (2 ^ S l)%nat with (2 ^ l + 2 ^ l)%nat by (cbn [Nat.pow]; lia).
  rewrite pw_S.
  replace (k * (2 * pw l)) with (k * 2 * pw l) by lia.
  rewrite firstn_add_skipn. f_equal. f_equal. f_equal.
  rewrite <- (pw_nat l) in *. nia.
Qed.

Lemma below_length {A B} (l : nat) (k : Z) (xs : list A) (ys : list B) :
  length xs = length ys -> length (below l k xs) = length (below l k ys).
Proof.
  intros H. unfold below. rewrite !length_firstn, !length_skipn, H. reflexivity.
Qed.

Lemma below_absent {A} (l : nat) (k : Z) (leaves : list A) :
  Z.of_nat (length leaves) <= k * pw l -> below l k leaves = [].
Proof.
  intros H. unfold below. rewrite skipn_all2 by lia. apply firstn_nil.
Qed.

Lemma found_spec (l : nat) :
  forall k, 0 <= k ->
    MBlock.found Sha256D mb l k =
    map Some (matched_ids (below l k hashes) (below l k matches)).
Proof.
  induction l as [|l IH]; intros k Hk.
  - cbn [MBlock.found]. rewrite (proj2 (isParent_spec 0 k Hk)).
    unfold below. cbn [Nat.pow]. rewrite pw_0, Z.mul_1_r.
    cbn [MBlock.CalcHash mb MBlock.of_matches MBlock.AllHashes].
    destruct (Nat.lt_ge_cases (Z.to_nat k) (length hashes)) as [Hlt | Hge].
    + rewrite (skipn_nth hashes _ [] Hlt).
      rewrite (skipn_nth matches _ false) by (rewrite <- same_length; exact Hlt).
      cbn [firstn existsb matched_ids]. rewrite orb_false_r.
      destruct (nth (Z.to_nat k) matches false); reflexivity.
    + rewrite (skipn_all2 hashes) by lia.
      rewrite (skipn_all2 matches) by (rewrite <- same_length; lia).
      reflexivity.
  - cbn [MBlock.found].
    destruct (isParent_spec (S l) k Hk) as [_ HP].
    destruct (byte_eqb (MBlock.isParent mb (S l) k) x00) eqn:EP.
    + unfold bit_of in HP. rewrite EP in HP. cbn [negb] in HP.
      rewrite matched_ids_none by (symmetry; exact HP). reflexivity.
    + rewrite !below_split by exact Hk.
      rewrite matched_ids_app by (apply below_length; exact same_length).
      rewrite map_app, IH by lia. f_equal.
      rewrite CalcTreeWidth_spec.
      cbn [MBlock.NumTx mb MBlock.of_matches].
      destruct ((k * 2 + 1) * pw l <? Z.of_nat (length hashes)) eqn:EW.
      * apply IH. lia.
      * apply Z.ltb_ge in EW. rewrite (below_absent l _ hashes) by exact EW.
        reflexivity.
Qed.

Lemma found_root (dd : nat) :
  N <= pw dd ->
  MBlock.found Sha256D mb dd 0 = map Some (matched_ids hashes matches).
Proof.
  intros Hd. rewrite found_spec by lia. unfold below.
  rewrite Z.mul_0_l. cbn [Z.to_nat skipn].
  unfold N in Hd. rewrite <- pw_nat in Hd.
  rewrite !firstn_all2 by (rewrite <- ?same_length; lia). reflexivity.
Qed.

End Matched.

(** ** Building a block and checking it *)

Lemma root_position (dd : nat) :
  (dd <= 31)%nat -> u32 (shl32 (pw dd) 1 - 2) = position dd 0 0.
Proof.
  intros Hd. unfold position. rewrite Nat.add_0_r, (pw_succ dd).
  change (pw (0 + 1)) with 2.
  pose proof (pw_pos dd) as Hp.
  assert (Hp31 : pw dd <= 2 ^ 31) by (unfold pw; apply pow2_le_mono; lia).
  unfold shl32, u32. rewrite Z.shiftl_mul_pow2 by lia. change (2 ^ 1) with 2.
  destruct (Z.eq_dec (pw dd) (2 ^ 31)) as [E | E].
  - rewrite E. reflexivity.
  - rewrite (Z.mod_small (pw dd * 2)) by lia.
    rewrite Z.mod_small by lia. lia.
Qed.

Lemma height_loop_spec (mb : MBlock.MBlock) (dd : nat) :
  MBlock.NumTx mb <= pw dd ->
  (forall h, (h < dd)%nat -> pw h < MBlock.NumTx mb) ->
  forall (fuel h : nat),
    (h <= dd)%nat -> (dd - h < fuel)%nat ->
    MBlock.height_loop mb fuel h = Some dd.
Proof.
  intros Hle Hmin. induction fuel as [|fuel IH]; intros h Hh Hf; [lia|].
  cbn [MBlock.height_loop].
  rewrite Z.gtb_ltb, CalcTreeWidth_spec, Z.mul_1_l.
  destruct (pw h <? MBlock.NumTx mb) eqn:E.
  - apply Z.ltb_lt in E.
    assert (h <> dd) by (intros ->; lia).
    apply IH; lia.
  - apply Z.ltb_ge in E.
    destruct (Nat.eq_dec h dd) as [-> | Hne]; [reflexivity|].
    specialize (Hmin h ltac:(lia)). lia.
Qed.

Lemma same_tree_CalcHash (Sha256D : list byte -> list byte) (m1 m2 : MBlock.MBlock) :
  MBlock.NumTx m1 = MBlock.NumTx m2 -> MBlock.AllHashes m1 = MBlock.AllHashes m2 ->
  forall l k, MBlock.CalcHash Sha256D m1 l k = MBlock.CalcHash Sha256D m2 l k.
Proof.
  intros Hn Ha. induction l as [|l IH]; intros k; cbn [MBlock.CalcHash].
  - rewrite Ha. reflexivity.
  - unfold MBlock.CalcTreeWidth. rewrite Hn, !IH. reflexivity.
Qed.

Lemma same_tree_siblings_differ (Sha256D : list byte -> list byte)
    (m1 m2 : MBlock.MBlock) :
  MBlock.NumTx m1 = MBlock.NumTx m2 -> MBlock.AllHashes m1 = MBlock.AllHashes m2 ->
  forall l k,
    MBlock.siblings_differ Sha256D m1 l k = MBlock.siblings_differ Sha256D m2 l k.
Proof.
  intros Hn Ha. induction l as [|l IH]; intros k; cbn [MBlock.siblings_differ];
    [reflexivity|].
  unfold MBlock.CalcTreeWidth.
  rewrite Hn, !IH, !(same_tree_CalcHash Sha256D m1 m2 Hn Ha). reflexivity.
Qed.

Section Built.

Variable Sha256D : list byte -> list byte.
Variable hashes : list Uint256.
Variable matches : list bool.
Hypothesis same_length : length hashes = length matches.
Hypothesis count_range : 0 < Z.of_nat (length hashes) <= 2 ^ 31.

Let mb := MBlock.of_matches hashes matches.
Let N := Z.of_nat (length hashes).

Lemma build_checked :
  exists (dd : nat) (m : Merkle.MerkleBlock) (pad : nat),
    Merkle.treeDepth N = Some (Z.of_nat dd) /\
    Merkle.nextPowerOfTwo N = Some (pw dd) /\
    MBlock.build Sha256D mb = Some m /\
    m = Merkle.mkMerkleBlock
          (MBlock.CalcHash Sha256D mb dd 0) N
          (map Some (snd (MBlock.TraverseAndBuild Sha256D mb dd 0)))
          (Merkle.Flags m) /\
    (MBlock.clean Sha256D mb dd 0 = true ->
       Merkle.CheckMerkleBlock_run Sha256D m =
         (Merkle.Returned (map Some (matched_ids hashes matches)) None, []) /\
       exists st p0,
         Merkle.reaches Sha256D (Merkle.MerkleRoot m) (Merkle.Transactions m) (pw dd)
           (Merkle.initial m (pw dd)) st /\
         Merkle.s st = [Merkle.mkNode p0 (Some (Merkle.MerkleRoot m))]) /\
    (MBlock.clean Sha256D mb dd 0 = false ->
       exists r' hs',
         Merkle.CheckMerkleBlock_run Sha256D m =
           (Merkle.Returned r' (Some (errors_New "DUP HASH CRASH")), hs')).
Proof.
  destruct (nextPowerOfTwo_spec N count_range) as (dz & Htd & Hnp & Hdz & Hle & Hmin).
  set (dd := Z.to_nat dz).
  assert (Hpw : pw dd = 2 ^ dz) by (unfold pw, dd; f_equal; lia).
  assert (Hdd : (dd <= 31)%nat) by (unfold dd; lia).
  assert (Hheight : MBlock.height_loop mb 33 0 = Some dd).
  { apply height_loop_spec; try lia.
    - cbn [MBlock.NumTx mb MBlock.of_matches]. fold N. lia.
    - intros h Hh. cbn [MBlock.NumTx mb MBlock.of_matches]. fold N.
      destruct Hmin as [Hz | Hlt]; [unfold dd in Hh; lia|].
      assert (pw h <= 2 ^ (dz - 1)); [|lia].
      unfold pw. apply pow2_le_mono. unfold dd in Hh. lia. }
  destruct (MBlock.TraverseAndBuild Sha256D mb dd 0) as [Bits FinalHashes] eqn:ETB.
  assert (Hbits : Forall is_bit Bits).
  { pose proof (TraverseAndBuild_bits Sha256D hashes matches same_length dd 0
                  ltac:(lia)) as H.
    fold mb in H. rewrite ETB in H. exact H. }
  destruct (set_flags_stream Bits Hbits) as (pad & Hstream).
  set (m := Merkle.mkMerkleBlock (MBlock.CalcHash Sha256D mb dd 0) N
              (map Some FinalHashes)
              (MBlock.set_flags Bits 0 (repeat x00 ((length Bits + 7) / 8)))).
  exists dd, m, pad.
  assert (Hbuild : MBlock.build Sha256D mb = Some m).
  { unfold MBlock.build. rewrite Hheight.
    cbn [MBlock.NumTx mb MBlock.of_matches]. fold N. rewrite Htd.
    fold mb. rewrite ETB. fold dd. reflexivity. }
  assert (Hbne : Bits <> []).
  { intros ->. pose proof (TraverseAndBuild_hashes Sha256D mb dd 0) as Hh.
    destruct dd as [|dd']; cbn [MBlock.TraverseAndBuild] in ETB.
    - discriminate.
    - destruct (byte_eqb _ x00); [discriminate|].
      destruct (MBlock.TraverseAndBuild Sha256D mb dd' (0 * 2)).
      destruct (if 0 * 2 + 1 <? MBlock.CalcTreeWidth mb dd'
                then MBlock.TraverseAndBuild Sha256D mb dd' (0 * 2 + 1)
                else ([], [])).
      discriminate. }
  assert (Hfne : Merkle.Flags m <> []).
  { cbn [Merkle.Flags m]. intros Hnil. rewrite Hnil in Hstream.
    destruct Bits; [congruence | discriminate]. }
  assert (Htr : 0 < Merkle.Transactions m < 2 ^ 32) by (cbn; fold N; lia).
  assert (Hnp' : Merkle.nextPowerOfTwo (Merkle.Transactions m) = Some (pw dd))
    by (cbn [Merkle.Transactions m]; rewrite Hpw; exact Hnp).
  split; [rewrite Htd; f_equal; unfold dd; lia|].
  split; [rewrite Hpw; exact Hnp|].
  split; [exact Hbuild|]. split; [rewrite ETB; reflexivity|].
  assert (HN : 0 < MBlock.NumTx mb <= pw dd)
    by (cbn [MBlock.NumTx mb MBlock.of_matches]; fold N; lia).
  assert (Hnpm : Merkle.nextPowerOfTwo (MBlock.NumTx mb) = Some (pw dd))
    by (cbn [MBlock.NumTx mb MBlock.of_matches]; fold N; rewrite Hpw; exact Hnp).
  pose proof (subtree_verified Sha256D mb (Merkle.MerkleRoot m) dd HN Hdd Hnpm
                dd 0%nat 0 (Merkle.initial m (pw dd)) [] (repeat false pad)) as Hsim.
  cbn [Merkle.initial Merkle.s Merkle.r Merkle.pos Merkle.mHashes] in Hsim.
  specialize (Hsim ltac:(lia) ltac:(rewrite pw_0; lia)
                   ltac:(cbn [MBlock.NumTx mb MBlock.of_matches]; fold N; lia)
                   eq_refl eq_refl (root_position dd Hdd)).
  rewrite ETB in Hsim. cbn [fst snd] in Hsim.
  specialize (Hsim ltac:(cbn; rewrite app_nil_r; reflexivity)
                   ltac:(unfold stream; cbn; exact Hstream)
                   ltac:(split; [cbn; lia | reflexivity])).
  cbn [MBlock.NumTx mb MBlock.of_matches] in Hsim. fold N in Hsim.
  split.
  - intros Hclean. rewrite Hclean in Hsim.
    destruct Hsim as (st' & Hreach & Hs' & Hr' & Hh' & _).
    cbn [app] in Hs', Hr'.
    assert (Hfinal : Merkle.step Sha256D (Merkle.MerkleRoot m) N (pw dd) st' =
                     Merkle.Done (Merkle.Returned (Merkle.r st') None)).
    { rewrite (step_complete Sha256D _ N (pw dd) st' _ _ Hs').
      cbn [Merkle.MerkleRoot m]. unfold Uint256_IsEqual.
      rewrite bytes_Equal_refl. reflexivity. }
    split.
    + rewrite (CheckMerkleBlock_run_at Sha256D m (pw dd) Htr Hfne Hnp' st'
                 (Merkle.Returned (Merkle.r st') None) Hreach Hfinal).
      rewrite Hr', Hh'.
      pose proof (found_root Sha256D hashes matches same_length dd ltac:(lia)) as Hf.
      fold mb in Hf. rewrite Hf. reflexivity.
    + exists st', (position dd 0 0). split; [exact Hreach | exact Hs'].
  - intros Hclean. rewrite Hclean in Hsim.
    destruct Hsim as (r' & hs' & Hrun). exists r', hs'.
    exact (CheckMerkleBlock_run_runs_to Sha256D m (pw dd) Htr Hfne Hnp' _ Hrun).
Qed.

End Built.

(** C1.  For every valid merkle tree of 1 to 1024 leaves and every subset
    of matched leaves, the partial merkle block built for them (the number
    of transactions, the hashes, the packed flag bits) is accepted by
    CheckMerkleBlock, which returns exactly the ids of the matched leaves,
    in order, with a nil error; and the loop ends with the header's merkle
    root as the one hash on its stack. *)
Theorem partial_merkle_block_verified
    (Sha256D : list byte -> list byte) (hashes : list Uint256) (matches : list bool) :
  (1 <= length hashes <= 1024)%nat ->
  length matches = length hashes ->
  valid_tree Sha256D hashes = true ->
  exists (m : Merkle.MerkleBlock) (msb : Z),
    MBlock.build Sha256D (MBlock.of_matches hashes matches) = Some m /\
    Merkle.CheckMerkleBlock Sha256D m =
      Merkle.Returned (map Some (matched_ids hashes matches)) None /\
    Merkle.nextPowerOfTwo (Merkle.Transactions m) = Some msb /\
    exists st p0,
      Merkle.reaches Sha256D (Merkle.MerkleRoot m) (Merkle.Transactions m) msb
        (Merkle.initial m msb) st /\
      Merkle.s st = [Merkle.mkNode p0 (Some (Merkle.MerkleRoot m))].
Proof.
  intros Hn Hlen Hvalid.
  assert (Hrange : 0 < Z.of_nat (length hashes) <= 2 ^ 31) by lia.
  destruct (build_checked Sha256D hashes matches (eq_sym Hlen) Hrange)
    as (dd & m & pad & Htd & Hnp & Hbuild & Hm & Hclean & _).
  unfold valid_tree in Hvalid. rewrite Htd, Nat2Z.id in Hvalid.
  rewrite (same_tree_siblings_differ Sha256D _ (MBlock.of_matches hashes matches))
    in Hvalid by reflexivity.
  apply siblings_differ_clean in Hvalid.
  destruct (Hclean Hvalid) as (Hrun & st & p0 & Hreach & Hs).
  exists m, (pw dd). split; [exact Hbuild|]. split.
  - unfold Merkle.CheckMerkleBlock. rewrite Hrun. reflexivity.
  - split; [rewrite Hm; exact Hnp|]. exists st, p0. split; assumption.
Qed.

Lemma partial_merkle_block_verified_witness :
  (1 <= length [repeat x01 32; repeat x02 32; repeat x03 32] <= 1024)%nat /\
  length [false; true; true] = length [repeat x01 32; repeat x02 32; repeat x03 32] /\
  valid_tree Sha256.Sha256D [repeat x01 32; repeat x02 32; repeat x03 32] = true /\
  exists (m : Merkle.MerkleBlock) (msb : Z),
    MBlock.build Sha256.Sha256D
      (MBlock.of_matches [repeat x01 32; repeat x02 32; repeat x03 32]
                         [false; true; true]) = Some m /\
    Merkle.CheckMerkleBlock Sha256.Sha256D m =
      Merkle.Returned [Some (repeat x02 32); Some (repeat x03 32)] None /\
    Merkle.nextPowerOfTwo (Merkle.Transactions m) = Some msb /\
    exists st p0,
      Merkle.reaches Sha256.Sha256D (Merkle.MerkleRoot m) (Merkle.Transactions m) msb
        (Merkle.initial m msb) st /\
      Merkle.s st = [Merkle.mkNode p0 (Some (Merkle.MerkleRoot m))].
Proof.
  assert (Hn : (1 <= length [repeat x01 32; repeat x02 32; repeat x03 32] <= 1024)%nat)
    by (cbn [length]; lia).
  assert (Hl : length [false; true; true] =
               length [repeat x01 32; repeat x02 32; repeat x03 32]) by reflexivity.
  assert (Hv : valid_tree Sha256.Sha256D
                 [repeat x01 32; repeat x02 32; repeat x03 32] = true)
    by (vm_compute; reflexivity).
  split; [exact Hn|]. split; [exact Hl|]. split; [exact Hv|].
  exact (partial_merkle_block_verified Sha256.Sha256D _ _ Hn Hl Hv).
Defined.

(** ** The duplicated last leaf *)

Lemma existsb_range (ms : list bool) :
  forall (s c j : nat),
    (s <= j < s + c)%nat -> nth j ms false = true ->
    existsb (fun b => b) (firstn c (skipn s ms)) = true.
Proof.
  induction ms as [|b ms IH]; intros s c j Hj Hn.
  - destruct j; discriminate Hn.
  - destruct s as [|s].
    + cbn [skipn]. destruct c as [|c]; [lia|]. cbn [firstn existsb].
      destruct j as [|j]; cbn [nth] in Hn.
      * rewrite Hn. reflexivity.
      * pose proof (IH 0%nat c j ltac:(lia) Hn) as H. cbn [skipn] in H.
        rewrite H. apply orb_true_r.
    + destruct j as [|j]; [lia|]. cbn [skipn nth] in *.
      apply (IH s c j); [lia | exact Hn].
Qed.

Lemma clean_inner (Sha256D : list byte -> list byte) (mb : MBlock.MBlock)
    (l : nat) (k : Z) :
  MBlock.clean Sha256D mb (S l) k =
    if byte_eqb (MBlock.isParent mb (S l) k) x00 then true
    else MBlock.clean Sha256D mb l (k * 2) &&
         (if k * 2 + 1 <? MBlock.CalcTreeWidth mb l
          then MBlock.clean Sha256D mb l (k * 2 + 1) &&
               negb (Uint256_IsEqual (MBlock.CalcHash Sha256D mb l (k * 2))
                                     (MBlock.CalcHash Sha256D mb l (k * 2 + 1)))
          else true).
Proof. reflexivity. Qed.

Section Duplicate.

Variable Sha256D : list byte -> list byte.
Variable hashes : list Uint256.
Variable x : Uint256.
Variable matches : list bool.

Let leaves := hashes ++ [x; x].
Let a := length hashes.
Let mb := MBlock.of_matches leaves matches.

Hypothesis odd_width : Nat.Even a.
Hypothesis same_length : length leaves = length matches.
Hypothesis copy_matched : nth a matches false = true \/ nth (S a) matches false = true.

Lemma leaves_count : MBlock.NumTx mb = Z.of_nat a + 2.
Proof.
  cbn [MBlock.NumTx mb MBlock.of_matches]. unfold leaves. rewrite length_app.
  cbn [length]. fold a. lia.
Qed.

Lemma covering_is_parent (l : nat) (k : Z) :
  0 <= k -> k * pw (S l) <= Z.of_nat a < (k + 1) * pw (S l) ->
  byte_eqb (MBlock.isParent mb (S l) k) x00 = false.
Proof.
  intros Hk Hc.
  destruct (isParent_spec leaves matches same_length (S l) k Hk) as [_ HP].
  fold mb in HP. unfold bit_of in HP.
  assert (He : existsb (fun b => b)
                 (firstn (2 ^ S l) (skipn (Z.to_nat (k * pw (S l))) matches)) = true).
  { pose proof (pw_nat (S l)) as Hpn. pose proof (pw_pos (S l)) as Hpp.
    destruct odd_width as [a' Ha'].
    rewrite pw_S in *. 
    destruct copy_matched as [Hm | Hm].
    - apply (existsb_range matches _ _ a); [|exact Hm]. nia.
    - apply (existsb_range matches _ _ (S a)); [|exact Hm]. nia. }
  rewrite He in HP. destruct (byte_eqb _ x00); [discriminate | reflexivity].
Qed.

Lemma covering_not_clean (l : nat) :
  forall k, 0 <= k -> k * pw (S l) <= Z.of_nat a < (k + 1) * pw (S l) ->
    MBlock.clean Sha256D mb (S l) k = false.
Proof.
  induction l as [|l IH]; intros k Hk Hc.
  - cbn [MBlock.clean]. rewrite (covering_is_parent 0 k Hk Hc).
    rewrite CalcTreeWidth_spec, leaves_count, pw_0.
    change (pw 1) with 2 in Hc.
    destruct odd_width as [a' Ha'].
    assert (Hak : Z.of_nat a = k * 2) by lia.
    destruct ((k * 2 + 1) * 1 <? Z.of_nat a + 2) eqn:E; [|zlia].
    cbn [andb MBlock.CalcHash mb MBlock.of_matches MBlock.AllHashes].
    replace (Z.to_nat (k * 2)) with a by lia.
    replace (Z.to_nat (k * 2 + 1)) with (S a) by lia.
    unfold leaves, a. rewrite !app_nth2 by lia.
    rewrite Nat.sub_diag. replace (S (length hashes) - length hashes)%nat with 1%nat by lia.
    cbn [nth]. unfold Uint256_IsEqual. rewrite bytes_Equal_refl. reflexivity.
  - rewrite clean_inner. rewrite (covering_is_parent (S l) k Hk Hc).
    rewrite (pw_S (S l)) in Hc.
    destruct (Z_lt_le_dec (Z.of_nat a) ((k * 2 + 1) * pw (S l))) as [Hleft | Hright].
    + rewrite (IH (k * 2)) by lia. reflexivity.
    + rewrite (IH (k * 2 + 1)) by lia.
      rewrite CalcTreeWidth_spec, leaves_count.
      destruct ((k * 2 + 1) * pw (S l) <? Z.of_nat a + 2) eqn:E; [|zlia].
      cbn [andb]. apply andb_false_r.
Qed.

Lemma root_not_clean (dd : nat) :
  MBlock.NumTx mb <= pw dd -> MBlock.clean Sha256D mb dd 0 = false.
Proof.
  intros Hd. rewrite leaves_count in Hd.
  destruct dd as [|l]; [rewrite pw_0 in Hd; lia|].
  apply covering_not_clean; lia.
Qed.

End Duplicate.

(** C2, as the specification has it, fails: the duplicate is seen only
    where the verifier combines the two copies itself.  In the tree of
    the four transaction ids A, B, C, C, the last leaf of the three-leaf
    level given a second time, the proof that matches A alone carries
    the parent of the two copies as one hash of the message; the pair is
    never combined, and CheckMerkleBlock returns A with a nil error. *)
Lemma duplicated_leaf_outside_the_proof_accepted :
  exists m : Merkle.MerkleBlock,
    MBlock.build Sha256.Sha256D
      (MBlock.of_matches [repeat x01 32; repeat x02 32; repeat x03 32; repeat x03 32]
                         [true; false; false; false]) = Some m /\
    Merkle.Transactions m = 4 /\
    Merkle.CheckMerkleBlock Sha256.Sha256D m =
      Merkle.Returned [Some (repeat x01 32)] None.
Proof.
  eexists. split; [vm_compute; reflexivity|]. split; [reflexivity|].
  vm_compute. reflexivity.
Qed.

(** C2, amended.  MakeMerkleParent fails on two equal non-nil hashes, and
    so does the iteration of CheckMerkleBlock that combines the two
    filled nodes at the tip of the stack when their hashes are equal;
    hence a block built for a proof that descends into a parent with two
    equal children is rejected.  In particular, when the last leaf of a
    level of odd width is given a second time (the transaction ids end in
    the same id twice, after an even number of others) and the proof
    holds one of the two copies as a matched leaf, CheckMerkleBlock
    rejects the block built for it with the error "DUP HASH CRASH". *)
Theorem duplicate_hash_rejected
    (Sha256D : list byte -> list byte) (hashes : list Uint256) (x : Uint256)
    (matches : list bool) :
  Nat.Even (length hashes) ->
  length matches = length (hashes ++ [x; x]) ->
  (length (hashes ++ [x; x]) <= 1024)%nat ->
  nth (length hashes) matches false = true \/
  nth (S (length hashes)) matches false = true ->
  (forall hv : Uint256,
     Merkle.MakeMerkleParent Sha256D (Some hv) (Some hv) =
       Err (errors_New "DUP HASH CRASH")) /\
  (forall root transactions msb st base n0 p1 p2 hv,
     Merkle.s st = base ++ [n0; Merkle.mkNode p1 (Some hv); Merkle.mkNode p2 (Some hv)] ->
     Merkle.inDeadZone (Merkle.pos st) transactions = Some false ->
     Merkle.step Sha256D root transactions msb st =
       Merkle.Done (Merkle.Returned (Merkle.r st) (Some (errors_New "DUP HASH CRASH")))) /\
  (forall (ids : list Uint256) (ms : list bool) (depth : Z),
     (1 <= length ids <= 1024)%nat -> length ms = length ids ->
     Merkle.treeDepth (Z.of_nat (length ids)) = Some depth ->
     MBlock.clean Sha256D (MBlock.of_matches ids ms) (Z.to_nat depth) 0 = false ->
     exists (m : Merkle.MerkleBlock) (r : list Merkle.hashptr),
       MBlock.build Sha256D (MBlock.of_matches ids ms) = Some m /\
       Merkle.CheckMerkleBlock Sha256D m =
         Merkle.Returned r (Some (errors_New "DUP HASH CRASH"))) /\
  exists (m : Merkle.MerkleBlock) (r : list Merkle.hashptr),
    MBlock.build Sha256D (MBlock.of_matches (hashes ++ [x; x]) matches) = Some m /\
    Merkle.CheckMerkleBlock Sha256D m =
      Merkle.Returned r (Some (errors_New "DUP HASH CRASH")).
Proof.
  intros Hodd Hlen Hn Hm.
  assert (Hgen : forall (ids : list Uint256) (ms : list bool) (depth : Z),
     (1 <= length ids <= 1024)%nat -> length ms = length ids ->
     Merkle.treeDepth (Z.of_nat (length ids)) = Some depth ->
     MBlock.clean Sha256D (MBlock.of_matches ids ms) (Z.to_nat depth) 0 = false ->
     exists (m : Merkle.MerkleBlock) (r : list Merkle.hashptr),
       MBlock.build Sha256D (MBlock.of_matches ids ms) = Some m /\
       Merkle.CheckMerkleBlock Sha256D m =
         Merkle.Returned r (Some (errors_New "DUP HASH CRASH"))).
  { intros ids ms depth Hids Hms Htd Hcl.
    assert (Hrange : 0 < Z.of_nat (length ids) <= 2 ^ 31) by lia.
    destruct (build_checked Sha256D ids ms (eq_sym Hms) Hrange)
      as (dd & m & pad & Htd' & Hnp & Hbuild & _ & _ & Hdup).
    rewrite Htd in Htd'. injection Htd' as ->. rewrite Nat2Z.id in Hcl.
    destruct (Hdup Hcl) as (r' & hs' & Hrun).
    exists m, r'. split; [exact Hbuild|].
    unfold Merkle.CheckMerkleBlock. rewrite Hrun. reflexivity. }
  split; [|split; [|split; [exact Hgen|]]].
  - intros hv. cbn [Merkle.MakeMerkleParent]. unfold Uint256_IsEqual.
    rewrite bytes_Equal_refl. reflexivity.
  - intros root transactions msb st base n0 p1 p2 hv Hs Hd.
    rewrite (step_combine Sha256D root transactions msb st base n0 p1 p2 hv hv Hs Hd).
    unfold Uint256_IsEqual. rewrite bytes_Equal_refl. reflexivity.
  - assert (Hrange : 0 < Z.of_nat (length (hashes ++ [x; x])) <= 2 ^ 31).
    { rewrite length_app in *. cbn [length] in *. lia. }
    destruct (treeDepth_spec _ Hrange) as (dz & Htd & Hdz & Hle & _).
    apply (Hgen (hashes ++ [x; x]) matches dz); try assumption.
    + rewrite length_app in *. cbn [length] in *. lia.
    + apply (root_not_clean Sha256D hashes x matches Hodd (eq_sym Hlen) Hm).
      cbn [MBlock.NumTx MBlock.of_matches].
      unfold pw. rewrite Z2Nat.id by lia. exact Hle.
Qed.

Lemma duplicate_hash_rejected_witness :
  Nat.Even (length [repeat x01 32; repeat x02 32]) /\
  length [true; false; false; true] =
    length ([repeat x01 32; repeat x02 32] ++ [repeat x03 32; repeat x03 32]) /\
  (length ([repeat x01 32; repeat x02 32] ++ [repeat x03 32; repeat x03 32]) <= 1024)%nat /\
  nth (S (length [repeat x01 32; repeat x02 32])) [true; false; false; true] false = true /\
  exists (m : Merkle.MerkleBlock) (r : list Merkle.hashptr),
    MBlock.build Sha256.Sha256D
      (MBlock.of_matches ([repeat x01 32; repeat x02 32] ++ [repeat x03 32; repeat x03 32])
                         [true; false; false; true]) = Some m /\
    Merkle.CheckMerkleBlock Sha256.Sha256D m =
      Merkle.Returned r (Some (errors_New "DUP HASH CRASH")).
Proof.
  assert (He : Nat.Even (length [repeat x01 32; repeat x02 32]))
    by (exists 1%nat; reflexivity).
  assert (Hl : length [true; false; false; true] =
               length ([repeat x01 32; repeat x02 32] ++ [repeat x03 32; repeat x03 32]))
    by reflexivity.
  assert (Hn : (length ([repeat x01 32; repeat x02 32] ++ [repeat x03 32; repeat x03 32])
                <= 1024)%nat) by (cbn [length app]; lia).
  assert (Hm : nth (S (length [repeat x01 32; repeat x02 32]))
                   [true; false; false; true] false = true) by reflexivity.
  split; [exact He|]. split; [exact Hl|]. split; [exact Hn|]. split; [exact Hm|].
  exact (proj2 (proj2 (proj2 (duplicate_hash_rejected Sha256.Sha256D
                         [repeat x01 32; repeat x02 32] (repeat x03 32)
                         [true; false; false; true] He Hl Hn (or_intror Hm))))).
Defined.

(** * Further properties of the code *)

(** ** Package serialization: one Read for every value *)

Lemma skipn_repeat_zero (k n : nat) : skipn k (repeat x00 n) = repeat x00 (n - k).
Proof.
  revert n. induction k as [|k IH]; intros n.
  - rewrite Nat.sub_0_r. reflexivity.
  - destruct n as [|n]; [reflexivity|]. cbn [repeat skipn Nat.sub]. apply IH.
Qed.

(** A [Read] into a zeroed buffer of [n] bytes, on a reader that has
    bytes left: the bytes there are, then the zeros of the buffer. *)
Lemma Read_zeroed (r : Reader) (n : nat) :
  r <> [] ->
  Read r (repeat x00 n) =
    (Nat.min n (length r), None, firstn n r ++ repeat x00 (n - length r), skipn n r).
Proof.
  intros Hr. unfold Read. destruct r as [|b l] eqn:E; [congruence|].
  rewrite <- E. clear E Hr b l. rewrite repeat_length, skipn_repeat_zero.
  destruct (Nat.le_ge_cases n (length r)) as [Hle | Hge].
  - rewrite Nat.min_l by exact Hle.
    replace (n - length r)%nat with 0%nat by lia.
    rewrite Nat.sub_diag. reflexivity.
  - rewrite Nat.min_r by exact Hge.
    rewrite firstn_all, (firstn_all2 r Hge), skipn_all, (skipn_all2 r Hge).
    reflexivity.
Qed.

Lemma Uint_app_zeros (p : list byte) (k : nat) : Uint (p ++ repeat x00 k) = Uint p.
Proof.
  induction p as [|b p IH].
  - induction k as [|k IHk]; [reflexivity|].
    cbn [app repeat Uint] in *. rewrite IHk. reflexivity.
  - cbn [app Uint]. rewrite IH. reflexivity.
Qed.

Lemma ReadUintN_available (width : nat) (r : Reader) :
  r <> [] -> width <> 0%nat ->
  ReadUintN width r = Ok (Uint (firstn width r), skipn width r).
Proof.
  intros Hr Hw. unfold ReadUintN. rewrite Read_zeroed by exact Hr.
  assert (Hn : (Nat.min width (length r) <=? 0)%nat = false).
  { apply Nat.leb_gt. destruct r; [congruence|]. cbn [length]. lia. }
  rewrite Hn, Uint_app_zeros. reflexivity.
Qed.

Lemma ReadUintN_PutUint (width : nat) (val : Z) (rest : list byte) :
  width <> 0%nat ->
  ReadUintN width (PutUint width val ++ rest) =
    Ok (val mod 2 ^ (8 * Z.of_nat width), rest).
Proof.
  intros Hw. rewrite ReadUintN_available; [| |exact Hw].
  - pose proof (PutUint_length width val) as Hl.
    rewrite <- Hl at 1. rewrite firstn_app, firstn_all, Nat.sub_diag, firstn_O, app_nil_r.
    rewrite <- Hl at 2. rewrite skipn_app, skipn_all, Nat.sub_diag, skipn_O.
    rewrite Uint_PutUint. reflexivity.
  - destruct width; [congruence|]. discriminate.
Qed.

(** X1.  What WriteUint8, WriteUint16, WriteUint32 and WriteUint64 append
    to a buffer is 1, 2, 4 and 8 bytes long, and ReadUint8, ReadUint16,
    ReadUint32 and ReadUint64 read the value back from those bytes and
    leave what follows them. *)
Theorem WriteUint_ReadUint_round_trip (w : Writer) (val : Z) (rest : list byte) :
  (0 <= val < 2 ^ 8 ->
     exists out, WriteUint8 w val = Ok (w ++ out) /\ length out = 1%nat /\
                 ReadUint8 (out ++ rest) = Ok (val, rest)) /\
  (0 <= val < 2 ^ 16 ->
     exists out, WriteUint16 w val = Ok (w ++ out) /\ length out = 2%nat /\
                 ReadUint16 (out ++ rest) = Ok (val, rest)) /\
  (0 <= val < 2 ^ 32 ->
     exists out, WriteUint32 w val = Ok (w ++ out) /\ length out = 4%nat /\
                 ReadUint32 (out ++ rest) = Ok (val, rest)) /\
  (0 <= val < 2 ^ 64 ->
     exists out, WriteUint64 w val = Ok (w ++ out) /\ length out = 8%nat /\
                 ReadUint64 (out ++ rest) = Ok (val, rest)).
Proof.
  assert (H : forall width : nat, width <> 0%nat ->
            0 <= val < 2 ^ (8 * Z.of_nat width) ->
            length (PutUint width val) = width /\
            ReadUintN width (PutUint width val ++ rest) = Ok (val, rest)).
  { intros width Hw Hv. split; [apply PutUint_length|].
    rewrite ReadUintN_PutUint by exact Hw. rewrite Z.mod_small by exact Hv.
    reflexivity. }
  split; [|split; [|split]]; intros Hv.
  - exists (PutUint 1 val). split; [reflexivity|]. apply (H 1%nat); [discriminate | exact Hv].
  - exists (PutUint 2 val). split; [reflexivity|]. apply (H 2%nat); [discriminate | exact Hv].
  - exists (PutUint 4 val). split; [reflexivity|]. apply (H 4%nat); [discriminate | exact Hv].
  - exists (PutUint 8 val). split; [reflexivity|]. apply (H 8%nat); [discriminate | exact Hv].
Qed.

Lemma WriteUint_ReadUint_round_trip_witness :
  0 <= 513 < 2 ^ 16 /\
  exists out, WriteUint16 [x07] 513 = Ok ([x07] ++ out) /\ length out = 2%nat /\
              ReadUint16 (out ++ [x09]) = Ok (513, [x09]).
Proof.
  assert (Hv : 0 <= 513 < 2 ^ 16) by lia.
  split; [exact Hv|].
  exact (proj1 (proj2 (WriteUint_ReadUint_round_trip [x07] 513 [x09])) Hv).
Defined.

(** X2.  ReadUint16, ReadUint32 and ReadUint64 on a reader that holds at
    least one byte but no more than the width asked for do not fail: they
    return the little-endian value of the bytes there are, as if zero
    bytes followed them, and leave the reader empty. *)
Theorem ReadUint_short_input_zero_extended (p : list byte) :
  p <> [] ->
  ((length p <= 2)%nat -> ReadUint16 p = Ok (Uint p, [])) /\
  ((length p <= 4)%nat -> ReadUint32 p = Ok (Uint p, [])) /\
  ((length p <= 8)%nat -> ReadUint64 p = Ok (Uint p, [])).
Proof.
  intros Hp.
  assert (H : forall width : nat, width <> 0%nat -> (length p <= width)%nat ->
            ReadUintN width p = Ok (Uint p, [])).
  { intros width Hw Hl. rewrite ReadUintN_available by assumption.
    rewrite firstn_all2, skipn_all2 by exact Hl. reflexivity. }
  split; [|split]; intros Hl.
  - apply (H 2%nat); [discriminate | exact Hl].
  - apply (H 4%nat); [discriminate | exact Hl].
  - apply (H 8%nat); [discriminate | exact Hl].
Qed.

Lemma ReadUint_short_input_zero_extended_witness :
  [x2c; x01; x05] <> [] /\ (length [x2c; x01; x05] <= 4)%nat /\
  ReadUint32 [x2c; x01; x05] = Ok (Uint [x2c; x01; x05], []).
Proof.
  assert (Hp : [x2c; x01; x05] <> @nil byte) by discriminate.
  assert (Hl : (length [x2c; x01; x05] <= 4)%nat) by (cbn; lia).
  split; [exact Hp|]. split; [exact Hl|].
  exact (proj1 (proj2 (ReadUint_short_input_zero_extended _ Hp)) Hl).
Defined.

(** X3.  ReadVarUint does not notice a multi-byte form that is cut
    short: after the prefix 0xFD, 0xFE or 0xFF, when the reader holds at
    least one byte but no more than the two, four or eight the form
    takes, it returns without error the little-endian value of the bytes
    there are; only when nothing at all follows the prefix does it pass on
    the reader's io.EOF. *)
Theorem ReadVarUint_truncated_payload (pre : byte) (n : nat) (p : list byte) :
  (pre = xfd /\ n = 2%nat) \/ (pre = xfe /\ n = 4%nat) \/ (pre = xff /\ n = 8%nat) ->
  (p <> [] -> (length p <= n)%nat -> ReadVarUint (pre :: p) 0 = Ok (Uint p, [])) /\
  (forall maxint, ReadVarUint [pre] maxint = Err io_EOF).
Proof.
  intros Hpre. split.
  - intros Hp Hl.
    assert (Hr : 0 <= Uint p < 2 ^ 64).
    { pose proof (Uint_range p) as Hr.
      assert (2 ^ (8 * Z.of_nat (length p)) <= 2 ^ 64).
      { apply pow2_le_mono. destruct Hpre as [[_ ->]|[[_ ->]|[_ ->]]]; lia. }
      lia. }
    assert (Hcmp : (Uint p >? MaxUint64) = false) by (unfold MaxUint64; lia).
    unfold ReadVarUint. rewrite Read_one. cbn [hd].
    destruct Hpre as [[-> ->]|[[-> ->]|[-> ->]]];
      repeat match goal with
      | |- context [byte_eqb ?a ?b] =>
          let c := eval vm_compute in (byte_eqb a b) in
          change (byte_eqb a b) with c
      end;
      cbv iota;
      rewrite Read_zeroed by exact Hp;
      cbn [bind fst];
      rewrite Uint_app_zeros, firstn_all2, skipn_all2 by exact Hl;
      change (0 =? 0) with true; cbv iota;
      rewrite Hcmp; reflexivity.
  - intros maxint. destruct Hpre as [[-> _]|[[-> _]|[-> _]]]; reflexivity.
Qed.

Lemma ReadVarUint_truncated_payload_witness :
  [x2c] <> [] /\ (length [x2c] <= 4)%nat /\
  ReadVarUint [xfe; x2c] 0 = Ok (Uint [x2c], []).
Proof.
  assert (Hp : [x2c] <> @nil byte) by discriminate.
  assert (Hl : (length [x2c] <= 4)%nat) by (cbn; lia).
  split; [exact Hp|]. split; [exact Hl|].
  exact (proj1 (ReadVarUint_truncated_payload xfe 4 [x2c]
                  (or_intror (or_introl (conj eq_refl eq_refl)))) Hp Hl).
Defined.

(** X4.  ReadBytes on a reader that has at least one byte left does not
    fail for a length up to the largest allocation, 2^48 bytes: its
    result has exactly that length, the bytes the reader had followed by
    zero bytes when the reader had fewer; every length above the largest
    allocation makes it panic, whatever the reader holds. *)
Theorem ReadBytes_pads_with_zeros (reader : Reader) (len : Z) :
  (0 <= len <= maxAlloc -> reader <> [] ->
     ReadBytes reader len =
       Ok (firstn (Z.to_nat len) reader ++
             repeat x00 (Z.to_nat len - length reader),
           skipn (Z.to_nat len) reader) /\
     length (firstn (Z.to_nat len) reader ++
               repeat x00 (Z.to_nat len - length reader)) = Z.to_nat len) /\
  (maxAlloc < len -> ReadBytes reader len = Panic).
Proof.
  split.
  - intros Hl Hr. split.
    + unfold ReadBytes, byteXReader.
      destruct (len >? maxAlloc) eqn:E; [lia|].
      rewrite Read_zeroed by exact Hr.
      destruct (0 <? Nat.min (Z.to_nat len) (length reader))%nat; reflexivity.
    + rewrite length_app, length_firstn, repeat_length. lia.
  - intros Hl. unfold ReadBytes, byteXReader.
    destruct (len >? maxAlloc) eqn:E; [reflexivity | lia].
Qed.

Lemma ReadBytes_pads_with_zeros_witness :
  0 <= 4 <= maxAlloc /\ [x01; x02] <> [] /\
  ReadBytes [x01; x02] 4 = Ok ([x01; x02; x00; x00], []).
Proof.
  assert (Hl : 0 <= 4 <= maxAlloc) by (unfold maxAlloc; lia).
  assert (Hr : [x01; x02] <> @nil byte) by discriminate.
  split; [exact Hl|]. split; [exact Hr|].
  exact (proj1 (proj1 (ReadBytes_pads_with_zeros [x01; x02] 4) Hl Hr)).
Defined.

(** X5.  WriteVarBytes and WriteVarString append the same bytes, the
    length as a VarUint and then the value; ReadVarBytes and ReadVarString
    read the value back from them and leave what follows, when the value
    is not empty or more input follows; an empty value at the very end of
    the input is not read back: both fail with io.EOF. *)
Theorem VarBytes_VarString_round_trip (w : Writer) (value rest : list byte) :
  Z.of_nat (length value) <= maxAlloc ->
  exists out,
    WriteVarBytes w value = Ok (w ++ out) /\
    WriteVarString w value = Ok (w ++ out) /\
    (value <> [] \/ rest <> [] ->
       ReadVarBytes (out ++ rest) = Ok (value, rest) /\
       ReadVarString (out ++ rest) = Ok (value, rest)) /\
    (value = [] ->
       ReadVarBytes out = Err io_EOF /\ ReadVarString out = Err io_EOF).
Proof.
  intros Hl. exists (VarBytes_form value).
  pose proof (WriteVarBytes_form w value Hl) as HW.
  split; [exact HW|]. split; [|split].
  - unfold WriteVarString. unfold WriteVarBytes in HW.
    destruct (WriteVarUint w (Z.of_nat (length value))) as [w1| |];
      cbn [bind] in *; try discriminate.
    rewrite HW. reflexivity.
  - intros Hne. pose proof (ReadVarBytes_form value rest Hl Hne) as HR.
    split; [exact HR|]. unfold ReadVarString. rewrite HR. reflexivity.
  - intros ->. split; [reflexivity|]. reflexivity.
Qed.

Lemma VarBytes_VarString_round_trip_witness :
  Z.of_nat (length [x61; x62]) <= maxAlloc /\
  exists out,
    WriteVarString [] [x61; x62] = Ok ([] ++ out) /\
    ReadVarString (out ++ [x09]) = Ok ([x61; x62], [x09]).
Proof.
  assert (Hl : Z.of_nat (length [x61; x62]) <= maxAlloc) by (unfold maxAlloc; cbn; lia).
  split; [exact Hl|].
  assert (Hne : [x61; x62] <> @nil byte \/ [x09] <> @nil byte) by (left; discriminate).
  destruct (VarBytes_VarString_round_trip [] [x61; x62] [x09] Hl)
    as (out & _ & HW & HR & _).
  exists out. split; [exact HW | exact (proj2 (HR Hne))].
Defined.

(** X6.  A length prefix above the largest allocation makes
    ReadVarBytes and ReadVarString panic: the nine bytes 0xFF and a
    64-bit length above 2^48, whatever follows them. *)
Theorem ReadVarBytes_panics_on_huge_length (v : Z) (rest : list byte) :
  maxAlloc < v < 2 ^ 64 ->
  ReadVarBytes (xff :: PutUint 8 v ++ rest) = Panic /\
  ReadVarString (xff :: PutUint 8 v ++ rest) = Panic.
Proof.
  intros Hv.
  assert (HR : ReadVarBytes (xff :: PutUint 8 v ++ rest) = Panic).
  { unfold ReadVarBytes.
    rewrite (ReadVarUint_prefixed xff 8 v 0 rest);
      [| tauto | unfold maxAlloc in Hv; cbn; lia | left; reflexivity].
    cbn [bind]. unfold byteXReader.
    destruct (v >? maxAlloc) eqn:E; [reflexivity | lia]. }
  split; [exact HR|]. unfold ReadVarString. rewrite HR. reflexivity.
Qed.

Lemma ReadVarBytes_panics_on_huge_length_witness :
  maxAlloc < 2 ^ 62 < 2 ^ 64 /\
  ReadVarBytes (xff :: PutUint 8 (2 ^ 62) ++ [x01]) = Panic.
Proof.
  assert (Hv : maxAlloc < 2 ^ 62 < 2 ^ 64) by (unfold maxAlloc; lia).
  split; [exact Hv|].
  exact (proj1 (ReadVarBytes_panics_on_huge_length (2 ^ 62) [x01] Hv)).
Defined.

(** ** Package serialization: WriteElements and ReadElements *)

Lemma WriteUint256s_concat (w : Writer) (l : list Uint256) :
  WriteUint256s w l = Ok (w ++ concat l).
Proof.
  revert w. induction l as [|u l IH]; intros w.
  - cbn [WriteUint256s concat]. rewrite app_nil_r. reflexivity.
  - cbn [WriteUint256s concat]. unfold Uint256_Serialize, Write. cbn [bind].
    rewrite IH, <- app_assoc. reflexivity.
Qed.

Lemma ReadUint256s_concat (l : list Uint256) (rest : list byte) :
  Forall (fun u => length u = 32%nat) l ->
  ReadUint256s (concat l ++ rest) (length l) = Ok (l, rest).
Proof.
  induction 1 as [|u l Hu Hl IH]; [reflexivity|].
  cbn [ReadUint256s concat length]. unfold Uint256_Deserialize.
  rewrite <- app_assoc, <- Hu, ReadFull_app. cbn [bind].
  rewrite IH. reflexivity.
Qed.

Lemma binary_Read_PutUint (width : nat) (v : Z) (rest : list byte) :
  0 <= v < 2 ^ (8 * Z.of_nat width) ->
  binary_Read (PutUint width v ++ rest) width = Ok (v, rest).
Proof.
  intros Hv. unfold binary_Read.
  pose proof (ReadFull_app (PutUint width v) rest) as HR.
  rewrite PutUint_length in HR. rewrite HR. cbn [bind].
  rewrite Uint_PutUint, Z.mod_small by exact Hv. reflexivity.
Qed.

Lemma element_round_trip (e : element) (rest : list byte) :
  element_wf e -> is_empty_bytes e = false \/ rest <> [] ->
  exists out,
    (forall w, WriteElement w e = Ok (w ++ out)) /\
    ReadElement (out ++ rest) (target_of e) = Ok (e, rest).
Proof.
  intros Hwf Hne. destruct e as [u | l | l | b | v | v | v];
    cbn [element_wf target_of WriteElement ReadElement] in *.
  - exists u. split; [reflexivity|].
    unfold Uint256_Deserialize. rewrite <- Hwf, ReadFull_app. reflexivity.
  - exists (concat l). split; [intros w; apply WriteUint256s_concat|].
    rewrite ReadUint256s_concat by exact Hwf. reflexivity.
  - exists (concat l). split; [intros w; apply WriteUint256s_concat|].
    rewrite ReadUint256s_concat by exact Hwf. reflexivity.
  - exists (VarBytes_form b). split; [intros w; apply WriteVarBytes_form; exact Hwf|].
    rewrite ReadVarBytes_form; [reflexivity | exact Hwf |].
    destruct Hne as [Hne | Hne]; [|right; exact Hne].
    left. destruct b; [discriminate Hne | discriminate].
  - exists (PutUint 1 v). split; [reflexivity|].
    rewrite binary_Read_PutUint by exact Hwf. reflexivity.
  - exists (PutUint 2 v). split; [reflexivity|].
    rewrite binary_Read_PutUint by exact Hwf. reflexivity.
  - exists (PutUint 4 v). split; [reflexivity|].
    rewrite binary_Read_PutUint by exact Hwf. reflexivity.
Qed.

(** X7.  What WriteElements appends for a list of values, ReadElements
    reads back, value for value, into pointers of the same types, and
    leaves what follows; every value, that is, but an empty byte slice
    with which the input ends. *)
Theorem WriteElements_ReadElements_round_trip
    (es : list element) (w : Writer) (rest : list byte) :
  Forall element_wf es ->
  existsb is_empty_bytes es = false \/ rest <> [] ->
  exists out,
    WriteElements w es = Ok (w ++ out) /\
    ReadElements (out ++ rest) (map target_of es) = Ok (es, rest).
Proof.
  intros Hwf. revert w. induction Hwf as [|e es He Hes IH]; intros w Hne.
  - exists []. cbn [WriteElements ReadElements map]. rewrite app_nil_r. auto.
  - assert (Hne' : existsb is_empty_bytes es = false \/ rest <> []).
    { destruct Hne as [Hne | Hne]; [left | right; exact Hne].
      cbn [existsb] in Hne. apply orb_false_iff in Hne. apply Hne. }
    destruct (element_round_trip e rest He) as (oe & HWe & HRe0).
    { destruct Hne as [Hne | Hne]; [left | right; exact Hne].
      cbn [existsb] in Hne. apply orb_false_iff in Hne. apply Hne. }
    destruct (IH (w ++ oe) Hne') as (oes & HWes & HRes).
    exists (oe ++ oes). cbn [WriteElements ReadElements map].
    rewrite HWe. cbn [bind]. rewrite HWes, <- !app_assoc. split; [reflexivity|].
    destruct (element_round_trip e (oes ++ rest) He) as (oe' & HWe' & HRe).
    { destruct Hne as [Hne | Hne].
      - left. cbn [existsb] in Hne. apply orb_false_iff in Hne. apply Hne.
      - right. destruct oes; [exact Hne | discriminate]. }
    assert (oe' = oe).
    { pose proof (HWe []) as H1. pose proof (HWe' []) as H2.
      rewrite H1 in H2. injection H2 as H2. cbn [app] in H2. congruence. }
    subst oe'. rewrite HRe. cbn [bind]. rewrite HRes. reflexivity.
Qed.

Lemma WriteElements_ReadElements_round_trip_witness :
  Forall element_wf [E_uint32 7; E_Uint256ptrs [repeat x01 32]; E_bytes [x05]] /\
  exists out,
    WriteElements [] [E_uint32 7; E_Uint256ptrs [repeat x01 32]; E_bytes [x05]] =
      Ok ([] ++ out) /\
    ReadElements (out ++ []) [T_uint32; T_Uint256ptrs 1; T_bytes] =
      Ok ([E_uint32 7; E_Uint256ptrs [repeat x01 32]; E_bytes [x05]], []).
Proof.
  assert (Hwf : Forall element_wf
                  [E_uint32 7; E_Uint256ptrs [repeat x01 32]; E_bytes [x05]]).
  { repeat constructor; cbn; unfold maxAlloc; lia. }
  assert (Hne : existsb is_empty_bytes
                  [E_uint32 7; E_Uint256ptrs [repeat x01 32]; E_bytes [x05]] = false \/
                @nil byte <> []) by (left; reflexivity).
  split; [exact Hwf|].
  exact (WriteElements_ReadElements_round_trip _ [] [] Hwf Hne).
Defined.

(** X8.  The wire form of a VarUint decodes in one way only: when what
    WriteVarUint writes for two values, each followed by any bytes, is the
    same byte sequence, the values are the same and so are the bytes that
    follow; no value's form is the beginning of another's. *)
Theorem VarUint_uniquely_decodable (v1 v2 : Z) (o1 o2 r1 r2 : list byte) :
  0 <= v1 < 2 ^ 64 -> 0 <= v2 < 2 ^ 64 ->
  WriteVarUint [] v1 = Ok o1 -> WriteVarUint [] v2 = Ok o2 ->
  o1 ++ r1 = o2 ++ r2 ->
  v1 = v2 /\ r1 = r2.
Proof.
  intros H1 H2 W1 W2 E.
  rewrite WriteVarUint_form in W1, W2 by assumption.
  injection W1 as <-. injection W2 as <-. cbn [app] in E.
  pose proof (ReadVarUint_form v1 r1 H1) as R1.
  pose proof (ReadVarUint_form v2 r2 H2) as R2.
  rewrite E, R2 in R1. injection R1 as -> ->. auto.
Qed.

Lemma VarUint_uniquely_decodable_witness :
  0 <= 300 < 2 ^ 64 /\
  WriteVarUint [] 300 = Ok [xfd; x2c; x01] /\
  [xfd; x2c; x01] ++ [x07] = [xfd; x2c; x01] ++ [x07] /\
  300 = 300 /\ [x07] = [x07].
Proof.
  assert (Hv : 0 <= 300 < 2 ^ 64) by lia.
  assert (HW : WriteVarUint [] 300 = Ok [xfd; x2c; x01]) by reflexivity.
  assert (HE : [xfd; x2c; x01] ++ [x07] = [xfd; x2c; x01] ++ [x07]) by reflexivity.
  split; [exact Hv|]. split; [exact HW|]. split; [exact HE|].
  exact (VarUint_uniquely_decodable 300 300 _ _ [x07] [x07] Hv Hv HW HW HE).
Defined.

(** ** Package msg: a message built and parsed *)

(** Deserialize looks at the first 24 bytes of its buffer only. *)
Lemma Deserialize_prefix (hdr body : list byte) :
  length hdr = Header.HEADERLEN ->
  Header.Deserialize (hdr ++ body) = Header.Deserialize hdr.
Proof.
  intros Hl. unfold Header.Deserialize.
  unfold Header.HEADERLEN, Header.CMDLEN, Header.CMDOFFSET, Header.CHECKSUMLEN in *.
  assert (H1 : (length (hdr ++ body) <? 4 + 12)%nat = false)
    by (apply Nat.ltb_ge; rewrite length_app; lia).
  assert (H2 : (length hdr <? 4 + 12)%nat = false) by (apply Nat.ltb_ge; lia).
  assert (H3 : (length (hdr ++ body) <? 24)%nat = false)
    by (apply Nat.ltb_ge; rewrite length_app; lia).
  assert (H4 : (length hdr <? 24)%nat = false) by (apply Nat.ltb_ge; lia).
  rewrite H1, H2, H3, H4.
  assert (Hc : firstn 12 (skipn 4 (hdr ++ body)) = firstn 12 (skipn 4 hdr)).
  { rewrite skipn_app, firstn_app, length_skipn.
    replace (4 - length hdr)%nat with 0%nat by lia.
    replace (12 - (length hdr - 4))%nat with 0%nat by lia.
    rewrite firstn_O, app_nil_r. reflexivity. }
  rewrite Hc, (firstn_app_exact 24 hdr body Hl), (firstn_all2 (n:=24) hdr) by lia.
  reflexivity.
Qed.

Lemma IndexByte_app_zero (cmd : list byte) (k : nat) :
  ~ In x00 cmd -> IndexByte (cmd ++ repeat x00 (S k)) x00 = Z.of_nat (length cmd).
Proof.
  induction cmd as [|x cmd IH]; intros Hno; [reflexivity|].
  cbn [app IndexByte length].
  assert (Hx : byte_eqb x x00 = false).
  { destruct (byte_eqb x x00) eqn:E; [|reflexivity].
    unfold byte_eqb in E. apply Byte.byte_dec_bl in E. subst x.
    exfalso. apply Hno. left. reflexivity. }
  rewrite Hx, IH by (intros Hin; apply Hno; right; exact Hin).
  destruct (Z.of_nat (length cmd) <? 0) eqn:E; lia.
Qed.

Section BuiltMessage.

Variable config_Magic : Z.
Variable Sha256D : list byte -> list byte.

Lemma BuildHeader_made (cmd body : list byte) :
  (length cmd <= Header.CMDLEN)%nat ->
  (Header.CHECKSUMLEN <= length (Sha256D body))%nat ->
  Header.BuildHeader config_Magic Sha256D cmd body =
    Ok (Header.mkHeader config_Magic
          (cmd ++ repeat x00 (Header.CMDLEN - length cmd))
          (Z.of_nat (length body) mod 2 ^ 32)
          (firstn Header.CHECKSUMLEN (Sha256D body))).
Proof.
  intros Hc Hs. unfold Header.BuildHeader, Header.NewHeader.
  assert (H1 : (Header.CMDLEN <? length cmd)%nat = false) by (apply Nat.ltb_ge; lia).
  assert (H2 : (length (Sha256D body) <? Header.CHECKSUMLEN)%nat = false)
    by (apply Nat.ltb_ge; lia).
  rewrite H1, H2. unfold Header.copy_into.
  rewrite (firstn_all2 cmd) by exact Hc.
  rewrite firstn_firstn, Nat.min_id, length_firstn.
  rewrite Nat.min_l by exact Hs. rewrite Nat.sub_diag. cbn [repeat].
  rewrite app_nil_r. reflexivity.
Qed.

(** X9.  A message that BuildMessage makes for a command shorter than
    twelve bytes is 24 bytes and the body; Deserialize reads from it a
    header whose length field is the length of the body modulo 2^32 and
    which Verify accepts for the body, and GetCMD gives back the command
    when it has no NUL byte. *)
Theorem BuildMessage_parses_back (cmd body : list byte) :
  0 <= config_Magic < 2 ^ 32 ->
  (length cmd < Header.CMDLEN)%nat ->
  (Header.CHECKSUMLEN <= length (Sha256D body))%nat ->
  exists hdr h,
    Header.BuildMessage config_Magic Sha256D cmd body = Ok (hdr ++ body) /\
    length hdr = Header.HEADERLEN /\
    Header.Deserialize (hdr ++ body) = Ok h /\
    Header.Length h = Z.of_nat (length body) mod 2 ^ 32 /\
    Header.Verify config_Magic Sha256D h body = Ok tt /\
    (~ In x00 cmd -> Header.GetCMD h = Ok cmd).
Proof.
  intros Hm Hc Hs.
  set (h := Header.mkHeader config_Magic
              (cmd ++ repeat x00 (Header.CMDLEN - length cmd))
              (Z.of_nat (length body) mod 2 ^ 32)
              (firstn Header.CHECKSUMLEN (Sha256D body))).
  assert (HB : Header.BuildHeader config_Magic Sha256D cmd body = Ok h)
    by (apply BuildHeader_made; [lia | exact Hs]).
  assert (Hpad : exists k, (Header.CMDLEN - length cmd)%nat = S k).
  { exists (Header.CMDLEN - length cmd - 1)%nat. lia. }
  destruct Hpad as [k Hk].
  assert (Hwf : Header.wf h).
  { unfold Header.wf, h. cbn [Header.Magic Header.CMD Header.Length Header.Checksum].
    split; [exact Hm|]. split; [|split].
    - rewrite length_app, repeat_length. lia.
    - apply Z.mod_pos_bound. lia.
    - rewrite length_firstn. lia. }
  assert (Hnul : In x00 (Header.CMD h)).
  { unfold h. cbn [Header.CMD]. rewrite Hk. apply in_or_app. right. left. reflexivity. }
  destruct (Header_round_trip h Hwf Hnul) as (out & HS & HD).
  assert (Hout : length out = Header.HEADERLEN).
  { unfold Header.Serialize in HS.
    assert (E : out = PutUint 4 (Header.Magic h) ++ Header.CMD h ++
                      PutUint 4 (Header.Length h) ++ Header.Checksum h) by congruence.
    rewrite E. destruct Hwf as (_ & Hcl & _ & Hsl).
    rewrite !length_app, !PutUint_length, Hcl, Hsl. reflexivity. }
  exists out, h. split; [|split; [exact Hout|split; [|split; [reflexivity|split]]]].
  - unfold Header.BuildMessage. rewrite HB. cbn [bind]. rewrite HS. reflexivity.
  - rewrite Deserialize_prefix by exact Hout. exact HD.
  - unfold Header.Verify, h. cbn [Header.Magic Header.Checksum].
    rewrite Z.eqb_refl, bytes_Equal_refl. reflexivity.
  - intros Hno. unfold Header.GetCMD, h. cbn [Header.CMD]. rewrite Hk.
    rewrite IndexByte_app_zero by exact Hno.
    destruct (Z.of_nat (length cmd) <? 0) eqn:E; [lia|].
    rewrite Nat2Z.id, firstn_app_exact by reflexivity. reflexivity.
Qed.

(** X10.  A command of exactly twelve bytes, none of them NUL, fills the
    command field: BuildMessage makes the message, and Deserialize
    rejects it with "Unexpected length of CMD"; a command of more than
    twelve bytes makes BuildMessage panic. *)
Theorem BuildMessage_full_command_not_parsed (cmd body : list byte) :
  (Header.CHECKSUMLEN <= length (Sha256D body))%nat ->
  (length cmd = Header.CMDLEN -> ~ In x00 cmd ->
     exists hdr,
       Header.BuildMessage config_Magic Sha256D cmd body = Ok (hdr ++ body) /\
       length hdr = Header.HEADERLEN /\
       Header.Deserialize (hdr ++ body) =
         Err (errors_New "Unexpected length of CMD")) /\
  ((Header.CMDLEN < length cmd)%nat ->
     Header.BuildMessage config_Magic Sha256D cmd body = Panic).
Proof.
  intros Hs. split.
  - intros Hc Hno.
    pose proof (BuildHeader_made cmd body ltac:(lia) Hs) as HB.
    rewrite Hc, Nat.sub_diag in HB. cbn [repeat] in HB. rewrite app_nil_r in HB.
    set (hdr := PutUint 4 config_Magic ++ cmd ++
                PutUint 4 (Z.of_nat (length body) mod 2 ^ 32) ++
                firstn Header.CHECKSUMLEN (Sha256D body)).
    assert (Hl : length hdr = Header.HEADERLEN).
    { unfold hdr. rewrite !length_app, !PutUint_length, Hc, length_firstn.
      rewrite Nat.min_l by exact Hs. reflexivity. }
    exists hdr. split; [|split; [exact Hl|]].
    + unfold Header.BuildMessage. rewrite HB. reflexivity.
    + rewrite Deserialize_prefix by exact Hl.
      unfold Header.Deserialize. rewrite Hl.
      assert (Hcmd : firstn Header.CMDLEN (skipn Header.CMDOFFSET hdr) = cmd).
      { unfold hdr. rewrite (skipn_app_exact Header.CMDOFFSET) by apply PutUint_length.
        apply firstn_app_exact. exact Hc. }
      rewrite Hcmd.
      change (Header.HEADERLEN <? Header.CMDOFFSET + Header.CMDLEN)%nat with false.
      cbv iota. apply IndexByte_absent in Hno.
      destruct (IndexByte cmd x00 <? 0) eqn:E; [reflexivity | lia].
  - intros Hc. unfold Header.BuildMessage, Header.BuildHeader, Header.NewHeader.
    assert (H1 : (Header.CMDLEN <? length cmd)%nat = true) by (apply Nat.ltb_lt; lia).
    rewrite H1. reflexivity.
Qed.

End BuiltMessage.

Lemma BuildMessage_parses_back_witness :
  exists hdr h,
    Header.BuildMessage 7 Sha256.Sha256D ("p" :: "i" :: "n" :: "g" :: nil)%byte [x01] =
      Ok (hdr ++ [x01]) /\
    Header.Deserialize (hdr ++ [x01]) = Ok h /\
    Header.Verify 7 Sha256.Sha256D h [x01] = Ok tt /\
    Header.GetCMD h = Ok ("p" :: "i" :: "n" :: "g" :: nil)%byte.
Proof.
  assert (Hm : 0 <= 7 < 2 ^ 32) by lia.
  assert (Hc : (length ("p" :: "i" :: "n" :: "g" :: nil)%byte < Header.CMDLEN)%nat)
    by (unfold Header.CMDLEN; cbn; lia).
  assert (Hs : (Header.CHECKSUMLEN <= length (Sha256.Sha256D [x01]))%nat)
    by (vm_compute; lia).
  assert (Hno : ~ In x00 ("p" :: "i" :: "n" :: "g" :: nil)%byte).
  { cbn. intros H. repeat (destruct H as [H | H]; [discriminate H|]). exact H. }
  destruct (BuildMessage_parses_back 7 Sha256.Sha256D _ [x01] Hm Hc Hs)
    as (hdr & h & HB & _ & HD & _ & HV & HG).
  exists hdr, h. split; [exact HB|]. split; [exact HD|]. split; [exact HV|].
  exact (HG Hno).
Defined.

Lemma BuildMessage_full_command_not_parsed_witness :
  exists hdr,
    Header.BuildMessage 7 Sha256.Sha256D (repeat x61 12) [x01] = Ok (hdr ++ [x01]) /\
    Header.Deserialize (hdr ++ [x01]) = Err (errors_New "Unexpected length of CMD").
Proof.
  assert (Hs : (Header.CHECKSUMLEN <= length (Sha256.Sha256D [x01]))%nat)
    by (vm_compute; lia).
  assert (Hc : length (repeat x61 12) = Header.CMDLEN) by reflexivity.
  assert (Hno : ~ In x00 (repeat x61 12)).
  { cbn. intros H. repeat (destruct H as [H | H]; [discriminate H|]). exact H. }
  destruct (proj1 (BuildMessage_full_command_not_parsed 7 Sha256.Sha256D
                     (repeat x61 12) [x01] Hs) Hc Hno) as (hdr & HB & _ & HD).
  exists hdr. split; [exact HB | exact HD].
Defined.

(** ** Package transaction: an OutPoint as bytes *)

Lemma ReadFull_enough (r : Reader) (n : nat) :
  (n <= length r)%nat -> ReadFull r n = Ok (firstn n r, skipn n r).
Proof.
  intros Hn. unfold ReadFull. destruct n as [|n]; [reflexivity|].
  destruct r as [|b r]; [cbn [length] in Hn; lia|].
  assert (E : (S n <=? length (b :: r))%nat = true) by (apply Nat.leb_le; exact Hn).
  rewrite E. reflexivity.
Qed.

Lemma ReadFull_short (r : Reader) (n : nat) :
  (length r < n)%nat -> exists e, ReadFull r n = Err e.
Proof.
  intros Hn. unfold ReadFull. destruct n as [|n]; [lia|].
  destruct r as [|b r]; [eexists; reflexivity|].
  assert (E : (S n <=? length (b :: r))%nat = false) by (apply Nat.leb_gt; exact Hn).
  rewrite E. eexists. reflexivity.
Qed.

Lemma OutPoint_Bytes_form (op : OutPoint.OutPoint) :
  OutPoint.Bytes op = OutPoint.TxID op ++ PutUint 2 (OutPoint.Index op).
Proof. reflexivity. Qed.

(** X11.  The bytes of a well-formed OutPoint are the 32 bytes of its
    transaction id and the index in two bytes, 34 in all;
    OutPointFromBytes gives the OutPoint back from them, whatever bytes
    follow, so two OutPoints with the same bytes are the same. *)
Theorem OutPointFromBytes_Bytes (op : OutPoint.OutPoint) :
  OutPoint.wf op ->
  length (OutPoint.Bytes op) = 34%nat /\
  (forall extra, OutPoint.OutPointFromBytes (OutPoint.Bytes op ++ extra) = Ok op) /\
  (forall op', OutPoint.wf op' -> OutPoint.Bytes op' = OutPoint.Bytes op -> op' = op).
Proof.
  intros Hwf.
  assert (Hback : forall o, OutPoint.wf o -> forall extra,
            OutPoint.OutPointFromBytes (OutPoint.Bytes o ++ extra) = Ok o).
  { intros o Ho extra. unfold OutPoint.OutPointFromBytes.
    rewrite OutPoint_Bytes_form.
    rewrite (proj2 (OutPoint_round_trip o _ extra Ho)). reflexivity. }
  split; [|split].
  - rewrite OutPoint_Bytes_form, length_app, PutUint_length.
    destruct Hwf as [-> _]. reflexivity.
  - apply Hback. exact Hwf.
  - intros op' Hwf' E.
    pose proof (Hback op' Hwf' []) as H1. pose proof (Hback op Hwf []) as H2.
    rewrite E, H2 in H1. congruence.
Qed.

Lemma OutPointFromBytes_Bytes_witness :
  OutPoint.wf (OutPoint.NewOutPoint (repeat x07 32) 513) /\
  OutPoint.OutPointFromBytes
    (OutPoint.Bytes (OutPoint.NewOutPoint (repeat x07 32) 513) ++ [x09]) =
    Ok (OutPoint.NewOutPoint (repeat x07 32) 513).
Proof.
  assert (Hwf : OutPoint.wf (OutPoint.NewOutPoint (repeat x07 32) 513)).
  { split; [reflexivity | cbn; lia]. }
  split; [exact Hwf|].
  exact (proj1 (proj2 (OutPointFromBytes_Bytes _ Hwf)) [x09]).
Defined.

(** X12.  OutPointFromBytes needs 34 bytes and looks at no more: on a
    value of 34 bytes or more it returns the OutPoint whose transaction
    id is the first 32 bytes and whose index is the little-endian value
    of the next two; on a shorter value it returns an error; it never
    panics. *)
Theorem OutPointFromBytes_needs_34_bytes (value : list byte) :
  ((34 <= length value)%nat ->
     OutPoint.OutPointFromBytes value =
       Ok (OutPoint.NewOutPoint (firstn 32 value)
                                (Uint (firstn 2 (skipn 32 value))))) /\
  ((length value < 34)%nat ->
     exists e, OutPoint.OutPointFromBytes value = Err e).
Proof.
  unfold OutPoint.OutPointFromBytes, OutPoint.Deserialize.
  cbn [ReadElements ReadElement]. unfold Uint256_Deserialize, binary_Read.
  split; intros Hl.
  - rewrite ReadFull_enough by lia. cbn [bind].
    rewrite ReadFull_enough by (rewrite length_skipn; lia). reflexivity.
  - destruct (Nat.lt_ge_cases (length value) 32) as [Hlt | Hge].
    + destruct (ReadFull_short value 32 Hlt) as [e He]. rewrite He.
      exists e. reflexivity.
    + rewrite ReadFull_enough by exact Hge. cbn [bind].
      destruct (ReadFull_short (skipn 32 value) 2) as [e He];
        [rewrite length_skipn; lia|].
      rewrite He. exists e. reflexivity.
Qed.

Lemma OutPointFromBytes_needs_34_bytes_witness :
  (length (repeat x01 33) < 34)%nat /\
  exists e, OutPoint.OutPointFromBytes (repeat x01 33) = Err e.
Proof.
  assert (Hl : (length (repeat x01 33) < 34)%nat) by (cbn; lia).
  split; [exact Hl|].
  exact (proj2 (OutPointFromBytes_needs_34_bytes (repeat x01 33)) Hl).
Defined.

(** ** Package bloom: the size of the tree *)

(** X13.  For a number of leaves from 1 to 2^31, treeDepth returns the
    least exponent [d] with [n <= 2^d], and nextPowerOfTwo that power
    [2^d], the least power of two that is not below [n]. *)
Theorem nextPowerOfTwo_least_power (n : Z) :
  0 < n <= 2 ^ 31 ->
  exists d,
    Merkle.treeDepth n = Some d /\ Merkle.nextPowerOfTwo n = Some (2 ^ d) /\
    0 <= d <= 31 /\ n <= 2 ^ d /\
    (forall e, 0 <= e -> n <= 2 ^ e -> d <= e).
Proof.
  intros Hn. destruct (nextPowerOfTwo_spec n Hn) as (d & Htd & Hnp & Hd & Hle & Hmin).
  exists d. repeat split; try assumption; try lia.
  intros e He Hne. destruct Hmin as [-> | Hmin]; [exact He|].
  destruct (Z_lt_le_dec e d) as [Hlt | Hge]; [|exact Hge].
  pose proof (pow2_le_mono e (d - 1) ltac:(lia)). lia.
Qed.

Lemma nextPowerOfTwo_least_power_witness :
  0 < 5 <= 2 ^ 31 /\
  exists d,
    Merkle.treeDepth 5 = Some d /\ Merkle.nextPowerOfTwo 5 = Some (2 ^ d) /\
    0 <= d <= 31 /\ 5 <= 2 ^ d /\
    (forall e, 0 <= e -> 5 <= 2 ^ e -> d <= e).
Proof.
  assert (Hn : 0 < 5 <= 2 ^ 31) by lia.
  split; [exact Hn|]. exact (nextPowerOfTwo_least_power 5 Hn).
Defined.

(** X14.  Above 2^31 leaves the loop of treeDepth never ends: whatever
    number of iterations it is given, it has not returned, since [1 << e]
    never reaches [n]; so nextPowerOfTwo and inDeadZone do not return
    either, and CheckMerkleBlock does not return for a block that has
    flag bytes and says it has more than 2^31 transactions. *)
Theorem treeDepth_never_returns_above_2_31 (n : Z) :
  2 ^ 31 < n ->
  (forall fuel, Merkle.treeDepth_loop fuel n 0 = None) /\
  Merkle.nextPowerOfTwo n = None /\
  (forall pos, Merkle.inDeadZone pos n = None) /\
  (forall Sha256D m,
     Merkle.Transactions m = n -> Merkle.Flags m <> [] ->
     Merkle.CheckMerkleBlock Sha256D m = Merkle.NoReturn).
Proof.
  intros Hn.
  assert (Hloop : forall fuel, Merkle.treeDepth_loop fuel n 0 = None).
  { intros fuel. apply treeDepth_diverges; [exact Hn | lia]. }
  assert (Hnp : Merkle.nextPowerOfTwo n = None).
  { unfold Merkle.nextPowerOfTwo, Merkle.treeDepth. rewrite Hloop. reflexivity. }
  split; [exact Hloop|]. split; [exact Hnp|]. split.
  - intros pos. unfold Merkle.inDeadZone. rewrite Hnp. reflexivity.
  - intros Sha256D m Ht Hf.
    unfold Merkle.CheckMerkleBlock, Merkle.CheckMerkleBlock_run.
    rewrite Ht, Hnp.
    destruct (n =? 0) eqn:E0; [lia|].
    destruct (Merkle.Flags m) as [|f fs]; [congruence|]. reflexivity.
Qed.

Lemma treeDepth_never_returns_above_2_31_witness :
  2 ^ 31 < 2 ^ 31 + 1 /\
  Merkle.CheckMerkleBlock Sha256.Sha256D
    (Merkle.mkMerkleBlock (repeat x00 32) (2 ^ 31 + 1) [] [x00]) = Merkle.NoReturn.
Proof.
  assert (Hn : 2 ^ 31 < 2 ^ 31 + 1) by lia.
  split; [exact Hn|].
  apply (proj2 (proj2 (proj2 (treeDepth_never_returns_above_2_31 _ Hn)))).
  - reflexivity.
  - discriminate.
Defined.

(** Every position up to the root is a node of some row. *)
Lemma position_covers (d : nat) (pos : Z) :
  0 <= pos <= 2 * pw d - 2 ->
  exists (l e : nat) (k : Z),
    (l + e = d)%nat /\ 0 <= k < pw e /\ pos = position l e k.
Proof.
  intros Hpos.
  assert (H : forall e : nat, (e <= d)%nat ->
            2 * pw d - 2 * pw e <= pos ->
            exists (l e' : nat) (k : Z),
              (l + e' = d)%nat /\ 0 <= k < pw e' /\ pos = position l e' k).
  { induction e as [|e IH]; intros He Hlo.
    - exists d, 0%nat, 0. rewrite pw_0 in *. split; [lia|]. split; [lia|].
      unfold position. rewrite Nat.add_0_r, pw_succ.
      change (pw (0 + 1)) with 2. lia.
    - pose proof (pw_pos e) as Hp. rewrite pw_S in Hlo.
      destruct (Z_lt_le_dec pos (2 * pw d - 2 * pw e)) as [Hlt | Hge].
      + exists (d - S e)%nat, (S e), (pos - (2 * pw d - 2 * pw (S e))).
        rewrite pw_S. split; [lia|]. split; [lia|].
        unfold position.
        replace (d - S e + S e + 1)%nat with (S d) by lia.
        replace (S e + 1)%nat with (S (S e)) by lia.
        rewrite !pw_S. lia.
      + apply IH; [lia | exact Hge]. }
  apply (H d); [lia | lia].
Qed.

Lemma inDeadZone_returns (size pos : Z) :
  0 < size <= 2 ^ 31 -> exists b, Merkle.inDeadZone pos size = Some b.
Proof.
  intros Hn.
  destruct (nextPowerOfTwo_spec size Hn) as (dz & _ & Hnp & Hdz & Hle & _).
  set (d := Z.to_nat dz).
  assert (Hpw : 2 ^ dz = pw d) by (unfold pw, d; rewrite Z2Nat.id by lia; reflexivity).
  rewrite Hpw in *.
  pose proof (pw_pos d) as Hp.
  assert (Hp31 : pw d <= 2 ^ 31) by (unfold pw; apply pow2_le_mono; lia).
  destruct (Z_lt_le_dec pos 0) as [Hneg | Hnn].
  - unfold Merkle.inDeadZone. rewrite Hnp.
    destruct (pos >? u32 (shl32 (pw d) 1 - 2)); [eexists; reflexivity|].
    cbn [Merkle.inDeadZone_loop]. rewrite geb_false by lia. eexists. reflexivity.
  - destruct (Z_le_gt_dec pos (2 * pw d - 2)) as [Hin | Hout].
    + destruct (position_covers d pos (conj Hnn Hin)) as (l & e & k & Hd & Hk & ->).
      subst d. rewrite <- Hd in *.
      rewrite (inDeadZone_position size l e k); [eexists; reflexivity | lia | lia | | lia].
      exact Hnp.
    + unfold Merkle.inDeadZone. rewrite Hnp.
      assert (Hroot : u32 (shl32 (pw d) 1 - 2) = 2 * pw d - 2).
      { unfold shl32, u32. rewrite Z.shiftl_mul_pow2 by lia. change (2 ^ 1) with 2.
        destruct (Z.eq_dec (pw d) (2 ^ 31)) as [E | E].
        - rewrite E. reflexivity.
        - rewrite (Z.mod_small (pw d * 2)) by lia.
          rewrite Z.mod_small by lia. lia. }
      rewrite Hroot. destruct (pos >? 2 * pw d - 2) eqn:E; [|lia].
      eexists. reflexivity.
Qed.

(** X15.  For a tree of 1 to 2^31 leaves inDeadZone returns for every
    position; it says dead for every position above the root, and for
    node [k] of the row [l] above the leaves exactly when the row is too
    short to hold that node, which is when [k * 2^l] is not below the
    number of leaves. *)
Theorem inDeadZone_marks_missing_nodes (size : Z) (d : nat) :
  0 < size <= 2 ^ 31 ->
  Merkle.treeDepth size = Some (Z.of_nat d) ->
  (forall pos, exists b, Merkle.inDeadZone pos size = Some b) /\
  (forall pos, 2 * pw d - 2 < pos -> Merkle.inDeadZone pos size = Some true) /\
  (forall (l e : nat) (k : Z),
     (l + e = d)%nat -> 0 <= k < pw e ->
     Merkle.inDeadZone (position l e k) size = Some (negb (k * pw l <? size))).
Proof.
  intros Hn Htd.
  destruct (nextPowerOfTwo_spec size Hn) as (dz & Htd' & Hnp & Hdz & Hle & _).
  rewrite Htd in Htd'. injection Htd' as <-. fold (pw d) in *.
  pose proof (pw_pos d) as Hp.
  assert (Hp31 : pw d <= 2 ^ 31) by (unfold pw; apply pow2_le_mono; lia).
  split; [|split].
  - intros pos. apply inDeadZone_returns. exact Hn.
  - intros pos Hpos. unfold Merkle.inDeadZone. rewrite Hnp.
    assert (Hroot : u32 (shl32 (pw d) 1 - 2) = 2 * pw d - 2).
    { unfold shl32, u32. rewrite Z.shiftl_mul_pow2 by lia. change (2 ^ 1) with 2.
      destruct (Z.eq_dec (pw d) (2 ^ 31)) as [E | E].
      - rewrite E. reflexivity.
      - rewrite (Z.mod_small (pw d * 2)) by lia.
        rewrite Z.mod_small by lia. lia. }
    rewrite Hroot. destruct (pos >? 2 * pw d - 2) eqn:E; [reflexivity | lia].
  - intros l e k Hd Hk. subst d.
    apply inDeadZone_position; [lia | lia | exact Hnp | exact Hk].
Qed.

Lemma inDeadZone_marks_missing_nodes_witness :
  0 < 5 <= 2 ^ 31 /\ Merkle.treeDepth 5 = Some (Z.of_nat 3) /\
  Merkle.inDeadZone (position 1 2 3) 5 = Some true /\
  Merkle.inDeadZone (position 1 2 2) 5 = Some false.
Proof.
  assert (Hn : 0 < 5 <= 2 ^ 31) by lia.
  assert (Htd : Merkle.treeDepth 5 = Some (Z.of_nat 3)) by reflexivity.
  assert (Hk3 : 0 <= 3 < pw 2) by (unfold pw; cbn; lia).
  assert (Hk2 : 0 <= 2 < pw 2) by (unfold pw; cbn; lia).
  destruct (inDeadZone_marks_missing_nodes 5 3 Hn Htd) as (_ & _ & H).
  split; [exact Hn|]. split; [exact Htd|]. split.
  - exact (H 1%nat 2%nat 3 eq_refl Hk3).
  - exact (H 1%nat 2%nat 2 eq_refl Hk2).
Defined.

(** ** CheckMerkleBlock: every call returns *)

Lemma subsequence_nil_l {A} (l : list A) : subsequence [] l.
Proof. induction l; constructor; assumption. Qed.

Lemma subsequence_refl {A} (l : list A) : subsequence l l.
Proof. induction l; constructor; assumption. Qed.

Lemma subsequence_app {A} (a b c d : list A) :
  subsequence a b -> subsequence c d -> subsequence (a ++ c) (b ++ d).
Proof.
  induction 1 as [|x l1 l2 H IH|x l1 l2 H IH]; intros Hcd; cbn [app].
  - exact Hcd.
  - apply subsequence_skip. exact (IH Hcd).
  - apply subsequence_take. exact (IH Hcd).
Qed.

Section EveryCallReturns.

Variable Sha256D : list byte -> list byte.
Variable root : Uint256.
Variables transactions msb : Z.

Let step := Merkle.step Sha256D root transactions msb.

Hypothesis inDeadZone_total :
  forall pos, exists b, Merkle.inDeadZone pos transactions = Some b.

(** An iteration that goes on leaves a node on the stack. *)
Lemma step_leaves_node (st st' : Merkle.state) :
  step st = Merkle.Continue st' -> Merkle.s st' <> [].
Proof.
  unfold step, Merkle.step, Merkle.new_node. cbv zeta.
  set (tip := Z.of_nat (length (Merkle.s st)) - 1).
  destruct (Merkle.complete (Merkle.s st)).
  { destruct (Merkle.node_at (Merkle.s st) 0) as [[p0 [h0|]]|];
      try no_step. destruct (Uint256_IsEqual h0 root); cbv iota; no_step. }
  assert (Hpush : forall s' r' pos' hs' fl,
            s' <> [] ->
            Merkle.s (Merkle.advance
                        (Merkle.mkState s' r' pos' (Merkle.i st) hs' fl)) <> []).
  { intros s' r' pos' hs' fl Hs'.
    rewrite (proj1 (advance_fields _)). exact Hs'. }
  assert (Hat : forall (s2 : list Merkle.merkleNode) k n,
            Merkle.node_at s2 k = Some n -> s2 <> []).
  { intros s2 k n Hn ->. apply node_at_Some in Hn. cbn [length] in Hn. lia. }
  destruct (Merkle.inDeadZone (Merkle.pos st) transactions) as [[|]|];
    [| |no_step].
  - destruct (Merkle.node_at (Merkle.s st) tip) as [ntip|]; [|no_step].
    destruct (Merkle.MakeMerkleParent Sha256D (Merkle.h ntip) None); try no_step.
    destruct (Merkle.node_at (Merkle.s st) (tip - 1)) as [n1|]; [|no_step].
    destruct (Merkle.node_at (firstn _ _) _) as [n2|] eqn:E2; [|no_step].
    intros H. injection H as <-. cbn [Merkle.s]. exact (Hat _ _ _ E2).
  - destruct (Merkle.combinable (Merkle.s st)).
    + destruct (Merkle.node_at (Merkle.s st) (tip - 1)) as [nl|]; [|no_step].
      destruct (Merkle.node_at (Merkle.s st) tip) as [nr|]; [|no_step].
      destruct (Merkle.MakeMerkleParent Sha256D _ _); try no_step.
      destruct (Merkle.node_at (firstn _ _) _) as [n2|] eqn:E2; [|no_step].
      intros H. injection H as <-. cbn [Merkle.s]. exact (Hat _ _ _ E2).
    + destruct (Merkle.mHashes st) as [|h0 hashes']; [no_step|].
      destruct (Merkle.mFlags st) as [|f0 fs]; [no_step|].
      destruct (negb (Z.land (Merkle.pos st) msb =? 0)).
      * destruct (negb (Merkle.flag_set f0 (Merkle.i st)));
          intros H; injection H as <-; apply Hpush;
          intros E; apply app_eq_nil in E; destruct E as [_ E]; discriminate E.
      * destruct (Merkle.pos st >=? transactions); [no_step|].
        intros H. injection H as <-. apply Hpush.
        intros E; apply app_eq_nil in E; destruct E as [_ E]; discriminate E.
Qed.

Lemma node_at_in_range (s : list Merkle.merkleNode) (k : Z) :
  0 <= k < Z.of_nat (length s) -> exists n, Merkle.node_at s k = Some n.
Proof.
  intros Hk. unfold Merkle.node_at. destruct (k <? 0) eqn:E; [lia|].
  destruct (nth_error s (Z.to_nat k)) as [n|] eqn:En; [eexists; reflexivity|].
  apply nth_error_None in En. lia.
Qed.

(** An iteration neither panics nor hangs when there is a node on the
    stack or the position is not in the dead zone. *)
Lemma step_returns_or_goes_on (st : Merkle.state) :
  Merkle.s st <> [] \/ Merkle.inDeadZone (Merkle.pos st) transactions = Some false ->
  (exists st', step st = Merkle.Continue st') \/
  (exists r e, step st = Merkle.Done (Merkle.Returned r e)).
Proof.
  intros Hinv. unfold step, Merkle.step, Merkle.new_node. cbv zeta.
  set (tip := Z.of_nat (length (Merkle.s st)) - 1).
  destruct (Merkle.complete (Merkle.s st)) eqn:Ec.
  { unfold Merkle.complete in Ec. apply andb_prop in Ec. destruct Ec as [_ Ef].
    destruct (Merkle.node_at (Merkle.s st) 0) as [[p0 [h0|]]|];
      try discriminate Ef.
    right. destruct (Uint256_IsEqual h0 root); eexists; eexists; reflexivity. }
  destruct (inDeadZone_total (Merkle.pos st)) as [b Hb]. rewrite Hb.
  destruct b.
  - (* dead zone *)
    destruct Hinv as [Hne | Hnd]; [|congruence].
    assert (Htip : 0 <= tip < Z.of_nat (length (Merkle.s st))).
    { unfold tip. destruct (Merkle.s st); [congruence | cbn [length]; lia]. }
    destruct (node_at_in_range _ _ Htip) as [ntip Entip]. rewrite Entip.
    destruct ntip as [ptip [htip|]]; cbn [Merkle.h Merkle.MakeMerkleParent];
      [|right; eexists; eexists; reflexivity].
    destruct (Z.eq_dec tip 0) as [E0 | Hn0].
    { (* one filled node would have been complete *)
      exfalso. unfold Merkle.complete in Ec. fold tip in Ec.
      rewrite E0 in Ec, Entip. rewrite Entip in Ec. discriminate Ec. }
    assert (H1 : 0 <= tip - 1 < Z.of_nat (length (Merkle.s st))) by lia.
    destruct (node_at_in_range _ _ H1) as [n1 En1]. rewrite En1.
    match goal with
    | |- context [Merkle.node_at ?s2 (tip - 1)] =>
        destruct (node_at_in_range s2 (tip - 1)) as [n2 En2]
    end.
    { rewrite length_firstn, set_h_length. lia. }
    rewrite En2. left. eexists. reflexivity.
  - destruct (Merkle.combinable (Merkle.s st)) eqn:Eb.
    + unfold Merkle.combinable in Eb. cbv zeta in Eb. fold tip in Eb.
      apply andb_prop in Eb. destruct Eb as [Eb Ef2].
      apply andb_prop in Eb. destruct Eb as [Et Ef1].
      destruct (Merkle.node_at (Merkle.s st) (tip - 1)) as [nl|] eqn:Enl;
        [|discriminate Ef1].
      destruct (Merkle.node_at (Merkle.s st) tip) as [nr|] eqn:Enr;
        [|discriminate Ef2].
      apply node_at_Some in Enr.
      destruct (Merkle.MakeMerkleParent Sha256D (Merkle.h nl) (Merkle.h nr))
        as [hv | e |] eqn:Em.
      * match goal with
        | |- context [Merkle.node_at ?s2 (tip - 2)] =>
            destruct (node_at_in_range s2 (tip - 2)) as [n2 En2]
        end.
        { rewrite length_firstn, set_h_length. lia. }
        rewrite En2. left. eexists. reflexivity.
      * right. eexists. eexists. reflexivity.
      * exfalso. unfold Merkle.MakeMerkleParent in Em.
        destruct (Merkle.h nl) as [hl|]; [|discriminate Em].
        destruct (Merkle.h nr) as [hr|]; [|discriminate Em].
        destruct (Uint256_IsEqual hl hr); discriminate Em.
    + destruct (Merkle.mHashes st) as [|h0 hashes'];
        [right; eexists; eexists; reflexivity|].
      destruct (Merkle.mFlags st) as [|f0 fs];
        [right; eexists; eexists; reflexivity|].
      destruct (negb (Z.land (Merkle.pos st) msb =? 0)).
      * destruct (negb (Merkle.flag_set f0 (Merkle.i st)));
          left; eexists; reflexivity.
      * destruct (Merkle.pos st >=? transactions);
          [right; eexists; eexists; reflexivity | left; eexists; reflexivity].
Qed.

Lemma run_returns (fuel : nat) (st : Merkle.state) :
  Merkle.s st <> [] \/ Merkle.inDeadZone (Merkle.pos st) transactions = Some false ->
  Merkle.flag_position_ok st -> Merkle.measure st < Z.of_nat fuel ->
  exists r e hs,
    Merkle.run Sha256D fuel root transactions msb st = (Merkle.Returned r e, hs).
Proof.
  revert st. induction fuel as [|fuel IH]; intros st Hinv Hok Hm.
  - pose proof (measure_nonneg st Hok). lia.
  - cbn [Merkle.run].
    destruct (step_returns_or_goes_on st Hinv) as [[st' Hs] | (r & e & Hs)];
      unfold step in Hs; rewrite Hs.
    + destruct (step_decreases Sha256D root transactions msb st st' Hok Hs)
        as [Hok' Hlt].
      apply IH; [left; exact (step_leaves_node st st' Hs) | exact Hok' | lia].
    + eexists. eexists. eexists. reflexivity.
Qed.

End EveryCallReturns.

(** X16.  CheckMerkleBlock returns for every block that says it has at
    most 2^31 transactions, whatever its root, hashes and flag bytes: it
    neither panics nor loops for ever, and its loop makes at most
    [16 * len(m.Flags) + 1] iterations. *)
Theorem CheckMerkleBlock_always_returns
    (Sha256D : list byte -> list byte) (m : Merkle.MerkleBlock) :
  0 <= Merkle.Transactions m <= 2 ^ 31 ->
  exists r e, Merkle.CheckMerkleBlock Sha256D m = Merkle.Returned r e.
Proof.
  intros Ht. unfold Merkle.CheckMerkleBlock, Merkle.CheckMerkleBlock_run.
  destruct (Merkle.Transactions m =? 0) eqn:E0; [eexists; eexists; reflexivity|].
  destruct (length (Merkle.Flags m) =? 0)%nat eqn:Ef; [eexists; eexists; reflexivity|].
  assert (Hn : 0 < Merkle.Transactions m <= 2 ^ 31) by lia.
  destruct (nextPowerOfTwo_spec _ Hn) as (dz & Htd & Hnp & Hdz & Hle & _).
  rewrite Hnp.
  set (d := Z.to_nat dz).
  assert (Hpw : 2 ^ dz = pw d) by (unfold pw, d; rewrite Z2Nat.id by lia; reflexivity).
  pose proof (pw_pos d) as Hp.
  assert (Hp31 : pw d <= 2 ^ 31) by (unfold pw; apply pow2_le_mono; lia).
  assert (Htot : forall pos,
            exists b, Merkle.inDeadZone pos (Merkle.Transactions m) = Some b)
    by (intros pos; apply inDeadZone_returns; exact Hn).
  destruct (run_returns Sha256D (Merkle.MerkleRoot m) (Merkle.Transactions m)
              (2 ^ dz) Htot (Merkle.iterations m) (Merkle.initial m (2 ^ dz)))
    as (r & e & hs & Hrun).
  - right. unfold Merkle.initial. cbn [Merkle.pos]. rewrite Hpw.
    assert (Hroot : u32 (shl32 (pw d) 1 - 2) = position d 0 0).
    { unfold position. rewrite Nat.add_0_r, pw_succ. change (pw (0 + 1)) with 2.
      unfold shl32, u32. rewrite Z.shiftl_mul_pow2 by lia. change (2 ^ 1) with 2.
      destruct (Z.eq_dec (pw d) (2 ^ 31)) as [E | E].
      - rewrite E. reflexivity.
      - rewrite (Z.mod_small (pw d * 2)) by lia.
        rewrite Z.mod_small by lia. lia. }
    rewrite Hroot, (inDeadZone_position (Merkle.Transactions m) d 0 0);
      rewrite ?Nat.add_0_r, ?pw_0, <- ?Hpw; try lia; [|exact Hnp].
    destruct (0 * 2 ^ dz <? Merkle.Transactions m) eqn:E; [reflexivity | lia].
  - unfold Merkle.initial, Merkle.flag_position_ok. cbn [Merkle.i Merkle.mFlags]. lia.
  - unfold Merkle.initial, Merkle.measure, Merkle.iterations.
    cbn [Merkle.i Merkle.mFlags Merkle.s length]. lia.
  - rewrite Hrun. exists r, e. reflexivity.
Qed.

Lemma CheckMerkleBlock_always_returns_witness :
  0 <= 3 <= 2 ^ 31 /\
  exists r e,
    Merkle.CheckMerkleBlock Sha256.Sha256D
      (Merkle.mkMerkleBlock (repeat x00 32) 3 [None; Some [x01]] [xff; x07]) =
      Merkle.Returned r e.
Proof.
  assert (Ht : 0 <= 3 <= 2 ^ 31) by lia.
  split; [exact Ht|].
  exact (CheckMerkleBlock_always_returns Sha256.Sha256D
           (Merkle.mkMerkleBlock (repeat x00 32) 3 [None; Some [x01]] [xff; x07]) Ht).
Defined.

(** ** CheckMerkleBlock: what is returned comes from the message *)

Lemma subsequence_prefix {A} (a b c : list A) :
  subsequence a b -> subsequence a (b ++ c).
Proof.
  intros H. rewrite <- (app_nil_r a).
  apply subsequence_app; [exact H | apply subsequence_nil_l].
Qed.

Section FoundInMessage.

Variable Sha256D : list byte -> list byte.
Variable root : Uint256.
Variables transactions msb : Z.
Variable hashes : list Merkle.hashptr.

Let step := Merkle.step Sha256D root transactions msb.

(** The hashes popped so far are a prefix of the message's, and the
    transaction ids found so far are some of them, in their order. *)
Lemma step_found (st : Merkle.state) (used : list Merkle.hashptr) :
  hashes = used ++ Merkle.mHashes st -> subsequence (Merkle.r st) used ->
  match step st with
  | Merkle.Continue st' =>
      exists used', hashes = used' ++ Merkle.mHashes st' /\
                    subsequence (Merkle.r st') used'
  | Merkle.Done (Merkle.Returned r e) => subsequence r hashes
  | Merkle.Done _ => True
  end.
Proof.
  intros Hh Hr.
  assert (Hret : subsequence (Merkle.r st) hashes)
    by (rewrite Hh; apply subsequence_prefix; exact Hr).
  assert (Hnil : subsequence [] hashes) by apply subsequence_nil_l.
  unfold step, Merkle.step, Merkle.new_node. cbv zeta.
  set (tip := Z.of_nat (length (Merkle.s st)) - 1).
  destruct (Merkle.complete (Merkle.s st)).
  { destruct (Merkle.node_at (Merkle.s st) 0) as [[p0 [h0|]]|]; try exact I.
    destruct (Uint256_IsEqual h0 root); assumption. }
  destruct (Merkle.inDeadZone (Merkle.pos st) transactions) as [[|]|];
    [| |exact I].
  - destruct (Merkle.node_at (Merkle.s st) tip) as [ntip|]; [|exact I].
    destruct (Merkle.MakeMerkleParent Sha256D (Merkle.h ntip) None);
      [|exact Hret|exact I].
    destruct (Merkle.node_at (Merkle.s st) (tip - 1)) as [n1|]; [|exact I].
    destruct (Merkle.node_at (firstn _ _) _) as [n2|]; [|exact I].
    exists used. cbn [Merkle.mHashes Merkle.r]. auto.
  - destruct (Merkle.combinable (Merkle.s st)).
    + destruct (Merkle.node_at (Merkle.s st) (tip - 1)) as [nl|]; [|exact I].
      destruct (Merkle.node_at (Merkle.s st) tip) as [nr|]; [|exact I].
      destruct (Merkle.MakeMerkleParent Sha256D _ _); [|exact Hret|exact I].
      destruct (Merkle.node_at (firstn _ _) _) as [n2|]; [|exact I].
      exists used. cbn [Merkle.mHashes Merkle.r]. auto.
    + destruct (Merkle.mHashes st) as [|h0 hashes'] eqn:Eh; [exact Hnil|].
      destruct (Merkle.mFlags st) as [|f0 fs]; [exact Hnil|].
      assert (Hpop : hashes = (used ++ [h0]) ++ hashes')
        by (rewrite <- app_assoc; exact Hh).
      assert (Hskip : subsequence (Merkle.r st) (used ++ [h0])).
      { apply subsequence_prefix. exact Hr. }
      assert (Htake : subsequence (Merkle.r st ++ [h0]) (used ++ [h0])).
      { apply subsequence_app; [exact Hr | apply subsequence_refl]. }
      destruct (negb (Z.land (Merkle.pos st) msb =? 0)).
      * destruct (negb (Merkle.flag_set f0 (Merkle.i st))).
        -- exists (used ++ [h0]).
           rewrite (proj1 (proj2 (advance_fields _))).
           rewrite (proj2 (proj2 (proj2 (advance_fields _)))).
           cbn [Merkle.mHashes Merkle.r]. auto.
        -- exists used.
           rewrite (proj1 (proj2 (advance_fields _))).
           rewrite (proj2 (proj2 (proj2 (advance_fields _)))).
           cbn [Merkle.mHashes Merkle.r]. auto.
      * destruct (Merkle.pos st >=? transactions); [exact Hnil|].
        exists (used ++ [h0]).
        rewrite (proj1 (proj2 (advance_fields _))).
        rewrite (proj2 (proj2 (proj2 (advance_fields _)))).
        cbn [Merkle.mHashes Merkle.r].
        destruct (Merkle.flag_set f0 (Merkle.i st)); auto.
Qed.

Lemma run_found (fuel : nat) (st : Merkle.state) (used : list Merkle.hashptr) :
  hashes = used ++ Merkle.mHashes st -> subsequence (Merkle.r st) used ->
  forall r e hs,
    Merkle.run Sha256D fuel root transactions msb st = (Merkle.Returned r e, hs) ->
    subsequence r hashes.
Proof.
  revert st used. induction fuel as [|fuel IH]; intros st used Hh Hr r e hs;
    cbn [Merkle.run]; [discriminate|].
  pose proof (step_found st used Hh Hr) as Hstep. unfold step in Hstep.
  destruct (Merkle.step Sha256D root transactions msb st) as [st' | o].
  - destruct Hstep as (used' & Hh' & Hr'). apply (IH st' used' Hh' Hr').
  - intros H. injection H as -> _. exact Hstep.
Qed.

End FoundInMessage.

(** X17.  The transaction ids CheckMerkleBlock returns, with or without
    an error, are hashes of the message: a subsequence of [m.Hashes], in
    the message's order. *)
Theorem CheckMerkleBlock_returns_hashes_of_message
    (Sha256D : list byte -> list byte) (m : Merkle.MerkleBlock)
    (r : list Merkle.hashptr) (e : option error) :
  Merkle.CheckMerkleBlock Sha256D m = Merkle.Returned r e ->
  subsequence r (Merkle.Hashes m).
Proof.
  unfold Merkle.CheckMerkleBlock, Merkle.CheckMerkleBlock_run.
  destruct (Merkle.Transactions m =? 0).
  { intros H. injection H as <- _. apply subsequence_nil_l. }
  destruct (length (Merkle.Flags m) =? 0)%nat.
  { intros H. injection H as <- _. apply subsequence_nil_l. }
  destruct (Merkle.nextPowerOfTwo (Merkle.Transactions m)) as [msb|];
    [|discriminate].
  destruct (Merkle.run Sha256D (Merkle.iterations m) (Merkle.MerkleRoot m)
              (Merkle.Transactions m) msb (Merkle.initial m msb))
    as [o hs] eqn:Hrun.
  cbn [fst]. intros ->.
  apply (run_found Sha256D (Merkle.MerkleRoot m) (Merkle.Transactions m) msb
           (Merkle.Hashes m) (Merkle.iterations m) (Merkle.initial m msb) []
           eq_refl (subsequence_nil) r e hs Hrun).
Qed.

Lemma CheckMerkleBlock_returns_hashes_of_message_witness :
  Merkle.CheckMerkleBlock (fun b => firstn 32 b)
    (Merkle.mkMerkleBlock (repeat x01 32) 1 [Some (repeat x01 32); Some [x02]] [x01]) =
    Merkle.Returned [Some (repeat x01 32)] None /\
  subsequence [Some (repeat x01 32)] [Some (repeat x01 32); Some [x02]].
Proof.
  assert (H : Merkle.CheckMerkleBlock (fun b => firstn 32 b)
    (Merkle.mkMerkleBlock (repeat x01 32) 1 [Some (repeat x01 32); Some [x02]] [x01]) =
    Merkle.Returned [Some (repeat x01 32)] None) by (vm_compute; reflexivity).
  split; [exact H|].
  exact (CheckMerkleBlock_returns_hashes_of_message _ _ _ _ H).
Defined.

(** ** CheckMerkleBlock: the tree of one leaf *)

(** X18.  In a block of one transaction the leaf is the root: nothing
    is hashed.  CheckMerkleBlock takes the first hash of the message and
    compares it with the merkle root; when they are equal it returns
    that hash if the first flag bit is set and nothing if it is not, when
    they differ the error "computed root ... but expect ..."; and when the
    first hash is a nil pointer, the error "Left child is nil". *)
Theorem CheckMerkleBlock_single_transaction
    (Sha256D : list byte -> list byte) (root : Uint256)
    (h0 : Merkle.hashptr) (hs : list Merkle.hashptr) (f : byte) (fs : list byte) :
  let m := Merkle.mkMerkleBlock root 1 (h0 :: hs) (f :: fs) in
  let found := if Merkle.flag_set f 0 then [h0] else [] in
  (forall hv, h0 = Some hv -> hv = root ->
     Merkle.CheckMerkleBlock Sha256D m = Merkle.Returned found None) /\
  (forall hv, h0 = Some hv -> hv <> root ->
     Merkle.CheckMerkleBlock Sha256D m =
       Merkle.Returned [] (Some (fmt_Errorf "computed root %s but expect %s\n"))) /\
  (h0 = None ->
     Merkle.CheckMerkleBlock Sha256D m =
       Merkle.Returned found (Some (errors_New "Left child is nil"))).
Proof.
  cbv zeta.
  assert (Hrun : forall k,
    Merkle.run Sha256D (S (S k)) root 1 1
      (Merkle.initial (Merkle.mkMerkleBlock root 1 (h0 :: hs) (f :: fs)) 1) =
    match h0 with
    | Some hv =>
        if Uint256_IsEqual hv root
        then (Merkle.Returned (if Merkle.flag_set f 0 then [h0] else []) None, hs)
        else (Merkle.Returned []
                (Some (fmt_Errorf "computed root %s but expect %s\n")), hs)
    | None =>
        (Merkle.Returned (if Merkle.flag_set f 0 then [h0] else [])
           (Some (errors_New "Left child is nil")), hs)
    end).
  { intros k. cbn [Merkle.run]. unfold Merkle.initial.
    cbn [Merkle.Hashes Merkle.Flags].
    change (u32 (shl32 1 1 - 2)) with 0.
    unfold Merkle.step at 1. cbn [Merkle.s Merkle.pos length].
    change (Merkle.complete []) with false. cbv iota.
    change (Merkle.inDeadZone 0 1) with (Some false). cbv iota.
    change (Merkle.combinable []) with false. cbv iota.
    unfold Merkle.new_node.
    cbn [Merkle.mHashes Merkle.mFlags Merkle.pos Merkle.i Merkle.s Merkle.r app].
    change (negb (Z.land 0 1 =? 0)) with false. cbv iota.
    change (0 >=? 1) with false. cbv iota.
    change (Z.land 0 1 =? 0) with true. cbv iota.
    change (Z.lor 0 1) with 1.
    unfold Merkle.advance. cbn [Merkle.i Merkle.s Merkle.r Merkle.pos Merkle.mHashes
                                Merkle.mFlags].
    change ((0 + 1) mod 256 =? 8) with false. cbv iota.
    change ((0 + 1) mod 256) with 1.
    unfold Merkle.step. cbn [Merkle.s Merkle.pos Merkle.r Merkle.mHashes length].
    destruct h0 as [hv|].
    - change (Merkle.complete [Merkle.mkNode 0 (Some hv)]) with true. cbv iota.
      change (Merkle.node_at [Merkle.mkNode 0 (Some hv)] 0)
        with (Some (Merkle.mkNode 0 (Some hv))). cbv iota.
      destruct (Uint256_IsEqual hv root); reflexivity.
    - change (Merkle.complete [Merkle.mkNode 0 None]) with false. cbv iota.
      change (Merkle.inDeadZone 1 1) with (Some true). cbv iota.
      reflexivity. }
  assert (Hit : exists k,
            Merkle.iterations (Merkle.mkMerkleBlock root 1 (h0 :: hs) (f :: fs)) =
            S (S k)).
  { exists (16 * length fs + 15)%nat. unfold Merkle.iterations.
    cbn [Merkle.Flags length]. lia. }
  destruct Hit as [k Hk].
  assert (Hcheck :
    Merkle.CheckMerkleBlock Sha256D
      (Merkle.mkMerkleBlock root 1 (h0 :: hs) (f :: fs)) =
    fst (Merkle.run Sha256D (S (S k)) root 1 1
           (Merkle.initial (Merkle.mkMerkleBlock root 1 (h0 :: hs) (f :: fs)) 1))).
  { unfold Merkle.CheckMerkleBlock, Merkle.CheckMerkleBlock_run.
    cbn [Merkle.Transactions Merkle.Flags Merkle.MerkleRoot length].
    change (1 =? 0) with false. cbv iota.
    change (S (length fs) =? 0)%nat with false. cbv iota.
    change (Merkle.nextPowerOfTwo 1) with (Some 1). cbv iota.
    rewrite Hk. reflexivity. }
  rewrite Hcheck, Hrun. split; [|split].
  - intros hv -> ->. unfold Uint256_IsEqual. rewrite bytes_Equal_refl. reflexivity.
  - intros hv -> Hne. unfold Uint256_IsEqual.
    destruct (bytes_Equal hv root) eqn:E; [|reflexivity].
    apply bytes_Equal_eq in E. contradiction.
  - intros ->. reflexivity.
Qed.

Lemma CheckMerkleBlock_single_transaction_witness :
  Some (repeat x01 32) = Some (repeat x01 32) /\ repeat x01 32 = repeat x01 32 /\
  Merkle.CheckMerkleBlock Sha256.Sha256D
    (Merkle.mkMerkleBlock (repeat x01 32) 1 [Some (repeat x01 32)] [x01]) =
    Merkle.Returned [Some (repeat x01 32)] None.
Proof.
  split; [reflexivity|]. split; [reflexivity|].
  exact (proj1 (CheckMerkleBlock_single_transaction Sha256.Sha256D (repeat x01 32)
                  (Some (repeat x01 32)) [] x01 [])
           (repeat x01 32) eq_refl eq_refl).
Defined.

(** ** Package bloom: the merkleblock message on the wire *)

Lemma ReadFull_taken (r r' : Reader) (n : nat) (p : list byte) :
  ReadFull r n = Ok (p, r') -> length p = n /\ r = p ++ r'.
Proof.
  unfold ReadFull. destruct n as [|n].
  - intros H. injection H as <- <-. split; reflexivity.
  - destruct r as [|b r]; [discriminate|].
    destruct (S n <=? length (b :: r))%nat eqn:E; [|discriminate].
    intros H. injection H as <- <-. apply Nat.leb_le in E.
    cbn [length] in *. split; [rewrite length_firstn; lia|].
    cbn [app]. rewrite firstn_skipn. reflexivity.
Qed.

(** The hashes ReadElement reads into a slice of [n] pointers are the
    next [n] times 32 bytes of the input, in their order. *)
Lemma ReadUint256s_wire (n : nat) (r r' : Reader) (l : list Uint256) :
  ReadUint256s r n = Ok (l, r') ->
  length l = n /\ Forall (fun u => length u = 32%nat) l /\ r = concat l ++ r'.
Proof.
  revert r r' l. induction n as [|n IH]; intros r r' l; cbn [ReadUint256s].
  - intros H. injection H as <- <-. split; [reflexivity|]. split; [constructor|].
    reflexivity.
  - unfold Uint256_Deserialize.
    destruct (ReadFull r 32) as [[u r1]| |] eqn:E1; cbn [bind]; try discriminate.
    destruct (ReadUint256s r1 n) as [[us r2]| |] eqn:E2; cbn [bind]; try discriminate.
    intros H. injection H as <- <-.
    destruct (IH _ _ _ E2) as (Hl & Hf & Hr). apply ReadFull_taken in E1.
    destruct E1 as [Hu Hr1].
    split; [cbn [length]; lia|]. split; [constructor; assumption|].
    cbn [concat]. rewrite <- app_assoc, <- Hr. exact Hr1.
Qed.

(** What ReadUint8, ReadUint16, ReadUint32 and ReadUint64 return without
    an error is the value of the next bytes of the input. *)
Lemma ReadUintN_taken (width : nat) (r r' : Reader) (v : Z) :
  width <> 0%nat -> ReadUintN width r = Ok (v, r') ->
  v = Uint (firstn width r) /\ r' = skipn width r /\
  0 <= v < 2 ^ (8 * Z.of_nat width).
Proof.
  intros Hw H. destruct r as [|b r]; [discriminate H|].
  rewrite ReadUintN_available in H by (congruence || discriminate).
  injection H as <- <-. split; [reflexivity|]. split; [reflexivity|].
  pose proof (Uint_range (firstn width (b :: r))) as Hr.
  assert (Hle : 2 ^ (8 * Z.of_nat (length (firstn width (b :: r)))) <=
                2 ^ (8 * Z.of_nat width)).
  { apply pow2_le_mono. rewrite length_firstn. lia. }
  lia.
Qed.

Lemma deref_all_Some (l : list Uint256) :
  MerkleBlockMsg.deref_all (map Some l) = Some l.
Proof.
  induction l as [|u l IH]; [reflexivity|].
  cbn [map MerkleBlockMsg.deref_all]. rewrite IH. reflexivity.
Qed.

Lemma all_hashes_present (hs : list Merkle.hashptr) :
  Forall (fun h => exists u, h = Some u /\ length u = 32%nat) hs ->
  exists l, hs = map Some l /\ Forall (fun u => length u = 32%nat) l.
Proof.
  induction 1 as [|h hs (u & -> & Hu) Hhs (l & -> & Hl)].
  - exists []. split; [reflexivity | constructor].
  - exists (u :: l). split; [reflexivity | constructor; assumption].
Qed.

Section MerkleBlockWire.

Variable Header : Type.
Variable Header_Serialize : Header -> Writer -> result Writer.
Variable Header_Deserialize : Header -> Reader -> result (Header * Reader).

Let Serialize := MerkleBlockMsg.Serialize Header Header_Serialize.
Let Deserialize := MerkleBlockMsg.Deserialize Header Header_Deserialize.

(** X19.  When the block header's own Serialize and Deserialize invert
    each other, a merkleblock message with at least one flag byte comes
    back from Deserialize as it was given to Serialize: the transaction
    count, the hashes and the flag bytes; a message with no flag byte is
    serialized, but Deserialize fails on the result with io.EOF. *)
Theorem MerkleBlock_Serialize_Deserialize
    (msg recv : MerkleBlockMsg.MerkleBlock Header) (hbytes : list byte) :
  MerkleBlockMsg.wf Header msg ->
  (forall w, Header_Serialize (MerkleBlockMsg.BlockHeader Header msg) w =
             Ok (w ++ hbytes)) ->
  (forall rest, Header_Deserialize (MerkleBlockMsg.BlockHeader Header recv)
                  (hbytes ++ rest) =
                Ok (MerkleBlockMsg.BlockHeader Header msg, rest)) ->
  exists out,
    Serialize msg = Ok out /\
    (MerkleBlockMsg.Flags Header msg <> [] -> Deserialize recv out = Ok msg) /\
    (MerkleBlockMsg.Flags Header msg = [] -> Deserialize recv out = Err io_EOF).
Proof.
  intros (Ht & Hn & Hh & Hf) HS HD.
  destruct (all_hashes_present _ Hh) as (l & El & Hl).
  destruct msg as [hd tx hs fl].
  cbn [MerkleBlockMsg.BlockHeader MerkleBlockMsg.Transactions
       MerkleBlockMsg.Hashes MerkleBlockMsg.Flags] in *.
  subst hs. rewrite length_map in Hn.
  set (body := PutUint 4 tx ++ PutUint 4 (Z.of_nat (length l)) ++ concat l ++
               VarBytes_form fl).
  exists (hbytes ++ body). split; [|split].
  - unfold Serialize, MerkleBlockMsg.Serialize.
    cbn [MerkleBlockMsg.BlockHeader MerkleBlockMsg.Transactions
         MerkleBlockMsg.Hashes MerkleBlockMsg.Flags].
    rewrite HS, deref_all_Some, length_map. cbn [bind app].
    cbn [WriteElements WriteElement]. unfold binary_Write, Write. cbn [bind].
    rewrite WriteUint256s_concat. cbn [bind].
    rewrite WriteVarBytes_form by exact Hf. cbn [bind].
    unfold u32. rewrite Z.mod_small by lia.
    unfold body. rewrite <- !app_assoc. reflexivity.
  - intros Hne. unfold Deserialize, MerkleBlockMsg.Deserialize.
    rewrite HD. cbn [bind]. unfold body, ReadUint32.
    rewrite ReadUintN_PutUint by discriminate. cbn [bind].
    rewrite ReadUintN_PutUint by discriminate. cbn [bind].
    rewrite !Z.mod_small by (cbn; lia). rewrite Nat2Z.id.
    cbn [ReadElements ReadElement].
    rewrite ReadUint256s_concat by exact Hl. cbn [bind].
    rewrite <- (app_nil_r (VarBytes_form fl)).
    rewrite ReadVarBytes_form by (auto). cbn [bind]. reflexivity.
  - intros ->. unfold Deserialize, MerkleBlockMsg.Deserialize.
    rewrite HD. cbn [bind]. unfold body, ReadUint32.
    rewrite ReadUintN_PutUint by discriminate. cbn [bind].
    rewrite ReadUintN_PutUint by discriminate. cbn [bind].
    rewrite !Z.mod_small by (cbn; lia). rewrite Nat2Z.id.
    cbn [ReadElements ReadElement].
    rewrite ReadUint256s_concat by exact Hl. cbn [bind]. reflexivity.
Qed.

(** X20.  A message that Deserialize returns is what the body holds
    after the block header: the transaction count is the value of the
    next four bytes, the number of hashes is the value of the four bytes
    after them, the hashes are the bytes that follow, 32 for each and in
    their order, none of them a nil pointer, and the flag bytes are what
    ReadVarBytes reads from what is left. *)
Theorem MerkleBlock_Deserialize_hashes_present
    (recv msg : MerkleBlockMsg.MerkleBlock Header) (body : list byte) :
  Deserialize recv body = Ok msg ->
  exists (b1 : Reader) (l : list Uint256) (rest rest' : Reader),
    Header_Deserialize (MerkleBlockMsg.BlockHeader Header recv) body =
      Ok (MerkleBlockMsg.BlockHeader Header msg, b1) /\
    MerkleBlockMsg.Transactions Header msg = Uint (firstn 4 b1) /\
    0 <= MerkleBlockMsg.Transactions Header msg < 2 ^ 32 /\
    MerkleBlockMsg.Hashes Header msg = map Some l /\
    Z.of_nat (length l) = Uint (firstn 4 (skipn 4 b1)) /\
    Z.of_nat (length (MerkleBlockMsg.Hashes Header msg)) < 2 ^ 32 /\
    Forall (fun u => length u = 32%nat) l /\
    Forall (fun h => exists u, h = Some u /\ length u = 32%nat)
      (MerkleBlockMsg.Hashes Header msg) /\
    skipn 8 b1 = concat l ++ rest /\
    ReadVarBytes rest = Ok (MerkleBlockMsg.Flags Header msg, rest').
Proof.
  unfold Deserialize, MerkleBlockMsg.Deserialize.
  destruct (Header_Deserialize _ body) as [[hd b1]| |]; cbn [bind]; try discriminate.
  destruct (ReadUint32 b1) as [[tx b2]| |] eqn:Et; cbn [bind]; try discriminate.
  destruct (ReadUint32 b2) as [[n b3]| |] eqn:En; cbn [bind]; try discriminate.
  cbn [ReadElements ReadElement].
  destruct (ReadUint256s b3 (Z.to_nat n)) as [[l b4]| |] eqn:El; cbn [bind];
    try discriminate.
  destruct (ReadVarBytes b4) as [[fl b5]| |] eqn:Ef; cbn [bind]; try discriminate.
  intros H. injection H as <-.
  cbn [MerkleBlockMsg.BlockHeader MerkleBlockMsg.Hashes
       MerkleBlockMsg.Transactions MerkleBlockMsg.Flags].
  apply ReadUintN_taken in Et; [|discriminate].
  apply ReadUintN_taken in En; [|discriminate].
  destruct Et as (Htx & Hb2 & Htr). destruct En as (Hn & Hb3 & Hnr).
  apply ReadUint256s_wire in El. destruct El as (Hlen & Hall & Hb).
  assert (Hb3' : b3 = skipn 8 b1).
  { rewrite Hb3, Hb2, skipn_skipn. reflexivity. }
  exists b1, l, b4, b5.
  split; [reflexivity|]. split; [exact Htx|]. split; [cbn in Htr; lia|].
  split; [reflexivity|]. split; [rewrite Hlen, <- Hb2, <- Hn; lia|].
  split; [rewrite length_map, Hlen; cbn in Hnr; lia|].
  split; [exact Hall|]. split.
  - clear Hlen Hb. induction Hall as [|u l' Hu Hl IH]; cbn [map]; constructor; eauto.
  - split; [rewrite <- Hb3'; exact Hb | exact Ef].
Qed.

End MerkleBlockWire.

Lemma MerkleBlock_Serialize_Deserialize_witness :
  let Ser := fun (h : byte) (w : Writer) => Ok (w ++ [h]) in
  let Des := fun (_ : byte) (r : Reader) =>
               match r with [] => Err io_EOF | b :: r' => Ok (b, r') end in
  let msg := MerkleBlockMsg.mkMerkleBlock byte x07 2
               [Some (repeat x01 32); Some (repeat x02 32)] [x05] in
  MerkleBlockMsg.wf byte msg /\
  exists out,
    MerkleBlockMsg.Serialize byte Ser msg = Ok out /\
    MerkleBlockMsg.Deserialize byte Des
      (MerkleBlockMsg.mkMerkleBlock byte x00 0 [] []) out = Ok msg.
Proof.
  cbv zeta.
  assert (Hwf : MerkleBlockMsg.wf byte
            (MerkleBlockMsg.mkMerkleBlock byte x07 2
               [Some (repeat x01 32); Some (repeat x02 32)] [x05])).
  { unfold MerkleBlockMsg.wf.
    cbn [MerkleBlockMsg.Transactions MerkleBlockMsg.Hashes MerkleBlockMsg.Flags].
    split; [lia|]. split; [cbn; lia|]. split; [|unfold maxAlloc; cbn; lia].
    repeat constructor; eexists; split; reflexivity. }
  assert (Hne : MerkleBlockMsg.Flags byte
            (MerkleBlockMsg.mkMerkleBlock byte x07 2
               [Some (repeat x01 32); Some (repeat x02 32)] [x05]) <> [])
    by discriminate.
  split; [exact Hwf|].
  destruct (MerkleBlock_Serialize_Deserialize byte
              (fun (h : byte) (w : Writer) => Ok (w ++ [h]))
              (fun (_ : byte) (r : Reader) =>
                 match r with [] => Err io_EOF | b :: r' => Ok (b, r') end)
              _ (MerkleBlockMsg.mkMerkleBlock byte x00 0 [] []) [x07]
              Hwf (fun w => eq_refl) (fun rest => eq_refl))
    as (out & HS & HD & _).
  exists out. split; [exact HS | exact (HD Hne)].
Defined.

Lemma MerkleBlock_Deserialize_hashes_present_witness :
  let Des := fun (_ : byte) (r : Reader) =>
               match r with [] => Err io_EOF | b :: r' => Ok (b, r') end in
  let body := [x07] ++ PutUint 4 2 ++ PutUint 4 1 ++ repeat x01 32 ++ [x01; x05] in
  let msg := MerkleBlockMsg.mkMerkleBlock byte x07 2 [Some (repeat x01 32)] [x05] in
  MerkleBlockMsg.Deserialize byte Des
    (MerkleBlockMsg.mkMerkleBlock byte x00 0 [] []) body = Ok msg /\
  exists (b1 : Reader) (l : list Uint256),
    MerkleBlockMsg.Hashes byte msg = map Some l /\
    Z.of_nat (length l) = Uint (firstn 4 (skipn 4 b1)).
Proof.
  cbv zeta.
  assert (HD : MerkleBlockMsg.Deserialize byte
            (fun (_ : byte) (r : Reader) =>
               match r with [] => Err io_EOF | b :: r' => Ok (b, r') end)
            (MerkleBlockMsg.mkMerkleBlock byte x00 0 [] [])
            ([x07] ++ PutUint 4 2 ++ PutUint 4 1 ++ repeat x01 32 ++ [x01; x05]) =
          Ok (MerkleBlockMsg.mkMerkleBlock byte x07 2 [Some (repeat x01 32)] [x05]))
    by (vm_compute; reflexivity).
  split; [exact HD|].
  destruct (MerkleBlock_Deserialize_hashes_present byte _ _ _ _ HD)
    as (b1 & l & _ & _ & _ & _ & _ & Hh & Hn & _).
  exists b1, l. split; [exact Hh | exact Hn].
Defined.

(** ** Package sdk: the address filter *)

Lemma AddrMap_eqb_bytes_Equal (a h : AddrFilter.Uint168) :
  AddrMapFacts.eqb a h = bytes_Equal a h.
Proof. reflexivity. Qed.

Lemma load_all_present (l : list AddrFilter.Uint168) (m : AddrMap.t AddrFilter.Uint168) :
  exists m',
    AddrFilter.load m (map Some l) = Ok m' /\
    (forall h, AddrMap.mem h m' = true <-> In h l \/ AddrMap.mem h m = true) /\
    ((forall k v, AddrMap.MapsTo k v m -> v = k) ->
     forall k v, AddrMap.MapsTo k v m' -> v = k).
Proof.
  revert m. induction l as [|a l IH]; intros m; cbn [map AddrFilter.load].
  - exists m. split; [reflexivity|]. split; [|auto].
    intros h. split; [auto | intros [[] | H]; exact H].
  - destruct (IH (AddrMap.add a a m)) as (m' & Hl & Hmem & Hkey).
    exists m'. split; [exact Hl|]. split.
    + intros h. rewrite Hmem, AddrMapFacts.add_b, AddrMap_eqb_bytes_Equal.
      cbn [In]. split.
      * intros [Hin | Hm]; [left; right; exact Hin|].
        apply orb_true_iff in Hm. destruct Hm as [He | Hm]; [|right; exact Hm].
        apply bytes_Equal_eq in He. left. left. exact He.
      * intros [[He | Hin] | Hm]; [| left; exact Hin |].
        -- right. apply orb_true_iff. left. apply bytes_Equal_eq. exact He.
        -- right. apply orb_true_iff. right. exact Hm.
    + intros Hm. apply Hkey. intros k v Hkv.
      apply AddrMapFacts.add_mapsto_iff in Hkv.
      destruct Hkv as [[He Hv] | [_ Hkv]]; [|exact (Hm k v Hkv)].
      unfold Uint168Key.eq in He. congruence.
Qed.

Lemma load_nil_pointer (l : list (option AddrFilter.Uint168))
    (m : AddrMap.t AddrFilter.Uint168) :
  In None l -> AddrFilter.load m l = Panic.
Proof.
  revert m. induction l as [|[a|] l IH]; intros m Hin; cbn [AddrFilter.load].
  - destruct Hin.
  - apply IH. destruct Hin as [H | H]; [discriminate H | exact H].
  - reflexivity.
Qed.

Lemma mem_cardinal_pos (m : AddrMap.t AddrFilter.Uint168) :
  (0 <? AddrMap.cardinal m)%nat = true <-> exists h, AddrMap.mem h m = true.
Proof.
  rewrite AddrMap.cardinal_1. split.
  - intros Hc. apply Nat.ltb_lt in Hc.
    destruct (AddrMap.elements m) as [|[k v] els] eqn:E; [cbn [length] in Hc; lia|].
    exists k. apply AddrMapFacts.mem_in_iff. exists v.
    apply AddrMapFacts.elements_mapsto_iff. rewrite E. left. split; reflexivity.
  - intros [h Hh]. apply AddrMapFacts.mem_in_iff in Hh. destruct Hh as [v Hv].
    assert (Hv' : SetoidList.InA (AddrMap.eq_key_elt (elt:=AddrFilter.Uint168))
                    (h, v) (AddrMap.elements m))
      by (apply AddrMapFacts.elements_mapsto_iff; exact Hv).
    apply Nat.ltb_lt.
    destruct (AddrMap.elements m); [inversion Hv' | cbn [length]; lia].
Qed.

(** X21.  NewAddrFilter, given pointers none of which is nil, makes a
    filter that contains exactly the addresses pointed to; it is loaded
    exactly when there is at least one; LoadAddrs on a filter that
    already holds addresses makes the same filter, the old addresses are
    gone; a nil pointer in the slice makes both panic. *)
Theorem NewAddrFilter_contains_the_loaded (l : list AddrFilter.Uint168) :
  (exists filter,
     AddrFilter.NewAddrFilter (map Some l) = Ok filter /\
     (forall old, AddrFilter.LoadAddrs old (map Some l) = Ok filter) /\
     (forall hash, AddrFilter.ContainAddr filter hash = true <-> In hash l) /\
     (AddrFilter.IsLoaded filter = true <-> l <> []) /\
     AddrFilter.keyed_by_value filter) /\
  (forall old l', In None l' ->
     AddrFilter.NewAddrFilter l' = Panic /\ AddrFilter.LoadAddrs old l' = Panic).
Proof.
  split.
  - destruct (load_all_present l (AddrMap.empty _)) as (m & Hl & Hmem & Hkey).
    assert (Hcont : forall hash, AddrMap.mem hash m = true <-> In hash l).
    { intros hash. rewrite Hmem, AddrMapFacts.empty_a. split; [|auto].
      intros [H | H]; [exact H | discriminate H]. }
    exists (AddrFilter.mkAddrFilter (Some m)).
    unfold AddrFilter.NewAddrFilter, AddrFilter.LoadAddrs. rewrite Hl.
    split; [reflexivity|]. split; [reflexivity|]. split; [exact Hcont|]. split.
    + unfold AddrFilter.IsLoaded. cbn [AddrFilter.addrs]. rewrite mem_cardinal_pos.
      split.
      * intros [h Hh] ->. apply Hcont in Hh. destruct Hh.
      * intros Hne. destruct l as [|a l']; [congruence|].
        exists a. apply Hcont. left. reflexivity.
    + unfold AddrFilter.keyed_by_value. cbn [AddrFilter.addrs]. apply Hkey.
      intros k v Hkv. apply AddrMapFacts.empty_mapsto_iff in Hkv. destruct Hkv.
  - intros old l' Hin. unfold AddrFilter.NewAddrFilter, AddrFilter.LoadAddrs.
    rewrite (load_nil_pointer l' _ Hin). split; reflexivity.
Qed.

(** X22.  On a filter whose map has been made, AddAddr adds the address
    pointed to and DeleteAddr removes the one given, and neither touches
    another address: afterwards ContainAddr answers true for the added
    and false for the deleted address, and for every other address what
    it answered before.  On the zero filter, whose map is nil, AddAddr
    panics, DeleteAddr does nothing and ContainAddr answers false. *)
Theorem AddAddr_DeleteAddr_ContainAddr
    (filter : AddrFilter.AddrFilter) (m : AddrMap.t AddrFilter.Uint168)
    (a hash : AddrFilter.Uint168) :
  AddrFilter.addrs filter = Some m ->
  (exists filter',
     AddrFilter.AddAddr filter (Some a) = Ok filter' /\
     AddrFilter.ContainAddr filter' hash =
       (bytes_Equal a hash || AddrFilter.ContainAddr filter hash)) /\
  AddrFilter.ContainAddr (AddrFilter.DeleteAddr filter a) hash =
    (negb (bytes_Equal a hash) && AddrFilter.ContainAddr filter hash) /\
  AddrFilter.AddAddr filter None = Panic /\
  AddrFilter.AddAddr AddrFilter.zero (Some a) = Panic /\
  AddrFilter.DeleteAddr AddrFilter.zero a = AddrFilter.zero /\
  AddrFilter.ContainAddr AddrFilter.zero hash = false.
Proof.
  intros Hm. split; [|split; [|repeat split]].
  - unfold AddrFilter.AddAddr. rewrite Hm. eexists. split; [reflexivity|].
    unfold AddrFilter.ContainAddr. rewrite Hm. cbn [AddrFilter.addrs].
    rewrite AddrMapFacts.add_b. reflexivity.
  - unfold AddrFilter.DeleteAddr, AddrFilter.ContainAddr. rewrite Hm.
    cbn [AddrFilter.addrs]. rewrite AddrMapFacts.remove_b. reflexivity.
Qed.

Lemma elements_In (m : AddrMap.t AddrFilter.Uint168) (k v : AddrFilter.Uint168) :
  In (k, v) (AddrMap.elements m) <-> AddrMap.MapsTo k v m.
Proof.
  rewrite AddrMapFacts.elements_mapsto_iff, SetoidList.InA_alt. split.
  - intros Hin. exists (k, v). split; [split; reflexivity | exact Hin].
  - intros ([k' v'] & [Hk Hv] & Hin). cbn [fst snd] in Hk, Hv.
    unfold Uint168Key.eq in Hk. subst. exact Hin.
Qed.

Lemma NoDup_keys (els : list (AddrFilter.Uint168 * AddrFilter.Uint168)) :
  SetoidList.NoDupA (AddrMap.eq_key (elt:=AddrFilter.Uint168)) els ->
  NoDup (map fst els).
Proof.
  induction 1 as [|[k v] els Hnot Hnd IH]; cbn [map fst]; constructor; [|exact IH].
  intros Hin. apply Hnot. apply in_map_iff in Hin.
  destruct Hin as ([k' v'] & Hk & Hin). cbn [fst] in Hk. subst k'.
  apply SetoidList.InA_alt. exists (k, v'). split; [reflexivity | exact Hin].
Qed.

(** X23.  The three methods that write the map keep every address under
    its own value, and on such a filter GetAddrs returns each address
    that ContainAddr answers true for, each exactly once, and no other;
    the filter is loaded exactly when GetAddrs returns something. *)
Theorem GetAddrs_each_address_once (filter : AddrFilter.AddrFilter) :
  AddrFilter.keyed_by_value filter ->
  NoDup (AddrFilter.GetAddrs filter) /\
  (forall hash, In hash (AddrFilter.GetAddrs filter) <->
                AddrFilter.ContainAddr filter hash = true) /\
  (AddrFilter.IsLoaded filter = true <-> AddrFilter.GetAddrs filter <> []) /\
  (forall a filter', AddrFilter.AddAddr filter (Some a) = Ok filter' ->
                     AddrFilter.keyed_by_value filter') /\
  (forall a, AddrFilter.keyed_by_value (AddrFilter.DeleteAddr filter a)).
Proof.
  unfold AddrFilter.keyed_by_value, AddrFilter.GetAddrs, AddrFilter.ContainAddr,
    AddrFilter.IsLoaded, AddrFilter.AddAddr, AddrFilter.DeleteAddr.
  destruct (AddrFilter.addrs filter) as [m|] eqn:Em; intros Hkey.
  - assert (Hsame : map snd (AddrMap.elements m) = map fst (AddrMap.elements m)).
    { apply map_ext_in. intros [k v] Hin. apply elements_In in Hin.
      cbn [fst snd]. exact (Hkey k v Hin). }
    assert (Hin : forall hash, In hash (map snd (AddrMap.elements m)) <->
                               AddrMap.mem hash m = true).
    { intros hash. rewrite <- AddrMapFacts.mem_in_iff. split.
      - intros H. apply in_map_iff in H. destruct H as ([k v] & Hv & H).
        cbn [snd] in Hv. subst v. apply elements_In in H.
        pose proof (Hkey k hash H) as E. subst hash. exists k. exact H.
      - intros [v Hv]. apply in_map_iff. exists (hash, v). split.
        + cbn [snd]. exact (Hkey hash v Hv).
        + apply elements_In. exact Hv. }
    split; [|split; [exact Hin|split; [|split]]].
    + rewrite Hsame. apply NoDup_keys. apply AddrMap.elements_3w.
    + rewrite mem_cardinal_pos. split.
      * intros [h Hh] E. apply Hin in Hh. rewrite E in Hh. destruct Hh.
      * intros Hne. destruct (map snd (AddrMap.elements m)) as [|h t] eqn:E;
          [congruence|].
        exists h. apply Hin. left. reflexivity.
    + intros a filter' H. injection H as <-. cbn [AddrFilter.addrs].
      intros k v Hkv. apply AddrMapFacts.add_mapsto_iff in Hkv.
      destruct Hkv as [[He Hv] | [_ Hkv]]; [|exact (Hkey k v Hkv)].
      unfold Uint168Key.eq in He. congruence.
    + intros a. cbn [AddrFilter.addrs]. intros k v Hkv.
      apply AddrMapFacts.remove_mapsto_iff in Hkv. exact (Hkey k v (proj2 Hkv)).
  - split; [constructor|]. split; [|split; [|split]].
    + intros hash. split; [intros [] | discriminate].
    + split; [discriminate | congruence].
    + intros a filter' H. discriminate H.
    + intros a. rewrite Em. exact I.
Qed.

Lemma AddAddr_DeleteAddr_ContainAddr_witness :
  AddrFilter.addrs (AddrFilter.mkAddrFilter (Some (AddrMap.empty _))) =
    Some (AddrMap.empty AddrFilter.Uint168) /\
  exists filter',
    AddrFilter.AddAddr (AddrFilter.mkAddrFilter (Some (AddrMap.empty _)))
      (Some [x01]) = Ok filter' /\
    AddrFilter.ContainAddr filter' [x01] = true.
Proof.
  assert (Hm : AddrFilter.addrs (AddrFilter.mkAddrFilter (Some (AddrMap.empty _))) =
               Some (AddrMap.empty AddrFilter.Uint168)) by reflexivity.
  split; [exact Hm|].
  destruct (proj1 (AddAddr_DeleteAddr_ContainAddr _ _ [x01] [x01] Hm))
    as (filter' & HA & HC).
  exists filter'. split; [exact HA | exact HC].
Defined.

Lemma NewAddrFilter_contains_the_loaded_witness :
  In None [Some [x01]; None] /\
  AddrFilter.NewAddrFilter [Some [x01]; None] = Panic /\
  exists filter,
    AddrFilter.NewAddrFilter (map Some [[x01]; [x02]; [x01]]) = Ok filter /\
    (AddrFilter.ContainAddr filter [x02] = true <-> In [x02] [[x01]; [x02]; [x01]]).
Proof.
  assert (Hin : In None [Some [x01]; None]) by (right; left; reflexivity).
  split; [exact Hin|]. split.
  - exact (proj1 (proj2 (NewAddrFilter_contains_the_loaded [])
                    AddrFilter.zero [Some [x01]; None] Hin)).
  - destruct (proj1 (NewAddrFilter_contains_the_loaded [[x01]; [x02]; [x01]]))
      as (filter & HN & _ & HC & _).
    exists filter. split; [exact HN | exact (HC [x02])].
Defined.

Lemma GetAddrs_each_address_once_witness :
  AddrFilter.keyed_by_value
    (AddrFilter.mkAddrFilter (Some (AddrMap.add [x01] [x01] (AddrMap.empty _)))) /\
  NoDup (AddrFilter.GetAddrs
    (AddrFilter.mkAddrFilter (Some (AddrMap.add [x01] [x01] (AddrMap.empty _))))) /\
  In [x01] (AddrFilter.GetAddrs
    (AddrFilter.mkAddrFilter (Some (AddrMap.add [x01] [x01] (AddrMap.empty _))))).
Proof.
  assert (Hk : AddrFilter.keyed_by_value
    (AddrFilter.mkAddrFilter (Some (AddrMap.add [x01] [x01] (AddrMap.empty _))))).
  { unfold AddrFilter.keyed_by_value. cbn [AddrFilter.addrs]. intros k v H.
    apply AddrMapFacts.add_mapsto_iff in H.
    destruct H as [[He Hv] | [_ H]].
    - unfold Uint168Key.eq in He. congruence.
    - apply AddrMapFacts.empty_mapsto_iff in H. destruct H. }
  destruct (GetAddrs_each_address_once _ Hk) as (Hnd & Hin & _).
  split; [exact Hk|]. split; [exact Hnd|]. apply Hin. reflexivity.
Defined.
